(** * A shallow embedding of [alternative_stt.SimpleAudioRecorder]

    The recorder reads fixed-size chunks of 16-bit PCM audio from a stream,
    classifies each chunk as silence or speech by its normalised RMS,
    collects the chunks of one utterance, writes them to a temporary WAV
    file, hands the file to the Whisper model and calls the user's callback
    with the stripped text.

    Modelling choices:
    - a chunk is the [bytes] object the stream returns, a [list byte];
    - a Python [float] is an IEEE 754 double, Rocq's primitive [float]; the
      attributes [silence_threshold] and [silence_duration] are floats, as
      their annotations say;
    - NumPy's [float32] and [float64] are [spec_float]s under the operations
      of the Standard Library's specification of IEEE 754 at precision 24
      and 53, every operation rounded to nearest, ties to even; NumPy is
      NumPy 2: the sum of [np.mean] is the pairwise sum of [np.add.reduce],
      its quotient is taken in [float64] and cast to [float32], and a Python
      float that meets a [float32] is cast to [float32] first;
    - [wave] is the module of CPython 3.11, errors of [struct.pack] included;
    - the audio stream is a finite list of reads; when the list runs out the
      loop is blocked in [stream.read]; [audio.open] and [stream.read]
      return, an error of the audio device is not modelled;
    - the flag [is_recording] is shared with other threads: an assignment
      by another thread is an item of the input, between two reads;
    - exceptions are the instances of Python's [Exception];
    - a call of the model or of the callback returns or raises. *)

From Stdlib Require Import ZArith QArith Qround Qpower Reals Qreals.
From Stdlib Require Import Lqa Lra Lia List Bool.
From Stdlib Require Import Floats.
From Stdlib Require Import Strings.String Strings.Byte.
From stdpp Require Import base gmap list.

Set Warnings "-inexact-float".

Open Scope Z_scope.

(** ** Exceptions and results *)

Inductive exn : Type :=
| ValueError (msg : string)
| ZeroDivisionError (msg : string)
| RuntimeError (msg : string)
| Exception (cls msg : string).

(** The result of a call: it returns a value or it raises. *)
Inductive res (A : Type) : Type :=
| Ret (a : A)
| Exc (e : exn).

Arguments Ret {A} a.
Arguments Exc {A} e.

#[export] Instance res_ret : MRet res := fun A a => Ret a.

#[export] Instance res_bind : MBind res := fun A B k m =>
  match m with
  | Ret a => k a
  | Exc e => Exc e
  end.

(** ** Numbers *)

Definition Qltb (x y : Q) : bool := negb (Qle_bool y x).

Definition signed (s : bool) (m : positive) : Z :=
  if s then Z.neg m else Z.pos m.

(** The number a float stands for: [±m * 2^e] for a finite one, 0 for a
    zero; an infinity and NaN stand for no number and are given 0. *)
Definition SF2Q (x : spec_float) : Q :=
  match x with
  | S754_finite s m e => (inject_Z (signed s m) * 2 ^ e)%Q
  | _ => 0%Q
  end.

(** *** Python's [float] *)

(** The number a Python float stands for. *)
Definition float_Q (x : float) : Q := SF2Q (Prim2SF x).

(** Neither an infinity nor NaN. *)
Definition finite (x : float) : bool :=
  match Prim2SF x with
  | S754_zero _ | S754_finite _ _ _ => true
  | _ => false
  end.

(** An [int] that meets a float in [*] or [/] is converted to [float]:
    rounded to the nearest double, and too large an [int] raises. *)
Definition py_float_of_int (z : Z) : res float :=
  match binary_normalize prec emax z 0 false with
  | S754_infinity _ =>
      Exc (Exception "OverflowError" "int too large to convert to float")
  | x => Ret (SF2Prim x)
  end.

(** [x * y] for a float [x] and an int [y]. *)
Definition py_float_mul_int (x : float) (y : Z) : res float :=
  y' ← py_float_of_int y;
  Ret (x * y')%float.

(** [x / y] for a float [x] and an int [y]. *)
Definition py_float_truediv_int (x : float) (y : Z) : res float :=
  y' ← py_float_of_int y;
  if (y' =? 0)%float then Exc (ZeroDivisionError "float division by zero")
  else Ret (x / y')%float.

(** [n > x] for an int [n] and a float [x]: Python compares the two
    numbers exactly; nothing is above NaN. *)
Definition py_int_gt_float (n : Z) (x : float) : bool :=
  match Prim2SF x with
  | S754_nan => false
  | S754_infinity s => s
  | y => Qltb (SF2Q y) (inject_Z n)
  end.

(** *** NumPy's [float32] and [float64] *)

(** An integer as a [float32], as a [float64]. *)
Definition np_float32_of_int (x : Z) : spec_float :=
  binary_normalize 24 128 x 0 false.

Definition np_float64_of_int (x : Z) : spec_float :=
  binary_normalize 53 1024 x 0 false.

(** A cast to a float type: a finite number is rounded to the type, a
    zero, an infinity and NaN are kept. *)
Definition np_cast (prec emax : Z) (x : spec_float) : spec_float :=
  match x with
  | S754_finite s m e => binary_round prec emax s m e
  | _ => x
  end.

Definition np_float32 : spec_float -> spec_float := np_cast 24 128.

Definition np_float64 : spec_float -> spec_float := np_cast 53 1024.

Definition add32 : spec_float -> spec_float -> spec_float := SFadd 24 128.

(** [a.astype(np.float32)] for an array of 16-bit integers. *)
Definition astype_float32 (a : list Z) : list spec_float :=
  map np_float32_of_int a.

(** [a ** 2] for an array of [float32]: each element times itself. *)
Definition np_square (a : list spec_float) : list spec_float :=
  map (fun x => SFmul 24 128 x x) a.

(** The elements [l[j]], [l[j + 8]], ... of the first [groups] groups of
    eight. *)
Fixpoint lane (groups j : nat) (l : list spec_float) : list spec_float :=
  match groups with
  | O => []
  | S groups =>
      match l !! j with
      | Some x => x :: lane groups j (drop 8 l)
      | None => []
      end
  end.

(** A running sum that starts from the first element. *)
Definition running_sum (l : list spec_float) : spec_float :=
  match l with
  | [] => S754_nan
  | x :: l => fold_left add32 l x
  end.

(** NumPy's sum of a block of 8 to 128 numbers: eight running sums,
    [r[j]] over the elements [j], [j + 8], ..., are added in pairs, and the
    elements after the last full group of eight are added one by one. *)
Definition sum_block (l : list spec_float) : spec_float :=
  let groups := (length l / 8)%nat in
  let r j := running_sum (lane groups j l) in
  let res := add32 (add32 (add32 (r 0%nat) (r 1%nat)) (add32 (r 2%nat) (r 3%nat)))
                   (add32 (add32 (r 4%nat) (r 5%nat)) (add32 (r 6%nat) (r 7%nat))) in
  fold_left add32 (drop (8 * groups) l) res.

(** NumPy's pairwise sum: fewer than 8 numbers are added one by one from
    -0.0, up to 128 as a block, and more are split in two parts, the first
    of a length that is a multiple of 8.  The fuel is the depth of the
    splitting; the length of the list is enough. *)
Fixpoint pairwise_sum (fuel : nat) (l : list spec_float) : spec_float :=
  let n := length l in
  if (n <? 8)%nat then fold_left add32 l (S754_zero true)
  else if (n <=? 128)%nat then sum_block l
  else
    match fuel with
    | O => S754_nan
    | S fuel =>
        let n2 := (n / 2 - (n / 2) mod 8)%nat in
        add32 (pairwise_sum fuel (take n2 l)) (pairwise_sum fuel (drop n2 l))
    end.

(** [np.add.reduce] over a [float32] array: the pairwise sum added to the
    initial value, 0.0 for an empty array and -0.0 otherwise. *)
Definition np_sum (a : list spec_float) : spec_float :=
  add32 (S754_zero (negb (Nat.eqb (length a) 0))) (pairwise_sum (length a) a).

(** [np.mean] of a [float32] array: the sum over the count, divided in
    [float64] and cast to [float32]; the mean of an empty array is 0/0, NaN
    (numpy warns, it does not raise). *)
Definition np_mean (a : list spec_float) : spec_float :=
  let ret := np_sum a in
  let rcount := np_float64_of_int (Z.of_nat (length a)) in
  np_float32 (SFdiv 53 1024 (np_float64 ret) rcount).

(** [np.sqrt] of a [float32]. *)
Definition np_sqrt (x : spec_float) : spec_float := SFsqrt 24 128 x.

(** ** Chunks of audio *)

(** One little-endian signed 16-bit sample. *)
Definition int16_of_bytes (lo hi : byte) : Z :=
  let u := Z.lor (Z.of_N (Byte.to_N lo)) (Z.shiftl (Z.of_N (Byte.to_N hi)) 8) in
  if u <? 32768 then u else u - 65536.

(** [np.frombuffer(audio_chunk, dtype=np.int16)]. *)
Fixpoint np_frombuffer_int16 (buf : list byte) : res (list Z) :=
  match buf with
  | [] => Ret []
  | [_] => Exc (ValueError "buffer size must be a multiple of element size")
  | lo :: hi :: rest =>
      xs ← np_frombuffer_int16 rest;
      Ret (int16_of_bytes lo hi :: xs)
  end.

(** ** The recorder *)

Record SimpleAudioRecorder : Type := {
  chunk_size : Z;
  sample_rate : Z;
  channels : Z;
  silence_threshold : float;
  silence_duration : float;
  print_transcription_time : bool
}.

(** [rms / 32768.0] with
    [rms = np.sqrt(np.mean(audio_data.astype(np.float32) ** 2))]: a
    [float32] divided by a Python float is divided in [float32]. *)
Definition normalized_rms (audio_data : list Z) : spec_float :=
  let rms := np_sqrt (np_mean (np_square (astype_float32 audio_data))) in
  SFdiv 24 128 rms (np_float32_of_int 32768).

(** The threshold as the comparison with a [float32] takes it. *)
Definition threshold32 (self : SimpleAudioRecorder) : spec_float :=
  np_float32 (Prim2SF (silence_threshold self)).

Definition _is_silence (self : SimpleAudioRecorder) (audio_chunk : list byte)
  : res bool :=
  audio_data ← np_frombuffer_int16 audio_chunk;
  Ret (SFltb (normalized_rms audio_data) (threshold32 self)).

(** ** The words of the specification, over the real numbers *)

Definition sum_squares_R (samples : list Z) : R :=
  fold_right (fun x acc => IZR x * IZR x + acc)%R 0%R samples.

(** Root mean square of a frame. *)
Definition rms_R (samples : list Z) : R :=
  R_sqrt.sqrt (sum_squares_R samples / INR (length samples)).

(** The RMS normalised by the largest 16-bit amplitude. *)
Definition normalized_rms_R (samples : list Z) : R :=
  (rms_R samples / 32768)%R.

(** The same in exact arithmetic: the mean of the squares is a rational
    or, for no samples, NaN; the root is kept under the root sign. *)
Inductive npfloat : Type :=
| nan
| fin (q : Q).

Inductive surd : Type :=
| surd_nan
| surd_root (q : Q).

Definition Qsum (xs : list Q) : Q := fold_right Qplus 0%Q xs.

Definition squares (audio_data : list Z) : list Q :=
  map (fun x => inject_Z x * inject_Z x)%Q audio_data.

Definition exact_mean (xs : list Q) : npfloat :=
  match xs with
  | [] => nan
  | _ :: _ => fin (Qsum xs / inject_Z (Z.of_nat (length xs)))
  end.

Definition exact_sqrt (x : npfloat) : surd :=
  match x with
  | nan => surd_nan
  | fin q => if Qltb q 0 then surd_nan else surd_root q
  end.

(** [x / d] for a positive constant [d]: [√q / d = √(q / d²)]. *)
Definition surd_div (x : surd) (d : positive) : surd :=
  match x with
  | surd_nan => surd_nan
  | surd_root q => surd_root (q / inject_Z (Z.pos (d * d)))
  end.

Definition exact_normalized_rms (audio_data : list Z) : surd :=
  surd_div (exact_sqrt (exact_mean (squares audio_data))) 32768.

(** ** Text *)

(** A Python [str] is the list of its code points. *)
Abbreviation pystr := (list N).

(** [str.isspace] on one code point. *)
Definition py_isspace (c : N) : bool :=
  ((9 <=? c) && (c <=? 13) || (28 <=? c) && (c <=? 32)
   || (c =? 133) || (c =? 160) || (c =? 5760)
   || (8192 <=? c) && (c <=? 8202)
   || (c =? 8232) || (c =? 8233) || (c =? 8239) || (c =? 8287)
   || (c =? 12288))%N.

Fixpoint lstrip (s : pystr) : pystr :=
  match s with
  | [] => []
  | c :: s' => if py_isspace c then lstrip s' else s
  end.

Definition rstrip (s : pystr) : pystr := rev (lstrip (rev s)).

(** [str.strip()]. *)
Definition strip (s : pystr) : pystr := rstrip (lstrip s).

(** Truth value of a [str] or a [list]: non-empty. *)
Definition truthy {A} (l : list A) : bool :=
  match l with
  | [] => false
  | _ :: _ => true
  end.

(** ** Threads and the recorder's attributes *)

Abbreviation thread := nat.

(** The thread that runs the code, and which other threads are alive. *)
Record threading : Type := {
  current_thread : thread;
  other_alive : thread -> bool
}.

Definition Thread_is_alive (env : threading) (t : thread) : bool :=
  if decide (t = current_thread env) then true else other_alive env t.

(** [Thread.join]: joining the current thread raises; joining another
    thread returns once that thread has ended. *)
Definition Thread_join (env : threading) (t : thread) : res unit :=
  if decide (t = current_thread env)
  then Exc (RuntimeError "cannot join current thread")
  else Ret tt.

(** The attributes of the recorder that change. *)
Record attrs : Type := {
  is_recording : bool;
  recording_thread : option thread
}.

Definition set_is_recording (b : bool) (a : attrs) : attrs :=
  {| is_recording := b; recording_thread := recording_thread a |}.

Definition start (a : attrs) : res unit * attrs :=
  (Ret tt, set_is_recording true a).

Definition stop (env : threading) (a : attrs) : res unit * attrs :=
  let a := set_is_recording false a in
  match recording_thread a with
  | Some t =>
      if Thread_is_alive env t then (Thread_join env t, a) else (Ret tt, a)
  | None => (Ret tt, a)
  end.

(** ** The world of the capture loop *)

Abbreviation chunk := (list byte).

Record wav : Type := {
  nchannels : Z;
  sampwidth : Z;
  framerate : Z;
  wav_data : list byte
}.

Inductive message : Type :=
| ListeningForSpeech
| SpeechDetected
| TranscriptionTook
| TranscriptionError (e : exn).

Inductive event : Type :=
| StreamOpen
| Print (m : message)
| TempFile (name : nat)
| WavWrite (name : nat) (frames : list chunk)
| Transcribe (name : nat)
| Callback (text : pystr)
| Unlink (name : nat)
| StreamStop
| StreamClose.

(** The temporary files are kept by name; a file that holds no readable
    WAV audio, as a new one does, is [None]. *)
Record world : Type := {
  self_attrs : attrs;
  tmpfiles : gmap nat (option wav);
  trace : list event
}.

Definition log (ev : event) (w : world) : world :=
  {| self_attrs := self_attrs w; tmpfiles := tmpfiles w;
     trace := trace w ++ [ev] |}.

Definition with_attrs (a : attrs) (w : world) : world :=
  {| self_attrs := a; tmpfiles := tmpfiles w; trace := trace w |}.

Definition with_files (fs : gmap nat (option wav)) (w : world) : world :=
  {| self_attrs := self_attrs w; tmpfiles := fs; trace := trace w |}.

(** Code that changes the world and returns or raises. *)
Definition action (A : Type) : Type := world -> res A * world.

Definition pure {A} (a : A) : action A := fun w => (Ret a, w).

Definition bind {A B} (m : action A) (k : A -> action B) : action B :=
  fun w =>
    match m w with
    | (Ret a, w') => k a w'
    | (Exc e, w') => (Exc e, w')
    end.

Notation "'let*' x ':=' m 'in' k" := (bind m (fun x => k))
  (at level 10, x name, m at level 100, k at level 200).

Notation "m ';;;' k" := (bind m (fun _ => k))
  (at level 100, k at level 200, right associativity).

Definition tell (ev : event) : action unit := fun w => (Ret tt, log ev w).

(** [try: body  except Exception as e: handler e]. *)
Definition try_except {A} (body : action A) (handler : exn -> action A)
  : action A :=
  fun w =>
    match body w with
    | (Exc e, w') => handler e w'
    | r => r
    end.

(** [try: body  finally: final]. *)
Definition try_finally {A} (body : action A) (final : action unit)
  : action A :=
  fun w =>
    match body w with
    | (r, w') =>
        match final w' with
        | (Ret _, w'') => (r, w'')
        | (Exc e, w'') => (Exc e, w'')
        end
    end.

(** ** One utterance: temporary file, model, callback *)

(** A file name that is not in use. *)
Definition temp_name (w : world) : nat := fresh (dom (tmpfiles w)).

(** [tempfile.NamedTemporaryFile(suffix=".wav", delete=False)]: a new,
    empty file under a name that is not in use. *)
Definition NamedTemporaryFile : action nat := fun w =>
  let name := temp_name w in
  (Ret name, log (TempFile name) (with_files (<[name := None]> (tmpfiles w)) w)).

(** [struct.pack] of one unsigned field of 16 bits, of 32 bits. *)
Definition struct_pack_H (x : Z) : option exn :=
  if (0 <=? x) && (x <=? 65535) then None
  else Some (Exception "struct.error"
               "ushort format requires 0 <= number <= 65535").

Definition struct_pack_L (x : Z) : option exn :=
  if (0 <=? x) && (x <=? 4294967295) then None
  else Some (Exception "struct.error"
               "'L' format requires 0 <= number <= 4294967295").

(** The first error of a sequence of checks. *)
Fixpoint first_error (checks : list (option exn)) : option exn :=
  match checks with
  | [] => None
  | Some e :: _ => Some e
  | None :: checks => first_error checks
  end.

(** What leaves the block [with wave.open(temp_filename, 'wb') as wf:]
    when [wave] cannot write the file.  With fewer than one channel
    [setnchannels] raises, with a rate below one [setframerate] does, and
    the error that leaves the block is the one [close] raises for the
    missing setting when the block is left.  Otherwise [writeframes] packs
    the header, field by field: the length of the whole frames plus 36, the
    channels, the rate, the bytes a second, the bytes a frame, the bits a
    sample; and when the data do not end on a whole frame it packs the
    length again. *)
Definition wave_error (self : SimpleAudioRecorder) (frames : list chunk)
  : option exn :=
  let datawritten := Z.of_nat (length (concat frames)) in
  if channels self <? 1
  then Some (Exception "wave.Error" "# channels not specified")
  else if sample_rate self <? 1
  then Some (Exception "wave.Error" "sampling rate not specified")
  else
    let framesize := channels self * 2 in
    let datalength := datawritten / framesize * framesize in
    first_error
      [struct_pack_L (36 + datalength);
       struct_pack_H (channels self);
       struct_pack_L (sample_rate self);
       struct_pack_L (channels self * sample_rate self * 2);
       struct_pack_H framesize;
       struct_pack_H 16;
       if datalength =? datawritten then None
       else struct_pack_L (36 + datawritten)].

(** The file that [wave.open] and the four calls on it write: the
    channels, the sample width of [paInt16], the rate, and the frames
    joined. *)
Definition wave_of (self : SimpleAudioRecorder) (frames : list chunk) : wav :=
  {| nchannels := channels self; sampwidth := 2;
     framerate := sample_rate self; wav_data := concat frames |}.

(** The block [with wave.open(...) as wf:].  It is not inside a [try]: an
    error leaves the loop, and the file made before stays, without audio
    that can be read. *)
Definition wave_write (self : SimpleAudioRecorder) (name : nat)
    (frames : list chunk) : action unit := fun w =>
  match wave_error self frames with
  | Some e => (Exc e, w)
  | None =>
      (Ret tt,
       log (WavWrite name frames)
         (with_files (<[name := Some (wave_of self frames)]> (tmpfiles w)) w))
  end.

(** [self.model.transcribe(temp_filename, language="en")["text"]]: the
    model reads the file and returns its text or raises. *)
Definition model_transcribe (model : wav -> res pystr) (name : nat)
  : action pystr := fun w =>
  let w := log (Transcribe name) w in
  match tmpfiles w !! name with
  | Some (Some audio) => (model audio, w)
  | _ => (Exc (Exception "RuntimeError" "Failed to load audio"), w)
  end.

(** [callback(text)], run by the thread of the loop on the recorder. *)
Definition call (callback : pystr -> attrs -> res unit * attrs) (text : pystr)
  : action unit := fun w =>
  let w := log (Callback text) w in
  let (r, a) := callback text (self_attrs w) in
  (r, with_attrs a w).

Definition os_unlink (name : nat) : action unit := fun w =>
  match tmpfiles w !! name with
  | Some _ =>
      (Ret tt, log (Unlink name) (with_files (delete name (tmpfiles w)) w))
  | None => (Exc (Exception "FileNotFoundError" "No such file or directory"), w)
  end.

(** The body of [if frames and speech_detected:]. *)
Definition transcribe_utterance (self : SimpleAudioRecorder)
    (model : wav -> res pystr) (callback : pystr -> attrs -> res unit * attrs)
    (frames : list chunk) : action unit :=
  let* temp_filename := NamedTemporaryFile in
  wave_write self temp_filename frames ;;;
  try_finally
    (try_except
       (let* result := model_transcribe model temp_filename in
        let text := strip result in
        if truthy text then
          (if print_transcription_time self
           then tell (Print TranscriptionTook) else pure tt) ;;;
          call callback text
        else pure tt)
       (fun e => tell (Print (TranscriptionError e))))
    (try_except (os_unlink temp_filename) (fun _ => pure tt)) ;;;
  tell (Print ListeningForSpeech).

(** ** The capture loop *)

(** What the loop meets, in order: a chunk returned by [stream.read], or
    an assignment to [is_recording] by another thread ([stop()] or
    [start()] called there).  The loop sees an assignment at its next test
    of the flag. *)
Inductive input : Type :=
| Read (data : chunk)
| Assign (b : bool).

(** The local variables of the outer loop's body. *)
Record capture : Type := {
  frames : list chunk;
  silence_count : Z;
  speech_detected : bool
}.

Definition no_capture : capture :=
  {| frames := []; silence_count := 0; speech_detected := false |}.

(** [self.silence_duration * self.sample_rate / self.chunk_size], in
    doubles: the product is rounded, and then the quotient. *)
Definition silence_limit (self : SimpleAudioRecorder) : res float :=
  samples ← py_float_mul_int (silence_duration self) (sample_rate self);
  py_float_truediv_int samples (chunk_size self).

(** [silence_count > (...)]. *)
Definition enough_silence (self : SimpleAudioRecorder) (n : Z) : res bool :=
  limit ← silence_limit self;
  Ret (py_int_gt_float n limit).

Definition assigned (b : bool) (w : world) : world :=
  with_attrs (set_is_recording b (self_attrs w)) w.

(** The assignments by other threads that precede the next read. *)
Fixpoint pending (stream : list input) (w : world) : list input * world :=
  match stream with
  | Assign b :: stream' => pending stream' (assigned b w)
  | _ => (stream, w)
  end.

Inductive listened : Type :=
| Exited (rest : list input) (c : capture) (w : world)
| Blocked (c : capture) (w : world)
| Failed (e : exn) (w : world).

(** The inner [while self.is_recording:] loop. *)
Fixpoint listen (self : SimpleAudioRecorder) (stream : list input)
    (c : capture) (w : world) {struct stream} : listened :=
  match stream with
  | Assign b :: stream' => listen self stream' c (assigned b w)
  | [] => if is_recording (self_attrs w) then Blocked c w else Exited [] c w
  | Read data :: stream' =>
      if is_recording (self_attrs w) then
        match _is_silence self data with
        | Exc e => Failed e w
        | Ret false =>
            let w := if speech_detected c then w
                     else log (Print SpeechDetected) w in
            listen self stream'
              {| frames := frames c ++ [data]; silence_count := 0;
                 speech_detected := true |} w
        | Ret true =>
            if speech_detected c then
              let c := {| frames := frames c ++ [data];
                          silence_count := silence_count c + 1;
                          speech_detected := speech_detected c |} in
              match enough_silence self (silence_count c) with
              | Exc e => Failed e w
              | Ret true => Exited stream' c w
              | Ret false => listen self stream' c w
              end
            else listen self stream' c w
        end
      else Exited stream c w
  end.

Inductive outcome : Type :=
| Returned (w : world)
| Reading (c : capture) (w : world)
| Raised (e : exn) (w : world)
| OutOfFuel.

(** The outer [while self.is_recording:] loop and the two calls after it. *)
Fixpoint record_loop (fuel : nat) (self : SimpleAudioRecorder)
    (model : wav -> res pystr) (callback : pystr -> attrs -> res unit * attrs)
    (stream : list input) (w : world) : outcome :=
  match fuel with
  | O => OutOfFuel
  | S fuel =>
      let (stream, w) := pending stream w in
      if is_recording (self_attrs w) then
        match listen self stream no_capture w with
        | Blocked c w => Reading c w
        | Failed e w => Raised e w
        | Exited rest c w =>
            if truthy (frames c) && speech_detected c then
              match transcribe_utterance self model callback (frames c) w with
              | (Ret _, w) => record_loop fuel self model callback rest w
              | (Exc e, w) => Raised e w
              end
            else record_loop fuel self model callback rest w
        end
      else Returned (log StreamClose (log StreamStop w))
  end.

Definition _record_audio (self : SimpleAudioRecorder)
    (model : wav -> res pystr) (callback : pystr -> attrs -> res unit * attrs)
    (stream : list input) (w : world) : outcome :=
  let w := log (Print ListeningForSpeech) (log StreamOpen w) in
  record_loop (S (length stream)) self model callback stream w.

(** ** What a run shows *)

(** The utterance buffers that left the segmenter and were written, in
    order. *)
Fixpoint utterances (tr : list event) : list (list chunk) :=
  match tr with
  | [] => []
  | WavWrite _ fs :: tr => fs :: utterances tr
  | _ :: tr => utterances tr
  end.

(** The texts the callback was called with, in order. *)
Fixpoint callbacks (tr : list event) : list pystr :=
  match tr with
  | [] => []
  | Callback text :: tr => text :: callbacks tr
  | _ :: tr => callbacks tr
  end.

Definition final_world (o : outcome) : option world :=
  match o with
  | Returned w | Reading _ w | Raised _ w => Some w
  | OutOfFuel => None
  end.

(** ** The callback of [main_typer_assistant_alt.awaken] *)

Inductive said : Type :=
| Heard (text : pystr)
| Ignoring
| Response (output : pystr)
| Error (e : exn).

(** [process_text(text)].  [mentions text] stands for
    [assistant_name.lower() in text.lower()] with the name read by
    [get_config], and [assistant] for [assistant.process_text]; both live in
    modules outside these sources.  The function prints and catches every
    exception, so it returns what it printed and the recorder's
    attributes. *)
Definition process_text (env : threading) (mentions : pystr -> res bool)
    (assistant : pystr -> res pystr) (text : pystr) (a : attrs)
  : list said * attrs :=
  match mentions text with
  | Exc e => ([Heard text; Error e], a)
  | Ret false => ([Heard text; Ignoring], a)
  | Ret true =>
      match stop env a with
      | (Exc e, a) => ([Heard text; Error e], a)
      | (Ret _, a) =>
          match assistant text with
          | Exc e => ([Heard text; Error e], a)
          | Ret output =>
              match start a with
              | (Exc e, a) => ([Heard text; Response output; Error e], a)
              | (Ret _, a) => ([Heard text; Response output], a)
              end
          end
      end
  end.

Definition process_text_callback (env : threading)
    (mentions : pystr -> res bool) (assistant : pystr -> res pystr)
  : pystr -> attrs -> res unit * attrs :=
  fun text a => (Ret tt, snd (process_text env mentions assistant text a)).

(** ** The words of the specification on silence counts *)

(** The code computes a limit, and the limit is a number. *)
Definition finite_limit (self : SimpleAudioRecorder) : bool :=
  match silence_limit self with
  | Ret limit => finite limit
  | Exc _ => false
  end.

(** [silence_duration * sample_rate / frame_size] as the code computes
    it, in doubles, as a number. *)
Definition silence_ratio (self : SimpleAudioRecorder) : Q :=
  match silence_limit self with
  | Ret limit => float_Q limit
  | Exc _ => 0%Q
  end.

(** Glossary, silence-frame-count: the ceiling of the ratio. *)
Definition silence_frame_count (self : SimpleAudioRecorder) : Z :=
  Qceiling (silence_ratio self).

(** The least count of silent frames that is above the ratio. *)
Definition frames_to_break (self : SimpleAudioRecorder) : Z :=
  Z.max 1 (Qfloor (silence_ratio self) + 1).

(** The ratio of the same three numbers without rounding. *)
Definition exact_ratio (self : SimpleAudioRecorder) : Q :=
  (float_Q (silence_duration self) * inject_Z (sample_rate self)
   / inject_Z (chunk_size self))%Q.

(** A chunk the detector takes for silence, for speech. *)
Definition silent (self : SimpleAudioRecorder) (c : chunk) : Prop :=
  _is_silence self c = Ret true.

Definition speech (self : SimpleAudioRecorder) (c : chunk) : Prop :=
  _is_silence self c = Ret false.

(** A trimmed text: [strip] leaves it as it is. *)
Definition trimmed (s : pystr) : Prop := strip s = s.

(** What is printed before the callback is called. *)
Definition took (self : SimpleAudioRecorder) : list event :=
  if print_transcription_time self then [Print TranscriptionTook] else [].

(** What is printed after a call that returned or raised. *)
Definition reported {A} (r : res A) : list event :=
  match r with
  | Ret _ => []
  | Exc e => [Print (TranscriptionError e)]
  end.

(** The texts one utterance brings to the callback: the stripped text of
    the model when it is not empty. *)
Definition texts_of (r : res pystr) : list pystr :=
  match r with
  | Ret result => if truthy (strip result) then [strip result] else []
  | Exc _ => []
  end.

(** The world once the stream is open and the first line is printed. *)
Definition opened (w : world) : world :=
  log (Print ListeningForSpeech) (log StreamOpen w).

(** The buffers a run has written and the texts it has called the
    callback with. *)
Definition written (o : outcome) : list (list chunk) :=
  match final_world o with
  | Some w => utterances (trace w)
  | None => []
  end.

Definition called (o : outcome) : list pystr :=
  match final_world o with
  | Some w => callbacks (trace w)
  | None => []
  end.

(** The world in which the inner loop stops. *)
Definition listened_world (l : listened) : world :=
  match l with
  | Exited _ _ w | Blocked _ w | Failed _ w => w
  end.

(** A text the callback may be called with. *)
Definition callable (text : pystr) : Prop := text <> [] /\ trimmed text.

(** The world after an utterance whose file was written: the events
    [mid] lie between the call of the model and the removal of the file,
    and the attributes are [a]. *)
Definition after_utterance (frames : list chunk) (mid : list event)
    (a : attrs) (w : world) : world :=
  {| self_attrs := a; tmpfiles := tmpfiles w;
     trace := trace w ++
       [TempFile (temp_name w); WavWrite (temp_name w) frames;
        Transcribe (temp_name w)] ++ mid ++
       [Unlink (temp_name w); Print ListeningForSpeech] |}.

(** The world in which an error of [wave] leaves the loop: the file has
    been made and holds no audio. *)
Definition wave_failed (w : world) : world :=
  log (TempFile (temp_name w))
    (with_files (<[temp_name w := None]> (tmpfiles w)) w).

(** ** Notions for the results on floats *)

(** The order of the numbers floats stand for: NaN is below nothing and
    nothing is below it, the infinities are at the two ends. *)
Definition float_lt (x y : spec_float) : Prop :=
  match x, y with
  | S754_nan, _ | _, S754_nan => False
  | _, S754_infinity true => False
  | S754_infinity true, _ => True
  | S754_infinity false, _ => False
  | _, S754_infinity false => True
  | _, _ => (SF2Q x < SF2Q y)%Q
  end.

(** [m / 2 ^ k] rounded to the nearest integer, ties to even. *)
Definition rne (m k : Z) : Z :=
  let q := m / 2 ^ k in
  let r2 := 2 * (m mod 2 ^ k) in
  if r2 <? 2 ^ k then q
  else if 2 ^ k <? r2 then q + 1
  else if Z.even q then q else q + 1.

(** A float that is not below zero: NaN, a zero, a positive number or
    the positive infinity. *)
Definition not_negative (x : spec_float) : Prop :=
  match x with
  | S754_finite true _ _ | S754_infinity true => False
  | _ => True
  end.

(** A float above zero: a positive number or the positive infinity. *)
Definition positive_float (x : spec_float) : Prop :=
  match x with
  | S754_finite false _ _ | S754_infinity false => True
  | _ => False
  end.

(** ** Configurations and inputs used in examples *)

(** The defaults of [SimpleAudioRecorder.__init__]. *)
Definition default_recorder : SimpleAudioRecorder :=
  {| chunk_size := 1024; sample_rate := 16000; channels := 1;
     silence_threshold := 0.01; silence_duration := 2;
     print_transcription_time := true |}.

(** The defaults with chunks of 1000 samples: the ratio is 32 exactly. *)
Definition recorder_1000 : SimpleAudioRecorder :=
  {| chunk_size := 1000; sample_rate := 16000; channels := 1;
     silence_threshold := 0.01; silence_duration := 2;
     print_transcription_time := true |}.

(** The defaults with a threshold of one half. *)
Definition recorder_half : SimpleAudioRecorder :=
  {| chunk_size := 1024; sample_rate := 16000; channels := 1;
     silence_threshold := 0.5; silence_duration := 2;
     print_transcription_time := true |}.

(** A recorder with another silence threshold. *)
Definition with_threshold (t : float) (self : SimpleAudioRecorder)
  : SimpleAudioRecorder :=
  {| chunk_size := chunk_size self; sample_rate := sample_rate self;
     channels := channels self; silence_threshold := t;
     silence_duration := silence_duration self;
     print_transcription_time := print_transcription_time self |}.

(** A recorder with another silence duration and chunk size. *)
Definition with_duration (d : float) (size : Z) (self : SimpleAudioRecorder)
  : SimpleAudioRecorder :=
  {| chunk_size := size; sample_rate := sample_rate self;
     channels := channels self; silence_threshold := silence_threshold self;
     silence_duration := d;
     print_transcription_time := print_transcription_time self |}.

(** A recorder with another number of channels. *)
Definition with_channels (n : Z) (self : SimpleAudioRecorder)
  : SimpleAudioRecorder :=
  {| chunk_size := chunk_size self; sample_rate := sample_rate self;
     channels := n; silence_threshold := silence_threshold self;
     silence_duration := silence_duration self;
     print_transcription_time := print_transcription_time self |}.

(** A chunk of [n] samples that all have the low byte [lo] and the high
    byte [hi]. *)
Definition constant_chunk (lo hi : byte) (n : nat) : chunk :=
  concat (repeat [lo; hi] n).

(** 1024 samples of value 16384, half of full scale, and of value 0. *)
Definition loud : chunk := constant_chunk x00 x40 1024.

Definition quiet : chunk := constant_chunk x00 x00 1024.

(** The same with 1000 samples, the chunks [recorder_1000] reads. *)
Definition loud_1000 : chunk := constant_chunk x00 x40 1000.

Definition quiet_1000 : chunk := constant_chunk x00 x00 1000.

(** 124 samples of value 328 and four of value 1, 1, 427 and 498: the
    squares add up to [128 * 328 * 328 - 1]. *)
Definition near_328 : list Z := repeat 328 124 ++ [1; 1; 427; 498].

Definition near_328_chunk : chunk :=
  constant_chunk x48 x01 124
  ++ [x01; x00; x01; x00; xab; x01; xf2; x01].

(** The text [" hi "]. *)
Definition hi_padded : pystr := [32; 104; 105; 32]%N.

(** A recorder that is recording, run by thread 1, with no temporary
    files and nothing printed yet. *)
Definition recording_world : world :=
  {| self_attrs := {| is_recording := true; recording_thread := Some 1%nat |};
     tmpfiles := ∅; trace := [] |}.

(** Thread 1 runs the code, no other thread is alive. *)
Definition loop_thread : threading :=
  {| current_thread := 1%nat; other_alive := fun _ => false |}.

(** Models: one that hears [" hi "] in every file, one that hears
    nothing but blanks, one that fails. *)
Definition returns_hi : wav -> res pystr := fun _ => Ret hi_padded.

Definition returns_blank : wav -> res pystr := fun _ => Ret [32; 10]%N.

Definition model_fails : wav -> res pystr :=
  fun _ => Exc (Exception "RuntimeError" "model failed").

(** Callbacks: one that returns, one that raises, one that calls
    [recorder.stop()]. *)
Definition callback_returns : pystr -> attrs -> res unit * attrs :=
  fun _ a => (Ret tt, a).

Definition callback_raises : pystr -> attrs -> res unit * attrs :=
  fun _ a => (Exc (Exception "KeyError" "text"), a).

Definition callback_stops : pystr -> attrs -> res unit * attrs :=
  fun _ a => stop loop_thread a.

(** One utterance, a speech frame and 32 silent frames, and the first
    frame of the next one. *)
Definition one_utterance : list input :=
  map Read (loud :: repeat quiet 32) ++ [Read loud].

(** The loop's variables and world when [_record_audio] leaves the inner
    loop on [one_utterance] from [recording_world]. *)
Definition heard : capture :=
  {| frames := loud :: repeat quiet 32; silence_count := 32;
     speech_detected := true |}.

Definition heard_world : world :=
  log (Print SpeechDetected) (opened recording_world).

(** Thread 0 runs the code while thread 1, the recording thread of
    [recording_world], is alive. *)
Definition main_thread : threading :=
  {| current_thread := 0%nat; other_alive := fun t => Nat.eqb t 1 |}.

(** An assistant that answers [" hi "] to every text, and one that
    raises. *)
Definition returns_hi_text : pystr -> res pystr := fun _ => Ret hi_padded.

Definition assistant_fails : pystr -> res pystr :=
  fun _ => Exc (Exception "ValueError" "no command").

(** ** Notions for the results on whole runs *)

(** What [np.frombuffer] raises on a buffer of odd size, and what the
    division by a chunk size of 0 raises. *)
Definition odd_buffer : exn :=
  ValueError "buffer size must be a multiple of element size".

Definition division_by_zero : exn :=
  ZeroDivisionError "float division by zero".

(** The range of a signed 16-bit sample. *)
Definition in_int16 (x : Z) : Prop := -32768 <= x <= 32767.

(** The attributes [__init__] sets: not recording, no thread. *)
Definition init_attrs : attrs :=
  {| is_recording := false; recording_thread := None |}.

(** The chunks an input holds, in the order of the reads. *)
Fixpoint reads (stream : list input) : list chunk :=
  match stream with
  | [] => []
  | Read data :: stream => data :: reads stream
  | Assign _ :: stream => reads stream
  end.

(** The temporary files the model was called on, in order. *)
Fixpoint transcribed (tr : list event) : list nat :=
  match tr with
  | [] => []
  | Transcribe name :: tr => name :: transcribed tr
  | _ :: tr => transcribed tr
  end.

(** A buffer that starts with a chunk of speech. *)
Definition starts_with_speech (self : SimpleAudioRecorder)
    (fs : list chunk) : Prop :=
  exists s rest, fs = s :: rest /\ speech self s.

(** The loop's variables agree: before any speech nothing is kept, after
    it the buffer starts with speech. *)
Definition sound (self : SimpleAudioRecorder) (c : capture) : Prop :=
  if speech_detected c then starts_with_speech self (frames c)
  else frames c = [].

(** The stream is stopped or closed by this event. *)
Definition closes (ev : event) : Prop := ev = StreamStop \/ ev = StreamClose.

(** Whether the detector takes a chunk for silence. *)
Definition is_silent (self : SimpleAudioRecorder) (c : chunk) : bool :=
  match _is_silence self c with
  | Ret true => true
  | _ => false
  end.

(** The number of silent chunks a buffer starts with, and ends with. *)
Fixpoint leading_silence (self : SimpleAudioRecorder) (fs : list chunk)
  : nat :=
  match fs with
  | [] => 0
  | d :: fs => if is_silent self d then S (leading_silence self fs) else 0
  end.

Definition trailing_silence (self : SimpleAudioRecorder) (fs : list chunk)
  : nat :=
  leading_silence self (rev fs).

(** A recorder fresh from [__init__], with no temporary files and nothing
    printed yet. *)
Definition new_world : world :=
  {| self_attrs := init_attrs; tmpfiles := ∅; trace := [] |}.

(** The [float32] zero. *)
Abbreviation zero32 := (S754_zero false).

(** * Results *)

(** ** Floats: digits, shifts and rounding *)

Lemma digits2_pos_size (p : positive) : digits2_pos p = Pos.size p.
Proof. induction p as [p IH|p IH|]; simpl; now rewrite ?IH. Qed.

Lemma Zdigits2_log2 (m : Z) : 0 < m -> Zdigits2 m = Z.log2 m + 1.
Proof.
  destruct m as [|p|p]; try lia. intros _. simpl. rewrite digits2_pos_size.
  destruct p; simpl; lia.
Qed.

Lemma Zdigits2_bounds (m : Z) :
  0 < m -> 2 ^ (Zdigits2 m - 1) <= m < 2 ^ Zdigits2 m.
Proof.
  intros Hm. rewrite Zdigits2_log2 by exact Hm.
  replace (Z.log2 m + 1 - 1) with (Z.log2 m) by lia.
  replace (Z.log2 m + 1) with (Z.succ (Z.log2 m)) by lia.
  apply Z.log2_spec, Hm.
Qed.

Lemma Zdigits2_unique (m d : Z) :
  2 ^ (d - 1) <= m < 2 ^ d -> 0 < m -> Zdigits2 m = d.
Proof.
  intros H Hm. rewrite Zdigits2_log2 by exact Hm.
  assert (Hd : 0 < d).
  { destruct (Z.ltb_spec 0 d); [assumption|].
    rewrite (Z.pow_neg_r 2 (d - 1)) in H by lia.
    assert (2 ^ d <= 1); [|lia].
    destruct (Z.eq_dec d 0) as [->|]; [simpl; lia|].
    rewrite Z.pow_neg_r by lia. lia. }
  assert (Z.log2 m = d - 1); [|lia].
  apply Z.log2_unique; [lia|]. replace (Z.succ (d - 1)) with d by lia. exact H.
Qed.

Lemma Zdigits2_nonneg (m : Z) : 0 <= Zdigits2 m.
Proof. destruct m; simpl; lia. Qed.

Lemma Zdigits2_pos (m : Z) : 0 < m -> 0 < Zdigits2 m.
Proof. destruct m; simpl; lia. Qed.

Lemma iter_pos_iter {A} (f : A -> A) (p : positive) (x : A) :
  SpecFloat.iter_pos f p x = Pos.iter f x p.
Proof.
  revert x. induction p as [p IH|p IH|]; intros x; simpl.
  - rewrite !IH. rewrite <- Pos.iter_swap. rewrite <- Pos.iter_swap. reflexivity.
  - now rewrite !IH.
  - reflexivity.
Qed.

Lemma shr_1_m (mrs : shr_record) :
  0 <= shr_m mrs ->
  shr_1 mrs = {| shr_m := shr_m mrs / 2; shr_r := Z.odd (shr_m mrs);
                 shr_s := shr_r mrs || shr_s mrs |}.
Proof.
  destruct mrs as [m r s]. simpl. intros Hm.
  destruct m as [|p|p]; [reflexivity| |lia].
  destruct p as [p|p|]; simpl shr_1; cbv beta iota; f_equal.
  - rewrite Pos2Z.inj_xI. apply Z.div_unique with 1; lia.
  - rewrite Pos2Z.inj_xO. apply Z.div_unique with 0; lia.
Qed.

Lemma shr_m_iter (p : positive) (mrs : shr_record) :
  0 <= shr_m mrs ->
  shr_m (SpecFloat.iter_pos shr_1 p mrs) = shr_m mrs / 2 ^ Zpos p.
Proof.
  intros Hm. rewrite iter_pos_iter.
  induction p as [|p IH] using Pos.peano_ind.
  - simpl Pos.iter. rewrite shr_1_m by exact Hm. reflexivity.
  - rewrite Pos.iter_succ.
    assert (H0 : 0 <= shr_m (Pos.iter shr_1 mrs p)).
    { rewrite IH. apply Z.div_pos; lia. }
    rewrite shr_1_m by exact H0. cbn [shr_m]. rewrite IH.
    rewrite Z.div_div by lia. f_equal.
    rewrite Pos2Z.inj_succ, Z.pow_succ_r by lia. lia.
Qed.

Section Shifts.

Variables prec emax : Z.
Hypothesis prec_pos : 0 < prec.

Abbreviation fexp := (fexp prec emax).
Abbreviation emin := (SpecFloat.emin prec emax).

Lemma fexp_mono (x y : Z) : x <= y -> fexp x <= fexp y.
Proof. unfold SpecFloat.fexp. lia. Qed.

Lemma fexp_ge_emin (x : Z) : emin <= fexp x.
Proof. unfold SpecFloat.fexp. lia. Qed.

Lemma shr_m_record_of_loc (m : Z) (l : location) :
  shr_m (shr_record_of_loc m l) = m.
Proof. destruct l as [|[]]; reflexivity. Qed.

Lemma Zdigits2_div_pow2 (m n : Z) :
  0 < m -> 0 <= n -> n < Zdigits2 m ->
  Zdigits2 (m / 2 ^ n) = Zdigits2 m - n.
Proof.
  intros Hm Hn Hlt. pose proof (Zdigits2_bounds m Hm) as [Hlo Hhi].
  assert (Hp : 0 < 2 ^ n) by (apply Z.pow_pos_nonneg; lia).
  assert (Hlo' : 2 ^ (Zdigits2 m - n - 1) <= m / 2 ^ n).
  { apply Z.div_le_lower_bound; [exact Hp|].
    rewrite <- Z.pow_add_r by lia.
    replace (n + (Zdigits2 m - n - 1)) with (Zdigits2 m - 1) by lia. exact Hlo. }
  assert (Hhi' : m / 2 ^ n < 2 ^ (Zdigits2 m - n)).
  { apply Z.div_lt_upper_bound; [exact Hp|].
    rewrite <- Z.pow_add_r by lia.
    replace (n + (Zdigits2 m - n)) with (Zdigits2 m) by lia. exact Hhi. }
  apply Zdigits2_unique; [lia|].
  assert (0 < 2 ^ (Zdigits2 m - n - 1)) by (apply Z.pow_pos_nonneg; lia). lia.
Qed.

Lemma div_pow2_zero (m n : Z) :
  0 <= m -> Zdigits2 m <= n -> m / 2 ^ n = 0.
Proof.
  intros Hm Hn. destruct (Z.eq_dec m 0) as [->|Hne].
  - apply Z.div_0_l. pose proof (Zdigits2_nonneg 0).
    apply Z.pow_nonzero; simpl in *; lia.
  - pose proof (Zdigits2_bounds m ltac:(lia)) as [_ Hhi].
    apply Z.div_small. split; [exact Hm|].
    apply Z.lt_le_trans with (2 ^ Zdigits2 m); [exact Hhi|].
    apply Z.pow_le_mono_r; lia.
Qed.

Lemma div_pow2_pos (m n : Z) :
  0 <= m -> 0 <= n -> 0 < m / 2 ^ n -> n < Zdigits2 m.
Proof.
  intros Hm Hn Hpos. destruct (Z.ltb_spec n (Zdigits2 m)); [assumption|].
  rewrite div_pow2_zero in Hpos by assumption. lia.
Qed.

(** The first component and the exponent that [shr_fexp] returns. *)
Lemma shr_fexp_spec (m e : Z) (l : location) :
  0 <= m -> e <= fexp (Zdigits2 m + e) ->
  snd (shr_fexp prec emax m e l) = fexp (Zdigits2 m + e)
  /\ shr_m (fst (shr_fexp prec emax m e l))
     = m / 2 ^ (fexp (Zdigits2 m + e) - e).
Proof.
  intros Hm He. unfold shr_fexp, shr.
  destruct (fexp (Zdigits2 m + e) - e) as [|p|p] eqn:Hn; [| |lia].
  - cbn [fst snd]. rewrite shr_m_record_of_loc, Z.div_1_r. split; lia.
  - cbn [fst snd]. rewrite shr_m_iter by (rewrite shr_m_record_of_loc; exact Hm).
    rewrite shr_m_record_of_loc. split; [lia|reflexivity].
Qed.

Lemma shr_fexp_nonneg (m e : Z) (l : location) :
  0 <= m -> e <= fexp (Zdigits2 m + e) ->
  0 <= shr_m (fst (shr_fexp prec emax m e l)).
Proof.
  intros Hm He. destruct (shr_fexp_spec m e l Hm He) as [_ ->].
  apply Z.div_pos; [exact Hm|]. apply Z.pow_pos_nonneg; lia.
Qed.

(** A mantissa that [shr_fexp] leaves above 0 is canonical. *)
Lemma shr_fexp_canonical (m e : Z) (l : location) :
  0 <= m -> e <= fexp (Zdigits2 m + e) ->
  0 < shr_m (fst (shr_fexp prec emax m e l)) ->
  fexp (Zdigits2 (shr_m (fst (shr_fexp prec emax m e l)))
        + snd (shr_fexp prec emax m e l))
  = snd (shr_fexp prec emax m e l).
Proof.
  intros Hm He. destruct (shr_fexp_spec m e l Hm He) as [-> ->]. intros Hpos.
  assert (Hm' : 0 < m).
  { destruct (Z.eq_dec m 0) as [->|]; [|lia].
    rewrite Z.div_0_l in Hpos; [lia|]. apply Z.pow_nonzero; lia. }
  assert (Hn : 0 <= fexp (Zdigits2 m + e) - e) by lia.
  pose proof (div_pow2_pos m _ Hm Hn Hpos) as Hlt.
  rewrite Zdigits2_div_pow2 by lia. f_equal. lia.
Qed.

(** When [shr_fexp] leaves nothing of the mantissa the exponent is the
    least one. *)
Lemma shr_fexp_zero (m e : Z) (l : location) :
  0 <= m -> e <= fexp (Zdigits2 m + e) ->
  shr_m (fst (shr_fexp prec emax m e l)) = 0 ->
  snd (shr_fexp prec emax m e l) = emin.
Proof.
  intros Hm He. destruct (shr_fexp_spec m e l Hm He) as [-> ->]. intros Hz.
  assert (Hd : Zdigits2 m + e - prec < fexp (Zdigits2 m + e)).
  { destruct (Z.eq_dec m 0) as [->|Hne].
    { change (Zdigits2 0) with 0 in *. rewrite Z.add_0_l in *. lia. }
    destruct (Z.ltb_spec (fexp (Zdigits2 m + e) - e) (Zdigits2 m)) as [Hlt|];
      [|lia].
    assert (Hn : 0 <= fexp (Zdigits2 m + e) - e) by lia.
    assert (Hm' : 0 < m) by lia.
    pose proof (Zdigits2_div_pow2 m _ Hm' Hn Hlt) as Hd.
    rewrite Hz in Hd. change (Zdigits2 0) with 0 in Hd. lia. }
  unfold SpecFloat.fexp in *. lia.
Qed.

Lemma round_nearest_even_cases (m : Z) (l : location) :
  round_nearest_even m l = m \/ round_nearest_even m l = m + 1.
Proof.
  destruct l as [|[]]; simpl; auto. destruct (Z.even m); auto.
Qed.

Lemma Zdigits2_mono (a b : Z) : 0 <= a <= b -> Zdigits2 a <= Zdigits2 b.
Proof.
  intros [Ha Hab]. destruct (Z.eq_dec a 0) as [->|Hne].
  - apply Zdigits2_nonneg.
  - rewrite !Zdigits2_log2 by lia. pose proof (Z.log2_le_mono a b Hab). lia.
Qed.

Lemma binary_round_aux_eq (s : bool) (m e : Z) (l : location) :
  binary_round_aux prec emax s m e l =
  let r1 := shr_fexp prec emax m e l in
  let r2 := shr_fexp prec emax
              (round_nearest_even (shr_m (fst r1)) (loc_of_shr_record (fst r1)))
              (snd r1) loc_Exact in
  match shr_m (fst r2) with
  | Z0 => S754_zero s
  | Zpos m' =>
      if snd r2 <=? emax - prec then S754_finite s m' (snd r2)
      else S754_infinity s
  | Zneg _ => S754_nan
  end.
Proof.
  unfold binary_round_aux. destruct (shr_fexp prec emax m e l) as [mrs e1].
  cbn [fst snd]. destruct (shr_fexp prec emax _ e1 loc_Exact) as [mrs2 e2].
  reflexivity.
Qed.

(** The precondition of the second [shr_fexp] of [binary_round_aux]. *)
Lemma round_step_ok (m e : Z) (l : location) :
  0 <= m -> e <= fexp (Zdigits2 m + e) ->
  let r1 := shr_fexp prec emax m e l in
  let m2 := round_nearest_even (shr_m (fst r1)) (loc_of_shr_record (fst r1)) in
  0 <= m2 /\ snd r1 <= fexp (Zdigits2 m2 + snd r1).
Proof.
  intros Hm He. cbv zeta.
  pose proof (shr_fexp_nonneg m e l Hm He) as H1.
  pose proof (shr_fexp_zero m e l Hm He) as Hzero.
  pose proof (shr_fexp_canonical m e l Hm He) as Hcan.
  set (r1 := shr_fexp prec emax m e l) in *.
  set (m2 := round_nearest_even (shr_m (fst r1)) (loc_of_shr_record (fst r1))).
  assert (Hm2 : shr_m (fst r1) <= m2).
  { unfold m2. destruct (round_nearest_even_cases (shr_m (fst r1))
                           (loc_of_shr_record (fst r1))) as [-> | ->]; lia. }
  split; [lia|].
  destruct (Z.eq_dec (shr_m (fst r1)) 0) as [Hz|Hnz].
  - rewrite (Hzero Hz). apply fexp_ge_emin.
  - assert (Hpos : 0 < shr_m (fst r1)) by lia.
    rewrite <- (Hcan Hpos) at 1. apply fexp_mono.
    pose proof (Zdigits2_mono (shr_m (fst r1)) m2 ltac:(lia)). lia.
Qed.

(** What [binary_round_aux] returns for a mantissa with digits enough is
    a valid float, and it is not NaN. *)
Lemma binary_round_aux_valid (s : bool) (m e : Z) (l : location) :
  0 <= m -> e <= fexp (Zdigits2 m + e) ->
  SpecFloat.valid_binary prec emax (binary_round_aux prec emax s m e l) = true
  /\ binary_round_aux prec emax s m e l <> S754_nan.
Proof.
  intros Hm He. rewrite binary_round_aux_eq. cbv zeta.
  destruct (round_step_ok m e l Hm He) as [Hm2 He2].
  set (r1 := shr_fexp prec emax m e l) in *.
  set (m2 := round_nearest_even (shr_m (fst r1)) (loc_of_shr_record (fst r1))) in *.
  pose proof (shr_fexp_nonneg m2 (snd r1) loc_Exact Hm2 He2) as H3.
  pose proof (shr_fexp_canonical m2 (snd r1) loc_Exact Hm2 He2) as Hc.
  set (r2 := shr_fexp prec emax m2 (snd r1) loc_Exact) in *.
  destruct (shr_m (fst r2)) as [|m3|m3] eqn:Hm3; [split; [reflexivity|discriminate]| |lia].
  destruct (Z.leb_spec (snd r2) (emax - prec)) as [Hle|Hgt];
    [|split; [reflexivity|discriminate]].
  split; [|discriminate]. cbn [SpecFloat.valid_binary]. unfold bounded, canonical_mantissa.
  apply andb_true_iff. split; [|apply Z.leb_le, Hle].
  apply Z.eqb_eq. specialize (Hc ltac:(lia)). exact Hc.
Qed.

End Shifts.

Lemma two_not_0 : ~ (2 == 0)%Q.
Proof. discriminate. Qed.

Lemma Qpow2_pos (e : Z) : (0 < 2 ^ e)%Q.
Proof. apply Qpower_0_lt. reflexivity. Qed.

(** [a * 2^e1] against [b * 2^e2] for [e1 <= e2], in integers. *)
Lemma Qlt_scale (a b e1 e2 : Z) :
  e1 <= e2 ->
  (inject_Z a * 2 ^ e1 < inject_Z b * 2 ^ e2)%Q <-> a < b * 2 ^ (e2 - e1).
Proof.
  intros He.
  assert (H2 : (2 ^ e2 == inject_Z (2 ^ (e2 - e1)) * 2 ^ e1)%Q).
  { rewrite Zpower_Qpower by lia. change (inject_Z 2) with 2%Q.
    rewrite <- Qpower_plus by apply two_not_0.
    replace (e2 - e1 + e1) with e2 by lia. reflexivity. }
  rewrite H2, Qmult_assoc, <- inject_Z_mult.
  rewrite Qmult_lt_r by apply Qpow2_pos. rewrite <- Zlt_Qlt. reflexivity.
Qed.

Lemma Qle_scale (a b e1 e2 : Z) :
  e1 <= e2 ->
  (inject_Z a * 2 ^ e1 <= inject_Z b * 2 ^ e2)%Q <-> a <= b * 2 ^ (e2 - e1).
Proof.
  intros He.
  assert (H2 : (2 ^ e2 == inject_Z (2 ^ (e2 - e1)) * 2 ^ e1)%Q).
  { rewrite Zpower_Qpower by lia. change (inject_Z 2) with 2%Q.
    rewrite <- Qpower_plus by apply two_not_0.
    replace (e2 - e1 + e1) with e2 by lia. reflexivity. }
  rewrite H2, Qmult_assoc, <- inject_Z_mult.
  rewrite Qmult_le_r by apply Qpow2_pos. rewrite <- Zle_Qle. reflexivity.
Qed.

Lemma Qlt_scale' (a b e1 e2 : Z) :
  e2 <= e1 ->
  (inject_Z a * 2 ^ e1 < inject_Z b * 2 ^ e2)%Q <-> a * 2 ^ (e1 - e2) < b.
Proof.
  intros He.
  assert (H2 : (2 ^ e1 == inject_Z (2 ^ (e1 - e2)) * 2 ^ e2)%Q).
  { rewrite Zpower_Qpower by lia. change (inject_Z 2) with 2%Q.
    rewrite <- Qpower_plus by apply two_not_0.
    replace (e1 - e2 + e2) with e1 by lia. reflexivity. }
  rewrite H2, Qmult_assoc, <- inject_Z_mult.
  rewrite Qmult_lt_r by apply Qpow2_pos. rewrite <- Zlt_Qlt. reflexivity.
Qed.

Section Validity.

Variables prec emax : Z.
Hypothesis prec_pos : 0 < prec.

Abbreviation fexp := (fexp prec emax).
Abbreviation emin := (SpecFloat.emin prec emax).
Abbreviation valid := (SpecFloat.valid_binary prec emax).

(** What a canonical mantissa is: at most [prec] digits, and exactly
    [prec] above the least exponent. *)
Lemma valid_finite (s : bool) (m : positive) (e : Z) :
  valid (S754_finite s m e) = true ->
  emin <= e /\ Z.pos m < 2 ^ prec
  /\ (emin < e -> 2 ^ (prec - 1) <= Z.pos m).
Proof.
  cbn [SpecFloat.valid_binary]. unfold bounded, canonical_mantissa.
  rewrite andb_true_iff, Z.eqb_eq. intros [Hc _].
  change (Z.pos (digits2_pos m)) with (Zdigits2 (Z.pos m)) in Hc.
  pose proof (Zdigits2_bounds (Z.pos m) eq_refl) as [Hlo Hhi].
  unfold SpecFloat.fexp in Hc.
  split; [lia|]. split.
  - apply Z.lt_le_trans with (2 ^ Zdigits2 (Z.pos m)); [exact Hhi|].
    apply Z.pow_le_mono_r; lia.
  - intros He. assert (Hd : Zdigits2 (Z.pos m) = prec) by lia.
    rewrite <- Hd. exact Hlo.
Qed.

(** Of two valid positive floats the one with the smaller exponent is the
    smaller number. *)
Lemma valid_exponent_lt (m1 m2 : positive) (e1 e2 : Z) (s1 s2 : bool) :
  valid (S754_finite s1 m1 e1) = true ->
  valid (S754_finite s2 m2 e2) = true ->
  e1 < e2 -> Z.pos m1 < Z.pos m2 * 2 ^ (e2 - e1).
Proof.
  intros H1 H2 He.
  destruct (valid_finite _ _ _ H1) as (Hmin & Hhi & _).
  destruct (valid_finite _ _ _ H2) as (_ & _ & Hlo). specialize (Hlo ltac:(lia)).
  assert (Hp : 2 ^ 1 <= 2 ^ (e2 - e1)) by (apply Z.pow_le_mono_r; lia).
  assert (H2p : 2 ^ prec = 2 ^ (prec - 1) * 2 ^ 1).
  { rewrite <- Z.pow_add_r by lia. f_equal. lia. }
  nia.
Qed.

Lemma SF2Q_pos (m : positive) (e : Z) : (0 < SF2Q (S754_finite false m e))%Q.
Proof.
  cbn [SF2Q signed]. apply Qmult_lt_0_compat; [reflexivity|apply Qpow2_pos].
Qed.

Lemma SF2Q_neg (m : positive) (e : Z) : (SF2Q (S754_finite true m e) < 0)%Q.
Proof.
  cbn [SF2Q signed].
  setoid_replace 0%Q with (0 * 2 ^ e)%Q using relation Qeq by ring.
  apply Qmult_lt_r; [apply Qpow2_pos|reflexivity].
Qed.

(** Positive valid floats compare as the numbers they stand for. *)
Lemma finite_compare_pos (m1 m2 : positive) (e1 e2 : Z) :
  valid (S754_finite false m1 e1) = true ->
  valid (S754_finite false m2 e2) = true ->
  match Z.compare e1 e2 with
  | Lt => Lt
  | Gt => Gt
  | Eq => Pos.compare_cont Eq m1 m2
  end = Lt
  <-> (SF2Q (S754_finite false m1 e1) < SF2Q (S754_finite false m2 e2))%Q.
Proof.
  intros H1 H2. cbn [SF2Q signed].
  destruct (Z.compare_spec e1 e2) as [->|Hlt|Hgt].
  - rewrite Qlt_scale by lia. rewrite Z.sub_diag, Z.mul_1_r.
    change (Pos.compare_cont Eq m1 m2) with (Pos.compare m1 m2).
    rewrite Pos.compare_lt_iff. reflexivity.
  - rewrite Qlt_scale by lia.
    pose proof (valid_exponent_lt m1 m2 e1 e2 _ _ H1 H2 Hlt). tauto.
  - rewrite Qlt_scale' by lia.
    pose proof (valid_exponent_lt m2 m1 e2 e1 _ _ H2 H1 Hgt).
    split; [discriminate|lia].
Qed.

Lemma SF2Q_opp (m : positive) (e : Z) :
  (SF2Q (S754_finite true m e) == - SF2Q (S754_finite false m e))%Q.
Proof. cbn [SF2Q signed]. change (Z.neg m) with (- Z.pos m). rewrite inject_Z_opp. ring. Qed.

Lemma valid_sign (s s' : bool) (m : positive) (e : Z) :
  valid (S754_finite s m e) = valid (S754_finite s' m e).
Proof. reflexivity. Qed.

(** [SFltb] is the order of the numbers. *)
Lemma SFltb_float_lt (x y : spec_float) :
  valid x = true -> valid y = true ->
  SFltb x y = true <-> float_lt x y.
Proof.
  intros Hx Hy. unfold SFltb, SFcompare, float_lt.
  destruct x as [sx|[|]| |[|] mx ex], y as [sy|[|]| |[|] my ey];
    try (split; [discriminate|contradiction]);
    try (split; [reflexivity|reflexivity]);
    try (split; [intros _; exact I|reflexivity]);
    try pose proof (SF2Q_pos mx ex); try pose proof (SF2Q_neg mx ex);
    try pose proof (SF2Q_pos my ey); try pose proof (SF2Q_neg my ey);
    repeat match goal with
           | |- context [SF2Q (S754_zero ?s)] =>
               change (SF2Q (S754_zero s)) with 0%Q
           end;
    try (split; [discriminate|intros Hlt; exfalso; Lqa.lra]);
    try (split; [intros _; Lqa.lra|reflexivity]).
  - rewrite (valid_sign true false) in Hx, Hy.
    pose proof (finite_compare_pos my mx ey ex Hy Hx) as Hc.
    rewrite !SF2Q_opp.
    assert (Hflip : (- SF2Q (S754_finite false mx ex)
                     < - SF2Q (S754_finite false my ey))%Q
                    <-> (SF2Q (S754_finite false my ey)
                         < SF2Q (S754_finite false mx ex))%Q)
      by (split; intros Hlt; Lqa.lra).
    rewrite Hflip, <- Hc. rewrite (Z.compare_antisym ex ey).
    change (Pos.compare_cont Eq mx my) with (Pos.compare mx my).
    change (Pos.compare_cont Eq my mx) with (Pos.compare my mx).
    rewrite (Pos.compare_antisym my mx).
    destruct (ex ?= ey), (my ?= mx)%positive; cbn; intuition congruence.
  - pose proof (finite_compare_pos mx my ex ey Hx Hy) as Hc.
    rewrite <- Hc. destruct (ex ?= ey), (Pos.compare_cont Eq mx my);
      cbn; intuition congruence.
Qed.

End Validity.

Lemma Zdigits2_pow2 (k : Z) : 0 <= k -> Zdigits2 (2 ^ k) = k + 1.
Proof.
  intros Hk. assert (Hp : 0 < 2 ^ k) by (apply Z.pow_pos_nonneg; lia).
  apply Zdigits2_unique; [|exact Hp].
  replace (k + 1 - 1) with k by lia. split; [lia|].
  apply Z.pow_lt_mono_r; lia.
Qed.

Lemma iter_xO_pow2 (m d : positive) :
  Z.pos (Pos.iter xO m d) = Z.pos m * 2 ^ Z.pos d.
Proof.
  induction d as [|d IH] using Pos.peano_ind.
  - simpl Pos.iter. rewrite Pos2Z.inj_xO. change (2 ^ 1) with 2. lia.
  - rewrite Pos.iter_succ, Pos2Z.inj_xO, IH, Pos2Z.inj_succ, Z.pow_succ_r by lia.
    lia.
Qed.

Lemma Zdigits2_mul_pow2 (m k : Z) :
  0 < m -> 0 <= k -> Zdigits2 (m * 2 ^ k) = Zdigits2 m + k.
Proof.
  intros Hm Hk. pose proof (Zdigits2_bounds m Hm) as [Hlo Hhi].
  assert (Hp : 0 < 2 ^ k) by (apply Z.pow_pos_nonneg; lia).
  pose proof (Zdigits2_pos m Hm) as Hd.
  apply Zdigits2_unique; [|nia].
  replace (Zdigits2 m + k - 1) with (Zdigits2 m - 1 + k) by lia.
  rewrite !Z.pow_add_r by lia. nia.
Qed.

Section Rounding.

Variables prec emax : Z.
Hypothesis prec_pos : 0 < prec.

Abbreviation fexp := (fexp prec emax).
Abbreviation emin := (SpecFloat.emin prec emax).
Abbreviation valid := (SpecFloat.valid_binary prec emax).

(** [shl_align] towards [fexp] gives a mantissa with digits enough. *)
Lemma shl_align_fexp_ok (m : positive) (e : Z) :
  let r := shl_align m e (fexp (Z.pos (digits2_pos m) + e)) in
  snd r <= fexp (Zdigits2 (Z.pos (fst r)) + snd r)
  /\ (inject_Z (Z.pos (fst r)) * 2 ^ snd r == inject_Z (Z.pos m) * 2 ^ e)%Q.
Proof.
  cbv zeta. unfold shl_align.
  change (Z.pos (digits2_pos m)) with (Zdigits2 (Z.pos m)).
  destruct (fexp (Zdigits2 (Z.pos m) + e) - e) as [|p|d] eqn:Hd; cbn [fst snd].
  - split; [lia|reflexivity].
  - split; [lia|reflexivity].
  - rewrite iter_xO_pow2, Zdigits2_mul_pow2 by lia.
    replace (Zdigits2 (Z.pos m) + Z.pos d + fexp (Zdigits2 (Z.pos m) + e))
      with (Zdigits2 (Z.pos m) + e) by lia.
    split; [lia|].
    rewrite inject_Z_mult, Zpower_Qpower by lia. change (inject_Z 2) with 2%Q.
    rewrite <- Qmult_assoc, <- Qpower_plus by apply two_not_0.
    replace (Z.pos d + fexp (Zdigits2 (Z.pos m) + e)) with e by lia.
    reflexivity.
Qed.

Lemma binary_round_eq (s : bool) (m : positive) (e : Z) :
  binary_round prec emax s m e =
  let r := shl_align m e (fexp (Z.pos (digits2_pos m) + e)) in
  binary_round_aux prec emax s (Z.pos (fst r)) (snd r) loc_Exact.
Proof.
  unfold binary_round. destruct (shl_align _ _ _). reflexivity.
Qed.

Lemma binary_round_valid (s : bool) (m : positive) (e : Z) :
  valid (binary_round prec emax s m e) = true
  /\ binary_round prec emax s m e <> S754_nan.
Proof.
  rewrite binary_round_eq. cbv zeta.
  apply binary_round_aux_valid; [exact prec_pos|lia|].
  apply (shl_align_fexp_ok m e).
Qed.

Lemma binary_normalize_valid (m e : Z) (sz : bool) :
  valid (binary_normalize prec emax m e sz) = true
  /\ binary_normalize prec emax m e sz <> S754_nan.
Proof.
  destruct m as [|p|p]; cbn [binary_normalize];
    [split; [reflexivity|discriminate]|apply binary_round_valid..].
Qed.

(** The quotient [SFdiv_core_binary] computes has digits enough. *)
Lemma SFdiv_core_ok (m1 m2 : positive) (e1 e2 : Z) :
  let r := SFdiv_core_binary prec emax (Z.pos m1) e1 (Z.pos m2) e2 in
  0 <= fst (fst r)
  /\ snd (fst r) <= fexp (Zdigits2 (fst (fst r)) + snd (fst r)).
Proof.
  cbv zeta. unfold SFdiv_core_binary.
  set (d1 := Zdigits2 (Z.pos m1)). set (d2 := Zdigits2 (Z.pos m2)).
  set (e' := Z.min (fexp (d1 + e1 - (d2 + e2))) (e1 - e2)).
  set (s := e1 - e2 - e').
  assert (Hs : 0 <= s) by (unfold s, e'; lia).
  set (m' := match s with
             | 0 => Z.pos m1
             | Z.pos _ => Z.shiftl (Z.pos m1) s
             | Z.neg _ => 0
             end).
  assert (Hm' : m' = Z.pos m1 * 2 ^ s).
  { unfold m'. destruct s as [|p|p]; [lia| |lia].
    rewrite Z.shiftl_mul_pow2 by lia. reflexivity. }
  pose proof (Z.div_eucl_eq m' (Z.pos m2) ltac:(lia)) as Heq.
  pose proof (Z.mod_pos_bound m' (Z.pos m2) eq_refl) as Hmod.
  unfold Z.modulo in Hmod.
  assert (Hq : fst (Z.div_eucl m' (Z.pos m2)) = m' / Z.pos m2) by reflexivity.
  destruct (Z.div_eucl m' (Z.pos m2)) as [q r]. cbn [fst snd] in *.
  assert (Hq0 : 0 <= q).
  { rewrite Hq. apply Z.div_pos; [rewrite Hm'|lia].
    assert (0 < 2 ^ s) by (apply Z.pow_pos_nonneg; lia). lia. }
  split; [exact Hq0|].
  apply Z.le_trans with (fexp (d1 + e1 - (d2 + e2))); [unfold e'; lia|].
  apply fexp_mono.
  destruct (Z.leb_spec (d1 - d2 + s) 0) as [Hle|Hgt].
  - pose proof (Zdigits2_nonneg q). unfold s in *. lia.
  - assert (Hk : 2 ^ (d1 - d2 + s - 1) <= q).
    { rewrite Hq. apply Z.div_le_lower_bound; [lia|]. rewrite Hm'.
      pose proof (Zdigits2_bounds (Z.pos m1) eq_refl) as [Hlo1 _].
      pose proof (Zdigits2_bounds (Z.pos m2) eq_refl) as [_ Hhi2].
      fold d1 in Hlo1. fold d2 in Hhi2.
      pose proof (Zdigits2_pos (Z.pos m1) eq_refl) as Hd1. fold d1 in Hd1.
      pose proof (Zdigits2_pos (Z.pos m2) eq_refl) as Hd2. fold d2 in Hd2.
      assert (Hsplit : 2 ^ (d1 - 1) * 2 ^ s
                       = 2 ^ d2 * 2 ^ (d1 - d2 + s - 1)).
      { rewrite <- !Z.pow_add_r by lia. f_equal. lia. }
      assert (0 < 2 ^ s) by (apply Z.pow_pos_nonneg; lia).
      assert (0 < 2 ^ (d1 - d2 + s - 1)) by (apply Z.pow_pos_nonneg; lia).
      nia. }
    pose proof (Zdigits2_mono (2 ^ (d1 - d2 + s - 1)) q) as Hmono.
    rewrite Zdigits2_pow2 in Hmono by lia.
    assert (0 <= 2 ^ (d1 - d2 + s - 1)) by (apply Z.pow_nonneg; lia).
    specialize (Hmono ltac:(lia)). unfold s in *. lia.
Qed.

Lemma SFdiv_valid (x y : spec_float) :
  valid (SFdiv prec emax x y) = true.
Proof.
  destruct x as [sx|sx| |sx mx ex], y as [sy|sy| |sy my ey];
    try reflexivity.
  cbn [SFdiv].
  pose proof (SFdiv_core_ok mx my ex ey) as Hok. cbv zeta in Hok.
  destruct (SFdiv_core_binary prec emax (Z.pos mx) ex (Z.pos my) ey)
    as [[q e'] l].
  cbn [fst snd] in Hok. destruct Hok as [Hq He].
  apply binary_round_aux_valid; assumption.
Qed.

End Rounding.

Lemma mod_pow2_succ (m p : Z) :
  0 <= p ->
  m mod 2 ^ (p + 1) = m mod 2 ^ p + 2 ^ p * ((m / 2 ^ p) mod 2).
Proof.
  intros Hp. rewrite Z.pow_add_r by lia. change (2 ^ 1) with 2.
  apply Z.rem_mul_r; [|lia]. apply Z.pow_nonzero; lia.
Qed.

Lemma odd_mod2 (x : Z) : Z.odd x = (1 <=? x mod 2).
Proof.
  rewrite Zmod_odd. destruct (Z.odd x); reflexivity.
Qed.

(** The round and sticky bits after [p] shifts of an exact mantissa. *)
Lemma iter_shr_1_bits (m : Z) (p : positive) :
  0 <= m ->
  Pos.iter shr_1 {| shr_m := m; shr_r := false; shr_s := false |} p
  = {| shr_m := m / 2 ^ Z.pos p;
       shr_r := 2 ^ (Z.pos p - 1) <=? m mod 2 ^ Z.pos p;
       shr_s := negb (m mod 2 ^ (Z.pos p - 1) =? 0) |}.
Proof.
  intros Hm. induction p as [|p IH] using Pos.peano_ind.
  - unfold Pos.iter. rewrite shr_1_m by exact Hm. cbn [shr_m shr_r shr_s].
    change (2 ^ 1) with 2. change (2 ^ (1 - 1)) with 1.
    rewrite Z.mod_1_r, odd_mod2. reflexivity.
  - rewrite Pos.iter_succ, IH.
    assert (H0 : 0 <= m / 2 ^ Z.pos p) by (apply Z.div_pos; lia).
    rewrite shr_1_m by exact H0. cbn [shr_m shr_r shr_s].
    rewrite Pos2Z.inj_succ.
    replace (Z.succ (Z.pos p) - 1) with (Z.pos p) by lia.
    replace (Z.succ (Z.pos p)) with (Z.pos p + 1) by lia.
    f_equal.
    + rewrite Z.div_div by lia. f_equal. rewrite Z.pow_add_r by lia. reflexivity.
    + rewrite mod_pow2_succ, odd_mod2 by lia.
      pose proof (Z.mod_pos_bound m (2 ^ Z.pos p) ltac:(lia)) as Hb.
      pose proof (Z.mod_pos_bound (m / 2 ^ Z.pos p) 2 ltac:(lia)) as Hb2.
      destruct (Z.leb_spec 1 ((m / 2 ^ Z.pos p) mod 2));
        destruct (Z.leb_spec (2 ^ Z.pos p)
                    (m mod 2 ^ Z.pos p
                     + 2 ^ Z.pos p * ((m / 2 ^ Z.pos p) mod 2)));
        try reflexivity; exfalso; nia.
    + assert (Hsplit : m mod 2 ^ Z.pos p
                       = m mod 2 ^ (Z.pos p - 1)
                         + 2 ^ (Z.pos p - 1) * ((m / 2 ^ (Z.pos p - 1)) mod 2)).
      { rewrite <- mod_pow2_succ by lia. do 2 f_equal. lia. }
      rewrite Hsplit.
      pose proof (Z.mod_pos_bound m (2 ^ (Z.pos p - 1)) ltac:(lia)) as Hb.
      pose proof (Z.mod_pos_bound (m / 2 ^ (Z.pos p - 1)) 2 ltac:(lia)) as Hb2.
      assert (Hp : 0 < 2 ^ (Z.pos p - 1)) by (apply Z.pow_pos_nonneg; lia).
      assert (Hbit : (m / 2 ^ (Z.pos p - 1)) mod 2 = 0
                     \/ (m / 2 ^ (Z.pos p - 1)) mod 2 = 1) by lia.
      destruct Hbit as [-> | ->];
        rewrite ?Z.mul_0_r, ?Z.mul_1_r, ?Z.add_0_r;
        destruct (Z.leb_spec (2 ^ (Z.pos p - 1)) (m mod 2 ^ (Z.pos p - 1)));
        destruct (Z.leb_spec (2 ^ (Z.pos p - 1))
                    (m mod 2 ^ (Z.pos p - 1) + 2 ^ (Z.pos p - 1)));
        destruct (Z.eqb_spec (m mod 2 ^ (Z.pos p - 1)) 0);
        destruct (Z.eqb_spec
                    (m mod 2 ^ (Z.pos p - 1) + 2 ^ (Z.pos p - 1)) 0);
        try reflexivity; exfalso; lia.
Qed.

(** Rounding after [shr] is [rne]. *)
Lemma round_shr_rne (m e n : Z) :
  0 <= m -> 0 <= n ->
  let r := shr (shr_record_of_loc m loc_Exact) e n in
  round_nearest_even (shr_m (fst r)) (loc_of_shr_record (fst r)) = rne m n.
Proof.
  intros Hm Hn. cbv zeta. unfold shr, rne.
  destruct n as [|p|p]; [| |lia]; cbn [fst shr_record_of_loc].
  - cbn [shr_m loc_of_shr_record round_nearest_even].
    change (2 ^ 0) with 1. rewrite Z.mod_1_r, Z.div_1_r. reflexivity.
  - rewrite iter_pos_iter, iter_shr_1_bits by exact Hm.
    cbn [shr_m loc_of_shr_record].
    assert (Hp : 0 < 2 ^ (Z.pos p - 1)) by (apply Z.pow_pos_nonneg; lia).
    assert (H2 : 2 ^ Z.pos p = 2 * 2 ^ (Z.pos p - 1)).
    { replace (Z.pos p) with (Z.pos p - 1 + 1) at 1 by lia.
      rewrite Z.pow_add_r by lia. change (2 ^ 1) with 2. lia. }
    pose proof (mod_pow2_succ m (Z.pos p - 1) ltac:(lia)) as Hsplit.
    replace (Z.pos p - 1 + 1) with (Z.pos p) in Hsplit by lia.
    pose proof (Z.mod_pos_bound m (2 ^ (Z.pos p - 1)) Hp) as Hb.
    pose proof (Z.mod_pos_bound (m / 2 ^ (Z.pos p - 1)) 2 ltac:(lia)) as Hb2.
    set (rem := m mod 2 ^ Z.pos p) in *.
    set (low := m mod 2 ^ (Z.pos p - 1)) in *.
    assert (Hbit : (m / 2 ^ (Z.pos p - 1)) mod 2 = 0
                   \/ (m / 2 ^ (Z.pos p - 1)) mod 2 = 1) by lia.
    destruct Hbit as [Hbit|Hbit]; rewrite Hbit in Hsplit;
      rewrite ?Z.mul_0_r, ?Z.mul_1_r, ?Z.add_0_r in Hsplit;
      destruct (Z.leb_spec (2 ^ (Z.pos p - 1)) rem) as [Hr|Hr];
      destruct (Z.eqb_spec low 0) as [Hs|Hs]; cbn [negb round_nearest_even];
      destruct (Z.ltb_spec (2 * rem) (2 ^ Z.pos p));
      destruct (Z.ltb_spec (2 ^ Z.pos p) (2 * rem));
      try reflexivity; exfalso; lia.
Qed.

Lemma rne_bounds (m k : Z) :
  0 <= k -> m / 2 ^ k <= rne m k <= m / 2 ^ k + 1.
Proof.
  intros Hk. unfold rne.
  destruct (_ <? _); [lia|]. destruct (_ <? _); [lia|].
  destruct (Z.even _); lia.
Qed.

(** Rounding keeps the order, also between different shifts. *)
Lemma rne_mono (m1 k1 m2 k2 : Z) :
  0 <= k1 -> 0 <= k2 ->
  m1 * 2 ^ k2 <= m2 * 2 ^ k1 -> rne m1 k1 <= rne m2 k2.
Proof.
  intros Hk1 Hk2 Hle.
  assert (Hp1 : 0 < 2 ^ k1) by (apply Z.pow_pos_nonneg; lia).
  assert (Hp2 : 0 < 2 ^ k2) by (apply Z.pow_pos_nonneg; lia).
  pose proof (Z.div_mod m1 (2 ^ k1) ltac:(lia)) as Hd1.
  pose proof (Z.div_mod m2 (2 ^ k2) ltac:(lia)) as Hd2.
  pose proof (Z.mod_pos_bound m1 (2 ^ k1) Hp1) as Hb1.
  pose proof (Z.mod_pos_bound m2 (2 ^ k2) Hp2) as Hb2.
  pose proof (rne_bounds m1 k1 Hk1) as Hr1.
  pose proof (rne_bounds m2 k2 Hk2) as Hr2.
  assert (Hq : m1 / 2 ^ k1 <= m2 / 2 ^ k2).
  { apply Z.div_le_lower_bound; [exact Hp2|]. nia. }
  destruct (Z.eq_dec (m1 / 2 ^ k1) (m2 / 2 ^ k2)) as [Heq|Hne]; [|lia].
  unfold rne in *. rewrite <- Heq in *.
  set (q := m1 / 2 ^ k1) in *.
  set (r1 := m1 mod 2 ^ k1) in *. set (r2 := m2 mod 2 ^ k2) in *.
  assert (Hrem : r1 * 2 ^ k2 <= r2 * 2 ^ k1) by nia.
  destruct (Z.ltb_spec (2 * r1) (2 ^ k1));
    destruct (Z.ltb_spec (2 ^ k1) (2 * r1));
    destruct (Z.ltb_spec (2 * r2) (2 ^ k2));
    destruct (Z.ltb_spec (2 ^ k2) (2 * r2));
    destruct (Z.even q); try lia; nia.
Qed.

Lemma rne_le_bound (m k n : Z) :
  0 <= k -> m < n * 2 ^ k -> rne m k <= n.
Proof.
  intros Hk Hlt.
  assert (Hp : 0 < 2 ^ k) by (apply Z.pow_pos_nonneg; lia).
  pose proof (rne_bounds m k Hk) as Hr.
  assert (m / 2 ^ k < n) by (apply Z.div_lt_upper_bound; lia).
  lia.
Qed.

Lemma Qpow2_le (a b : Z) : a <= b -> (2 ^ a <= 2 ^ b)%Q.
Proof. intros H. apply Qpower_le_compat_l; [exact H|discriminate]. Qed.

Lemma Qpow2_add (a b : Z) : (2 ^ (a + b) == 2 ^ a * 2 ^ b)%Q.
Proof. apply Qpower_plus, two_not_0. Qed.

Lemma Qpow2_Z (k : Z) : 0 <= k -> (2 ^ k == inject_Z (2 ^ k))%Q.
Proof. intros Hk. rewrite Zpower_Qpower by exact Hk. reflexivity. Qed.

Lemma Qmul_pow2_le (a b e : Z) :
  (inject_Z a * 2 ^ e <= inject_Z b * 2 ^ e)%Q <-> a <= b.
Proof. rewrite Qmult_le_r by apply Qpow2_pos. rewrite <- Zle_Qle. reflexivity. Qed.

Lemma Qmul_pow2_lt (a b e : Z) :
  (inject_Z a * 2 ^ e < inject_Z b * 2 ^ e)%Q <-> a < b.
Proof. rewrite Qmult_lt_r by apply Qpow2_pos. rewrite <- Zlt_Qlt. reflexivity. Qed.

(** [a * 2^k] at exponent [e] is [a] at exponent [e + k]. *)
Lemma Qscale_pow (a e k : Z) :
  0 <= k -> (inject_Z (a * 2 ^ k) * 2 ^ e == inject_Z a * 2 ^ (e + k))%Q.
Proof.
  intros Hk. rewrite inject_Z_mult, <- Qpow2_Z by exact Hk.
  rewrite (Z.add_comm e k), Qpow2_add. ring.
Qed.

(** The number [m * 2^e] lies in the binade its digits and exponent name. *)
Lemma value_bounds (m e : Z) :
  0 < m ->
  (2 ^ (Zdigits2 m + e - 1) <= inject_Z m * 2 ^ e)%Q
  /\ (inject_Z m * 2 ^ e < 2 ^ (Zdigits2 m + e))%Q.
Proof.
  intros Hm. pose proof (Zdigits2_bounds m Hm) as [Hlo Hhi].
  pose proof (Zdigits2_pos m Hm) as Hd. split.
  - replace (Zdigits2 m + e - 1) with (Zdigits2 m - 1 + e) by lia.
    rewrite Qpow2_add, (Qpow2_Z (Zdigits2 m - 1)) by lia.
    apply Qmul_pow2_le, Hlo.
  - rewrite Qpow2_add, (Qpow2_Z (Zdigits2 m)) by lia. apply Qmul_pow2_lt, Hhi.
Qed.

Lemma Zdigits2_succ (m : Z) :
  0 <= m ->
  Zdigits2 (m + 1) = Zdigits2 m
  \/ (m + 1 = 2 ^ Zdigits2 m /\ Zdigits2 (m + 1) = Zdigits2 m + 1).
Proof.
  intros Hm. destruct (Z.eq_dec m 0) as [->|Hne]; [right; split; reflexivity|].
  pose proof (Zdigits2_bounds m ltac:(lia)) as [Hlo Hhi].
  destruct (Z.eq_dec (m + 1) (2 ^ Zdigits2 m)) as [Heq|Hneq].
  - right. split; [exact Heq|]. rewrite Heq. apply Zdigits2_pow2, Zdigits2_nonneg.
  - left. apply Zdigits2_unique; lia.
Qed.

Section Exactness.

Variables prec emax : Z.
Hypothesis prec_pos : 0 < prec.
Hypothesis prec_lt_emax : prec < emax.

Abbreviation fexp := (fexp prec emax).
Abbreviation emin := (SpecFloat.emin prec emax).
Abbreviation valid := (SpecFloat.valid_binary prec emax).

(** The second shift of [binary_round_aux] loses nothing. *)
Lemma second_shift_exact (m1 m2 e : Z) :
  0 <= m1 -> m1 <= m2 <= m1 + 1 ->
  (0 < m1 -> fexp (Zdigits2 m1 + e) = e) ->
  (m1 = 0 -> e = emin) ->
  m2 = m2 / 2 ^ (fexp (Zdigits2 m2 + e) - e) * 2 ^ (fexp (Zdigits2 m2 + e) - e)
  /\ e <= fexp (Zdigits2 m2 + e).
Proof.
  intros Hm1 Hm2 Hcan Hzero.
  assert (Hexact : forall x, x = x / 2 ^ 0 * 2 ^ 0)
    by (intros x; change (2 ^ 0) with 1; rewrite Z.div_1_r; lia).
  destruct (Z.eq_dec m1 0) as [->|Hne].
  - rewrite (Hzero eq_refl) in *.
    assert (Hd : Zdigits2 m2 <= 1).
    { pose proof (Zdigits2_mono m2 1 ltac:(lia)). exact H. }
    assert (He : fexp (Zdigits2 m2 + emin) = emin)
      by (unfold SpecFloat.fexp; lia).
    rewrite He, Z.sub_diag. split; [apply Hexact|lia].
  - specialize (Hcan ltac:(lia)).
    destruct (Z.eq_dec m2 m1) as [->|Hm].
    + rewrite Hcan, Z.sub_diag. split; [apply Hexact|lia].
    + assert (Heq : m2 = m1 + 1) by lia. subst m2.
      destruct (Zdigits2_succ m1 Hm1) as [Hd|[Hpow Hd]]; rewrite Hd.
      * rewrite Hcan, Z.sub_diag. split; [apply Hexact|lia].
      * pose proof (Zdigits2_pos m1 ltac:(lia)) as Hd1.
        assert (Hstep : fexp (Zdigits2 m1 + 1 + e) = e
                        \/ fexp (Zdigits2 m1 + 1 + e) = e + 1)
          by (unfold SpecFloat.fexp in *; lia).
        destruct Hstep as [-> | ->].
        -- rewrite Z.sub_diag. split; [apply Hexact|lia].
        -- replace (e + 1 - e) with 1 by lia. split; [|lia].
           rewrite Hpow. change (2 ^ 1) with 2.
           replace (Zdigits2 m1) with (Zdigits2 m1 - 1 + 1) at 1 2 by lia.
           rewrite Z.pow_add_r by lia. change (2 ^ 1) with 2.
           rewrite Z.div_mul by lia. reflexivity.
Qed.

(** What [binary_round_aux] returns for an exact positive mantissa with
    digits enough: the number [rne m k * 2^E] with [E] the exponent that
    [fexp] gives, or infinity when that number is [2^emax] or more. *)
Lemma binary_round_aux_exact (s : bool) (m e : Z) :
  0 < m -> e <= fexp (Zdigits2 m + e) ->
  let E := fexp (Zdigits2 m + e) in
  let R := (inject_Z (rne m (E - e)) * 2 ^ E)%Q in
  match binary_round_aux prec emax s m e loc_Exact with
  | S754_zero s' => s' = s /\ (R == 0)%Q
  | S754_finite s' m3 e3 =>
      s' = s /\ (inject_Z (Z.pos m3) * 2 ^ e3 == R)%Q /\ (R < 2 ^ emax)%Q
  | S754_infinity s' => s' = s /\ (2 ^ emax <= R)%Q
  | S754_nan => False
  end.
Proof.
  intros Hm He. cbv zeta.
  assert (Hm0 : 0 <= m) by lia.
  pose proof (binary_round_aux_valid prec emax prec_pos s m e loc_Exact Hm0 He)
    as [Hvalid _].
  rewrite binary_round_aux_eq in *. cbv zeta in *.
  pose proof (shr_fexp_spec prec emax m e loc_Exact Hm0 He) as [HE Hm1].
  pose proof (shr_fexp_canonical prec emax m e loc_Exact Hm0 He) as Hcan.
  pose proof (shr_fexp_zero prec emax prec_pos m e loc_Exact Hm0 He) as Hzero.
  assert (Hround : round_nearest_even
                     (shr_m (fst (shr_fexp prec emax m e loc_Exact)))
                     (loc_of_shr_record (fst (shr_fexp prec emax m e loc_Exact)))
                   = rne m (fexp (Zdigits2 m + e) - e)).
  { unfold shr_fexp. apply round_shr_rne; lia. }
  rewrite Hround in *.
  set (E := fexp (Zdigits2 m + e)) in *.
  set (m1 := shr_m (fst (shr_fexp prec emax m e loc_Exact))) in *.
  rewrite HE in *.
  set (m2 := rne m (E - e)) in *.
  assert (Hm1' : 0 <= m1).
  { rewrite Hm1. apply Z.div_pos; [lia|]. apply Z.pow_pos_nonneg; lia. }
  assert (Hm2 : m1 <= m2 <= m1 + 1).
  { rewrite Hm1. apply rne_bounds. lia. }
  destruct (second_shift_exact m1 m2 E Hm1' Hm2 Hcan Hzero) as [Hex He2].
  assert (Hm2' : 0 <= m2) by lia.
  pose proof (shr_fexp_spec prec emax m2 E loc_Exact Hm2' He2) as [HE3 Hm3].
  pose proof (shr_fexp_canonical prec emax m2 E loc_Exact Hm2' He2) as Hcan3.
  set (r2 := shr_fexp prec emax m2 E loc_Exact) in *.
  rewrite <- Hm3 in Hex. rewrite <- HE3 in Hex.
  assert (HR : (inject_Z m2 * 2 ^ E
                == inject_Z (shr_m (fst r2)) * 2 ^ snd r2)%Q).
  { rewrite Hex at 1. rewrite Qscale_pow by lia. 
    replace (E + (snd r2 - E)) with (snd r2) by lia. reflexivity. }
  destruct (shr_m (fst r2)) as [|m3|m3] eqn:Hs3.
  - split; [reflexivity|]. rewrite HR. ring.
  - specialize (Hcan3 eq_refl).
    destruct (Z.leb_spec (snd r2) (emax - prec)) as [Hle|Hgt].
    + split; [reflexivity|]. split; [symmetry; exact HR|]. rewrite HR.
      destruct (valid_finite prec emax prec_pos _ _ _ Hvalid) as (_ & Hhi & _).
      apply Qlt_le_trans with (inject_Z (2 ^ prec) * 2 ^ snd r2)%Q.
      * apply Qmul_pow2_lt, Hhi.
      * rewrite <- (Qpow2_Z prec), <- Qpow2_add by lia. apply Qpow2_le. lia.
    + split; [reflexivity|]. rewrite HR.
      assert (Hd : Zdigits2 (Z.pos m3) = prec).
      { unfold SpecFloat.fexp, SpecFloat.emin in Hcan3. lia. }
      pose proof (Zdigits2_bounds (Z.pos m3) eq_refl) as [Hlo _].
      rewrite Hd in Hlo.
      apply Qle_trans with (inject_Z (2 ^ (prec - 1)) * 2 ^ snd r2)%Q.
      * rewrite <- (Qpow2_Z (prec - 1)), <- Qpow2_add by lia.
        apply Qpow2_le. lia.
      * apply Qmul_pow2_le, Hlo.
  - pose proof (shr_fexp_nonneg prec emax m2 E loc_Exact Hm2' He2) as Hn.
    fold r2 in Hn. rewrite Hs3 in Hn. lia.
Qed.

End Exactness.

Lemma Qle_cross (a b e1 e2 E : Z) :
  e1 <= E -> e2 <= E ->
  (inject_Z a * 2 ^ e1 <= inject_Z b * 2 ^ e2)%Q ->
  a * 2 ^ (E - e2) <= b * 2 ^ (E - e1).
Proof.
  intros H1 H2 Hle.
  apply (Qmul_pow2_le _ _ (e1 + e2 - E)).
  rewrite !Qscale_pow by lia.
  replace (e1 + e2 - E + (E - e2)) with e1 by lia.
  replace (e1 + e2 - E + (E - e1)) with e2 by lia. exact Hle.
Qed.

Section Monotonicity.

Variables prec emax : Z.
Hypothesis prec_pos : 0 < prec.
Hypothesis prec_lt_emax : prec < emax.

Abbreviation fexp := (fexp prec emax).
Abbreviation emin := (SpecFloat.emin prec emax).
Abbreviation valid := (SpecFloat.valid_binary prec emax).

(** The rounded numbers keep the order of the numbers. *)
Lemma rounded_mono (m1 e1 m2 e2 : Z) :
  0 < m1 -> 0 < m2 ->
  e1 <= fexp (Zdigits2 m1 + e1) -> e2 <= fexp (Zdigits2 m2 + e2) ->
  (inject_Z m1 * 2 ^ e1 <= inject_Z m2 * 2 ^ e2)%Q ->
  (inject_Z (rne m1 (fexp (Zdigits2 m1 + e1) - e1))
   * 2 ^ fexp (Zdigits2 m1 + e1)
   <= inject_Z (rne m2 (fexp (Zdigits2 m2 + e2) - e2))
      * 2 ^ fexp (Zdigits2 m2 + e2))%Q.
Proof.
  intros Hm1 Hm2 He1 He2 Hle.
  destruct (value_bounds m1 e1 Hm1) as [Hlo1 Hhi1].
  destruct (value_bounds m2 e2 Hm2) as [Hlo2 Hhi2].
  assert (HL : Zdigits2 m1 + e1 <= Zdigits2 m2 + e2).
  { assert (Hlt : (2 ^ (Zdigits2 m1 + e1 - 1) < 2 ^ (Zdigits2 m2 + e2))%Q)
      by Lqa.lra.
    apply Qpower_lt_compat_l_inv in Hlt; [lia|reflexivity]. }
  pose proof (fexp_mono prec emax _ _ HL) as HE.
  set (E1 := fexp (Zdigits2 m1 + e1)) in *.
  set (E2 := fexp (Zdigits2 m2 + e2)) in *.
  pose proof (Zdigits2_pos m1 Hm1) as Hd1.
  pose proof (Zdigits2_pos m2 Hm2) as Hd2.
  destruct (Z.eq_dec E1 E2) as [Heq|Hne].
  - rewrite <- Heq. apply Qmul_pow2_le. apply rne_mono; [lia..|].
    apply Qle_cross; [lia..|exact Hle].
  - assert (Hlt : E1 < E2) by lia.
    assert (HE2 : E2 = Zdigits2 m2 + e2 - prec)
      by (unfold E1, E2, SpecFloat.fexp in *; lia).
    assert (HL' : Zdigits2 m1 + e1 <= Zdigits2 m2 + e2 - 1)
      by (unfold E1, E2, SpecFloat.fexp in *; lia).
    apply Qle_trans with (2 ^ (Zdigits2 m2 + e2 - 1))%Q.
    + destruct (Z.leb_spec (E1 - e1) (Zdigits2 m1)) as [Hk|Hk].
      * apply Qle_trans
          with (inject_Z (2 ^ (Zdigits2 m1 - (E1 - e1))) * 2 ^ E1)%Q.
        -- apply Qmul_pow2_le. apply rne_le_bound; [lia|].
           rewrite <- Z.pow_add_r by lia.
           replace (Zdigits2 m1 - (E1 - e1) + (E1 - e1)) with (Zdigits2 m1)
             by lia.
           apply Zdigits2_bounds, Hm1.
        -- rewrite <- (Qpow2_Z (Zdigits2 m1 - (E1 - e1))), <- Qpow2_add by lia.
           apply Qpow2_le. lia.
      * apply Qle_trans with (inject_Z 1 * 2 ^ E1)%Q.
        -- apply Qmul_pow2_le. apply rne_le_bound; [lia|].
           rewrite Z.mul_1_l.
           apply Z.lt_le_trans with (2 ^ Zdigits2 m1);
             [apply Zdigits2_bounds, Hm1|].
           apply Z.pow_le_mono_r; lia.
        -- rewrite Qmult_1_l. apply Qpow2_le. lia.
    + apply Qle_trans with (inject_Z (2 ^ (prec - 1)) * 2 ^ E2)%Q.
      * rewrite <- (Qpow2_Z (prec - 1)), <- Qpow2_add by lia.
        apply Qpow2_le. lia.
      * apply Qmul_pow2_le.
        apply Z.le_trans with (m2 / 2 ^ (E2 - e2)); [|apply rne_bounds; lia].
        assert (Hk2 : E2 - e2 < Zdigits2 m2) by lia.
        pose proof (Zdigits2_div_pow2 m2 (E2 - e2) Hm2 ltac:(lia) Hk2) as Hd.
        assert (Hpos : 0 < m2 / 2 ^ (E2 - e2)).
        { apply Z.div_str_pos. split; [apply Z.pow_pos_nonneg; lia|].
          apply Z.le_trans with (2 ^ (Zdigits2 m2 - 1));
            [apply Z.pow_le_mono_r; lia|apply Zdigits2_bounds, Hm2]. }
        pose proof (Zdigits2_bounds _ Hpos) as [Hlo _].
        rewrite Hd in Hlo.
        replace (Zdigits2 m2 - (E2 - e2) - 1) with (prec - 1) in Hlo by lia.
        exact Hlo.
Qed.

Lemma binary_round_aux_mono (m1 e1 m2 e2 : Z) :
  0 < m1 -> 0 < m2 ->
  e1 <= fexp (Zdigits2 m1 + e1) -> e2 <= fexp (Zdigits2 m2 + e2) ->
  (inject_Z m1 * 2 ^ e1 <= inject_Z m2 * 2 ^ e2)%Q ->
  ~ float_lt (binary_round_aux prec emax false m2 e2 loc_Exact)
             (binary_round_aux prec emax false m1 e1 loc_Exact).
Proof.
  intros Hm1 Hm2 He1 He2 Hle.
  pose proof (rounded_mono m1 e1 m2 e2 Hm1 Hm2 He1 He2 Hle) as HR.
  pose proof (binary_round_aux_exact prec emax prec_pos prec_lt_emax
                false m1 e1 Hm1 He1) as H1.
  pose proof (binary_round_aux_exact prec emax prec_pos prec_lt_emax
                false m2 e2 Hm2 He2) as H2.
  cbv zeta in H1, H2. pose proof (Qpow2_pos emax) as Hpow.
  destruct (binary_round_aux prec emax false m1 e1 loc_Exact)
    as [s1|s1| |s1 n1 x1];
    destruct (binary_round_aux prec emax false m2 e2 loc_Exact)
      as [s2|s2| |s2 n2 x2];
    try contradiction;
    repeat match goal with H : _ /\ _ |- _ => destruct H end; subst;
    unfold float_lt; cbn [SF2Q signed]; intros Hlt; try contradiction; Lqa.lra.
Qed.

Lemma binary_round_mono (m1 m2 : positive) (e1 e2 : Z) :
  (SF2Q (S754_finite false m1 e1) <= SF2Q (S754_finite false m2 e2))%Q ->
  ~ float_lt (binary_round prec emax false m2 e2)
             (binary_round prec emax false m1 e1).
Proof.
  cbn [SF2Q signed]. intros Hle. rewrite !binary_round_eq. cbv zeta.
  destruct (shl_align_fexp_ok prec emax m1 e1) as [Hok1 Hv1].
  destruct (shl_align_fexp_ok prec emax m2 e2) as [Hok2 Hv2].
  apply binary_round_aux_mono; try lia; try assumption.
  rewrite Hv1, Hv2. exact Hle.
Qed.

End Monotonicity.

(** ** Floats: signs and the order *)

(** Rounding keeps the sign. *)
Lemma binary_round_aux_sign (prec emax : Z) (s : bool) (m e : Z)
    (l : location) :
  match binary_round_aux prec emax s m e l with
  | S754_zero s' | S754_finite s' _ _ | S754_infinity s' => s' = s
  | S754_nan => True
  end.
Proof.
  unfold binary_round_aux.
  destruct (shr_fexp prec emax m e l) as [mrs' e'].
  destruct (shr_fexp prec emax _ e' loc_Exact) as [mrs'' e''].
  destruct (shr_m mrs''); [reflexivity| |exact I].
  destruct (e'' <=? emax - prec); reflexivity.
Qed.

Lemma binary_round_sign (prec emax : Z) (s : bool) (m : positive) (e : Z) :
  match binary_round prec emax s m e with
  | S754_zero s' | S754_finite s' _ _ | S754_infinity s' => s' = s
  | S754_nan => True
  end.
Proof.
  unfold binary_round.
  destruct (shl_align m e _) as [mz ez].
  apply binary_round_aux_sign.
Qed.

(** A square root and a quotient by a positive number are not below
    zero. *)
Lemma SFsqrt_not_negative (prec emax : Z) (x : spec_float) :
  not_negative (SFsqrt prec emax x).
Proof.
  destruct x as [s|[|]| |[|] m e]; cbn [SFsqrt not_negative]; try exact I.
  destruct (SFsqrt_core_binary prec emax (Z.pos m) e) as [[mz ez] lz].
  pose proof (binary_round_aux_sign prec emax false mz ez lz) as H.
  destruct (binary_round_aux prec emax false mz ez lz) as [s|s| |s m' e'];
    subst; exact I.
Qed.

Lemma SFdiv_not_negative (prec emax : Z) (x : spec_float) (m : positive)
    (e : Z) :
  not_negative x -> not_negative (SFdiv prec emax x (S754_finite false m e)).
Proof.
  destruct x as [s|[|]| |[|] mx ex]; cbn [SFdiv not_negative xorb];
    try contradiction; try (intros _; exact I).
  intros _.
  destruct (SFdiv_core_binary prec emax (Z.pos mx) ex (Z.pos m) e)
    as [[mz ez] lz].
  pose proof (binary_round_aux_sign prec emax false mz ez lz) as H.
  destruct (binary_round_aux prec emax false mz ez lz) as [s|s| |s m' e'];
    subst; exact I.
Qed.

(** Nothing that is not negative is below a float that is not positive. *)
Lemma SFltb_not_negative (x y : spec_float) :
  not_negative x -> ~ positive_float y -> y <> S754_infinity false ->
  SFltb x y = false.
Proof.
  destruct x as [sx|[|]| |[|] mx ex], y as [sy|[|]| |[|] my ey];
    cbn [not_negative positive_float]; intros Hx Hy Hinf;
    try contradiction; try reflexivity; try (exfalso; apply Hy; exact I).
Qed.

(** What is below a float is a number or the negative infinity, and what
    a float that is not negative is below is above zero. *)
Lemma SFltb_positive (x y : spec_float) :
  not_negative x -> SFltb x y = true -> positive_float y.
Proof.
  destruct x as [sx|[|]| |[|] mx ex], y as [sy|[|]| |[|] my ey];
    cbn [not_negative positive_float]; intros Hx H;
    try contradiction; try discriminate; exact I.
Qed.

Lemma SFcompare_antisym (x y : spec_float) :
  SFcompare y x = option_map CompOpp (SFcompare x y).
Proof.
  destruct x as [sx|[|]| |[|] mx ex], y as [sy|[|]| |[|] my ey];
    try reflexivity; cbn [SFcompare option_map];
    try (destruct sx; reflexivity); try (destruct sy; reflexivity);
    f_equal; rewrite (Z.compare_antisym ex ey);
    destruct (ex ?= ey); cbn [CompOpp]; try reflexivity;
    rewrite ?Pos.compare_cont_antisym; reflexivity.
Qed.

(** [SFleb] is the order of the numbers, too: what is at most [y] is not
    above it, and none of the two is NaN. *)
Lemma SFleb_not_lt (prec emax : Z) (x y : spec_float) :
  0 < prec ->
  SpecFloat.valid_binary prec emax x = true -> SpecFloat.valid_binary prec emax y = true ->
  SFleb x y = true ->
  ~ float_lt y x /\ x <> S754_nan /\ y <> S754_nan.
Proof.
  intros Hprec Hx Hy Hle.
  assert (Hlt : SFltb y x = false).
  { unfold SFltb, SFleb in *. rewrite SFcompare_antisym.
    destruct (SFcompare x y) as [[| |]|]; try discriminate; reflexivity. }
  split; [|split].
  - intros H. apply (SFltb_float_lt prec emax Hprec y x Hy Hx) in H.
    congruence.
  - intros ->. discriminate Hle.
  - intros ->. destruct x; discriminate Hle.
Qed.

(** Below [a], and [a] not above [b]: below [b]. *)
Lemma float_lt_le_trans (x a b : spec_float) :
  float_lt x a -> ~ float_lt b a -> b <> S754_nan -> float_lt x b.
Proof.
  destruct x as [sx|[|]| |sx mx ex], a as [sa|[|]| |sa ma ea],
    b as [sb|[|]| |sb mb eb];
    cbn [float_lt]; intros H1 H2 H3;
    try contradiction; try exact I; try congruence;
    try (exfalso; apply H2; exact I);
    try (apply Qnot_lt_le in H2; eapply Qlt_le_trans; eassumption).
Qed.

Lemma float_lt_irrefl (x : spec_float) : ~ float_lt x x.
Proof.
  destruct x as [s|[|]| |s m e]; cbn [float_lt]; try tauto;
    apply Qlt_irrefl.
Qed.

(** ** Floats: casts *)

Section Casts.

Variables prec emax : Z.
Hypothesis prec_pos : 0 < prec.
Hypothesis prec_lt_emax : prec < emax.

Lemma np_cast_valid (x : spec_float) :
  SpecFloat.valid_binary prec emax (np_cast prec emax x) = true
  /\ (x <> S754_nan -> np_cast prec emax x <> S754_nan).
Proof.
  destruct x as [s|s| |s m e]; cbn [np_cast]; try (split; [reflexivity|auto]).
  pose proof (binary_round_valid prec emax prec_pos s m e) as [Hv Hn].
  split; [exact Hv|]. intros _. exact Hn.
Qed.

(** A cast keeps the side of zero: what is not above zero is not above
    it afterwards. *)
Lemma np_cast_not_positive (x : spec_float) :
  ~ positive_float x -> x <> S754_nan ->
  ~ positive_float (np_cast prec emax x)
  /\ np_cast prec emax x <> S754_infinity false.
Proof.
  destruct x as [s|[|]| |[|] m e]; cbn [np_cast positive_float];
    intros Hx Hnan; try (exfalso; apply Hx; exact I);
    try (split; [tauto|discriminate]); try congruence.
  pose proof (binary_round_sign prec emax true m e) as Hs.
  destruct (binary_round prec emax true m e) as [s|s| |s m' e'];
    subst; cbn [positive_float]; split; (tauto || discriminate).
Qed.

(** A cast keeps the order: of two floats above zero, the cast of the
    smaller is not above the cast of the larger. *)
Lemma np_cast_mono (x y : spec_float) :
  positive_float x -> positive_float y -> ~ float_lt y x ->
  ~ float_lt (np_cast prec emax y) (np_cast prec emax x).
Proof.
  destruct x as [sx|[|]| |[|] mx ex], y as [sy|[|]| |[|] my ey];
    cbn [positive_float]; intros Hx Hy Hle; try contradiction.
  - apply float_lt_irrefl.
  - cbn [np_cast].
    pose proof (binary_round_valid prec emax prec_pos false mx ex) as [_ Hn].
    destruct (binary_round prec emax false mx ex) as [s|[|]| |s m' e'];
      cbn [float_lt]; tauto.
  - cbn [np_cast]. apply (binary_round_mono prec emax prec_pos prec_lt_emax).
    cbn [float_lt] in Hle. apply Qnot_lt_le in Hle. exact Hle.
Qed.

End Casts.

(** ** Floats: sums of zeros *)

Lemma fold_add32_zeros (l : list spec_float) :
  Forall (fun x => x = zero32) l -> fold_left add32 l zero32 = zero32.
Proof. induction 1 as [|x l -> _ IH]; [reflexivity|exact IH]. Qed.

Lemma fold_add32_zeros_from_minus (l : list spec_float) :
  Forall (fun x => x = zero32) l -> l <> [] ->
  fold_left add32 l (S754_zero true) = zero32.
Proof.
  intros Hl Hne. destruct Hl as [|x l -> Hl]; [congruence|].
  apply fold_add32_zeros, Hl.
Qed.

Lemma lane_Forall (P : spec_float -> Prop) (groups j : nat)
    (l : list spec_float) :
  Forall P l -> Forall P (lane groups j l).
Proof.
  revert l. induction groups as [|groups IH]; intros l Hl; [constructor|].
  cbn [lane]. destruct (l !! j) as [x|] eqn:Hx; [|constructor].
  constructor.
  - eapply Forall_lookup_1; eassumption.
  - apply IH, Forall_drop, Hl.
Qed.

Lemma lane_nonempty (groups j : nat) (l : list spec_float) :
  (0 < groups)%nat -> (j < length l)%nat -> lane groups j l <> [].
Proof.
  intros Hg Hj. destruct groups as [|groups]; [lia|]. cbn [lane].
  destruct (lookup_lt_is_Some_2 l j Hj) as [x ->]. discriminate.
Qed.

Lemma running_sum_zeros (l : list spec_float) :
  Forall (fun x => x = zero32) l -> l <> [] -> running_sum l = zero32.
Proof.
  intros Hl Hne. destruct Hl as [|x l -> Hl]; [congruence|].
  apply fold_add32_zeros, Hl.
Qed.

Lemma sum_block_zeros (l : list spec_float) :
  Forall (fun x => x = zero32) l -> (8 <= length l)%nat ->
  sum_block l = zero32.
Proof.
  intros Hl Hn. unfold sum_block.
  assert (Hg : (0 < length l / 8)%nat).
  { apply Nat.div_str_pos. lia. }
  assert (Hr : forall j, (j < 8)%nat ->
            running_sum (lane (length l / 8) j l) = zero32).
  { intros j Hj. apply running_sum_zeros.
    - apply lane_Forall, Hl.
    - apply lane_nonempty; [exact Hg|lia]. }
  rewrite !Hr by lia. apply fold_add32_zeros, Forall_drop, Hl.
Qed.

(** The halves of a list of more than 128 numbers are shorter and not
    empty. *)
Lemma pairwise_split (n : nat) :
  (128 < n)%nat ->
  (0 < n / 2 - (n / 2) mod 8 < n)%nat.
Proof.
  intros Hn.
  assert (H2 : (64 <= n / 2)%nat) by (apply Nat.div_le_lower_bound; lia).
  pose proof (Nat.mod_upper_bound (n / 2) 8 ltac:(lia)) as Hm.
  assert (Hle : (n / 2 <= n)%nat) by (apply Nat.Div0.div_le_upper_bound; lia).
  assert (Hlt : (n / 2 < n)%nat) by (apply Nat.div_lt; lia).
  lia.
Qed.

Lemma pairwise_sum_zeros (fuel : nat) (l : list spec_float) :
  Forall (fun x => x = zero32) l -> l <> [] -> (length l <= fuel)%nat ->
  pairwise_sum fuel l = zero32.
Proof.
  revert l. induction fuel as [|fuel IH]; intros l Hl Hne Hf.
  - destruct l; [congruence|simpl in Hf; lia].
  - cbn [pairwise_sum].
    destruct (Nat.ltb_spec (length l) 8) as [H8|H8].
    { apply fold_add32_zeros_from_minus; assumption. }
    destruct (Nat.leb_spec (length l) 128) as [H128|H128].
    { apply sum_block_zeros; assumption. }
    pose proof (pairwise_split (length l) H128) as [Hlo Hhi].
    set (n2 := (length l / 2 - (length l / 2) mod 8)%nat) in *.
    rewrite (IH (take n2 l)), (IH (drop n2 l)); [reflexivity| | | | | |].
    + apply Forall_drop, Hl.
    + intros H. apply (f_equal length) in H. rewrite length_drop in H.
      simpl in H. lia.
    + rewrite length_drop. lia.
    + apply Forall_take, Hl.
    + intros H. apply (f_equal length) in H. rewrite length_take in H.
      simpl in H. lia.
    + rewrite length_take. lia.
Qed.

(** The fuel of the pairwise sum is never used up: from the length of the
    list on, more fuel changes nothing. *)
Lemma pairwise_sum_fuel (fuel fuel' : nat) (l : list spec_float) :
  (length l <= fuel)%nat -> (length l <= fuel')%nat ->
  pairwise_sum fuel l = pairwise_sum fuel' l.
Proof.
  revert fuel' l. induction fuel as [|fuel IH]; intros fuel' l Hf Hf'.
  - destruct l; [|simpl in Hf; lia]. destruct fuel'; reflexivity.
  - destruct fuel' as [|fuel'].
    { destruct l; [reflexivity|simpl in Hf'; lia]. }
    cbn [pairwise_sum].
    destruct (Nat.ltb_spec (length l) 8) as [H8|H8]; [reflexivity|].
    destruct (Nat.leb_spec (length l) 128) as [H128|H128]; [reflexivity|].
    pose proof (pairwise_split (length l) H128) as [Hlo Hhi].
    set (n2 := (length l / 2 - (length l / 2) mod 8)%nat) in *.
    rewrite (IH fuel' (take n2 l)), (IH fuel' (drop n2 l));
      rewrite ?length_take, ?length_drop; (reflexivity || lia).
Qed.

Lemma np_sum_zeros (l : list spec_float) :
  Forall (fun x => x = zero32) l -> l <> [] -> np_sum l = zero32.
Proof.
  intros Hl Hne. unfold np_sum.
  rewrite pairwise_sum_zeros by (assumption || lia).
  destruct l; [congruence|reflexivity].
Qed.

(** The count of a non-empty array is a positive [float64]. *)
Lemma np_float64_of_count (n : nat) :
  (0 < n)%nat -> positive_float (np_float64_of_int (Z.of_nat n)).
Proof.
  intros Hn. unfold np_float64_of_int.
  destruct (Z.of_nat n) as [|p|p] eqn:Hp; try lia.
  cbn [binary_normalize].
  pose proof (binary_round_mono 53 1024 eq_refl eq_refl 1 p 0 0) as Hmono.
  pose proof (binary_round_valid 53 1024 eq_refl false p 0) as [_ Hnan].
  pose proof (binary_round_sign 53 1024 false p 0) as Hs.
  assert (Hle : (SF2Q (S754_finite false 1 0) <= SF2Q (S754_finite false p 0))%Q).
  { cbn [SF2Q signed]. apply Qmult_le_compat_r; [|discriminate].
    rewrite <- Zle_Qle. lia. }
  specialize (Hmono Hle).
  change (binary_round 53 1024 false 1 0)
    with (S754_finite false 4503599627370496 (-52)) in Hmono.
  destruct (binary_round 53 1024 false p 0) as [s|s| |s m e];
    subst; cbn [positive_float]; try exact I; try congruence.
  exfalso. apply Hmono. cbn [float_lt]. apply SF2Q_pos.
Qed.

Lemma all_zero_repeat (samples : list Z) :
  Forall (fun x => x = 0) samples -> samples = repeat 0 (length samples).
Proof.
  induction 1 as [|x xs -> _ IH]; [reflexivity|].
  simpl. f_equal. exact IH.
Qed.

(** The normalised RMS of a non-empty frame of zeros is 0.0. *)
Lemma normalized_rms_zeros (samples : list Z) :
  Forall (fun x => x = 0) samples -> samples <> [] ->
  normalized_rms samples = zero32.
Proof.
  intros Hz Hne. unfold normalized_rms, np_mean.
  assert (Hsq : Forall (fun x => x = zero32)
                  (np_square (astype_float32 samples))).
  { unfold np_square, astype_float32. rewrite List.map_map.
    apply Forall_map. eapply Forall_impl; [exact Hz|].
    intros x ->. reflexivity. }
  assert (Hsqne : np_square (astype_float32 samples) <> []).
  { unfold np_square, astype_float32. destruct samples; [congruence|].
    discriminate. }
  rewrite np_sum_zeros by assumption.
  assert (Hlen : length (np_square (astype_float32 samples))
                 = length samples).
  { unfold np_square, astype_float32. now rewrite !length_map. }
  rewrite Hlen.
  assert (Hn : (0 < length samples)%nat)
    by (destruct samples; [congruence|simpl; lia]).
  pose proof (np_float64_of_count (length samples) Hn) as Hc.
  destruct (np_float64_of_int (Z.of_nat (length samples)))
    as [s|[|]| |[|] m e]; cbn [positive_float] in Hc; try contradiction;
    reflexivity.
Qed.

(** The normalised RMS is never below zero. *)
Lemma normalized_rms_not_negative (samples : list Z) :
  not_negative (normalized_rms samples).
Proof.
  unfold normalized_rms.
  change (np_float32_of_int 32768) with (S754_finite false 8388608 (-8)).
  apply SFdiv_not_negative. apply SFsqrt_not_negative.
Qed.

Lemma normalized_rms_valid (samples : list Z) :
  SpecFloat.valid_binary 24 128 (normalized_rms samples) = true.
Proof. apply SFdiv_valid. reflexivity. Qed.

Lemma threshold32_valid (self : SimpleAudioRecorder) :
  SpecFloat.valid_binary 24 128 (threshold32 self) = true.
Proof. apply np_cast_valid. reflexivity. Qed.

(** ** Exact arithmetic against the real numbers *)

Lemma Qltb_lt (x y : Q) : Qltb x y = true <-> (x < y)%Q.
Proof.
  unfold Qltb. rewrite negb_true_iff, <- not_true_iff_false, Qle_bool_iff.
  split; [apply Qnot_le_lt | apply Qlt_not_le].
Qed.

Lemma Qltb_ge (x y : Q) : Qltb x y = false <-> (y <= x)%Q.
Proof. unfold Qltb. rewrite negb_false_iff. apply Qle_bool_iff. Qed.

Lemma Q2R_inject_Z (z : Z) : Q2R (inject_Z z) = IZR z.
Proof. unfold Q2R. simpl. lra. Qed.

Lemma Q2R_0 : Q2R 0 = 0%R.
Proof. unfold Q2R. simpl. lra. Qed.

Lemma Q2R_1 : Q2R 1 = 1%R.
Proof. unfold Q2R. simpl. lra. Qed.

Lemma Q2R_Qsum_squares (samples : list Z) :
  Q2R (Qsum (squares samples)) = sum_squares_R samples.
Proof.
  induction samples as [|x xs IH].
  - unfold Q2R. simpl. lra.
  - change (Qsum (squares (x :: xs)))
      with (inject_Z x * inject_Z x + Qsum (squares xs))%Q.
    rewrite Q2R_plus, Q2R_mult, Q2R_inject_Z, IH. reflexivity.
Qed.

Lemma sum_squares_R_nonneg (samples : list Z) : (0 <= sum_squares_R samples)%R.
Proof.
  induction samples as [|x xs IH]; simpl; [lra|].
  pose proof (Rle_0_sqr (IZR x)) as Hx. unfold Rsqr in Hx. lra.
Qed.

Lemma Qsum_squares_nonneg (samples : list Z) : (0 <= Qsum (squares samples))%Q.
Proof.
  apply Rle_Qle. rewrite Q2R_Qsum_squares. unfold Q2R. simpl.
  pose proof (sum_squares_R_nonneg samples). lra.
Qed.

(** [√m / d < t] without the root. *)
Lemma sqrt_div_lt (m d t : R) :
  (0 <= m)%R -> (0 < d)%R ->
  (R_sqrt.sqrt m / d < t)%R <-> (0 < t)%R /\ (m / (d * d) < t * t)%R.
Proof.
  intros Hm Hd.
  assert (Hs : (0 <= R_sqrt.sqrt m)%R) by apply sqrt_pos.
  assert (Hsq : (R_sqrt.sqrt m * R_sqrt.sqrt m = m)%R)
    by (apply sqrt_sqrt; exact Hm).
  assert (Hdd : (0 < d * d)%R) by nra.
  split.
  - intros H.
    assert (Hq : (0 <= R_sqrt.sqrt m / d)%R).
    { apply Rmult_le_pos; [exact Hs|]. left. apply Rinv_0_lt_compat, Hd. }
    assert (Ht : (0 < t)%R) by lra.
    split; [exact Ht|].
    assert (H1 : (R_sqrt.sqrt m < t * d)%R).
    { apply (Rmult_lt_reg_r (/ d)); [apply Rinv_0_lt_compat, Hd|].
      replace (t * d * / d)%R with t by (field; lra). exact H. }
    apply (Rmult_lt_reg_r (d * d)); [exact Hdd|].
    replace (m / (d * d) * (d * d))%R with m by (field; lra).
    nra.
  - intros [Ht H].
    assert (H1 : (m < (t * d) * (t * d))%R).
    { apply (Rmult_lt_compat_r (d * d)) in H; [|exact Hdd].
      replace (m / (d * d) * (d * d))%R with m in H by (field; lra). lra. }
    assert (H2 : (R_sqrt.sqrt m < t * d)%R).
    { rewrite <- (sqrt_square (t * d)) by nra. apply sqrt_lt_1; [lra|nra|exact H1]. }
    apply (Rmult_lt_reg_r d); [exact Hd|].
    replace (R_sqrt.sqrt m / d * d)%R with (R_sqrt.sqrt m) by (field; lra).
    exact H2.
Qed.

Lemma length_squares (samples : list Z) :
  length (squares samples) = length samples.
Proof. unfold squares. apply length_map. Qed.

(** The mean of the squares of a non-empty frame is a number, and it is
    not negative. *)
Lemma exact_mean_squares (samples : list Z) :
  samples <> [] ->
  exact_mean (squares samples) =
  fin (Qsum (squares samples) / inject_Z (Z.of_nat (length samples))).
Proof.
  intros Hne. rewrite <- length_squares.
  destruct samples as [|x xs]; [congruence|]. reflexivity.
Qed.

Lemma mean_squares_nonneg (samples : list Z) :
  samples <> [] ->
  (0 <= Qsum (squares samples) / inject_Z (Z.of_nat (length samples)))%Q.
Proof.
  intros Hne. apply Qle_shift_div_l.
  - change 0%Q with (inject_Z 0). rewrite <- Zlt_Qlt.
    destruct samples; [congruence|]. simpl length. lia.
  - rewrite Qmult_0_l. apply Qsum_squares_nonneg.
Qed.

Lemma exact_normalized_rms_root (samples : list Z) :
  samples <> [] ->
  exact_normalized_rms samples =
  surd_root (Qsum (squares samples) / inject_Z (Z.of_nat (length samples))
             / inject_Z (Z.pos (32768 * 32768))).
Proof.
  intros Hne. unfold exact_normalized_rms.
  rewrite exact_mean_squares by exact Hne.
  unfold exact_sqrt.
  pose proof (mean_squares_nonneg samples Hne) as Hq.
  apply Qltb_ge in Hq. rewrite Hq. reflexivity.
Qed.

Lemma Q2R_mean_squares (samples : list Z) :
  samples <> [] ->
  Q2R (Qsum (squares samples) / inject_Z (Z.of_nat (length samples)))
  = (sum_squares_R samples / INR (length samples))%R.
Proof.
  intros Hne.
  assert (Hn : (0 < Z.of_nat (length samples))%Z)
    by (destruct samples; [congruence|simpl length; lia]).
  rewrite Q2R_div.
  - rewrite Q2R_Qsum_squares, Q2R_inject_Z, INR_IZR_INZ. reflexivity.
  - intros H. unfold Qeq in H. simpl in H. lia.
Qed.

(** ** Silence detection *)

Lemma is_silence_code (self : SimpleAudioRecorder) (audio_chunk : chunk)
    (samples : list Z) :
  np_frombuffer_int16 audio_chunk = Ret samples ->
  _is_silence self audio_chunk
  = Ret (SFltb (normalized_rms samples) (threshold32 self)).
Proof. intros Hbuf. unfold _is_silence. rewrite Hbuf. reflexivity. Qed.

(** The comparison of the code is the order of the two numbers. *)
Lemma SFltb_normalized_rms (self : SimpleAudioRecorder) (samples : list Z) :
  SFltb (normalized_rms samples) (threshold32 self) = true
  <-> float_lt (normalized_rms samples) (threshold32 self).
Proof.
  apply (SFltb_float_lt 24 128 eq_refl).
  - apply normalized_rms_valid.
  - apply threshold32_valid.
Qed.


Lemma quiet_samples : np_frombuffer_int16 quiet = Ret (repeat 0 1024).
Proof. vm_compute. reflexivity. Qed.

Lemma loud_samples : np_frombuffer_int16 loud = Ret (repeat 16384 1024).
Proof. vm_compute. reflexivity. Qed.







(** The value the code computes for that frame is the threshold itself. *)
Lemma boundary_frame_is_at_threshold :
  normalized_rms (repeat 16384 1024) = threshold32 recorder_half.
Proof. vm_compute. reflexivity. Qed.

Lemma near_328_samples : np_frombuffer_int16 near_328_chunk = Ret near_328.
Proof. vm_compute. reflexivity. Qed.

Lemma near_328_sum_squares : sum_squares_R near_328 = 13770751%R.
Proof.
  rewrite <- Q2R_Qsum_squares.
  assert (H : (Qsum (squares near_328) == inject_Z 13770751)%Q)
    by (vm_compute; reflexivity).
  rewrite (Qeq_eqR _ _ H). apply Q2R_inject_Z.
Qed.

Lemma float_Q_41_4096 : (float_Q 0x1.48p-7 == 41 # 4096)%Q.
Proof. vm_compute. reflexivity. Qed.

(** Rounding counts: the 128 samples of [near_328] have a normalised RMS
    that is below the threshold 41/4096, as a real number, and the root the
    code computes for them in single precision is rounded up to 328, the
    quotient is the threshold itself, and the frame is taken for speech. *)
Lemma rounded_root_is_speech :
  (normalized_rms_R near_328 < Q2R (float_Q 0x1.48p-7))%R
  /\ normalized_rms near_328
     = threshold32 (with_threshold 0x1.48p-7 default_recorder)
  /\ _is_silence (with_threshold 0x1.48p-7 default_recorder) near_328_chunk
     = Ret false.
Proof.
  split; [|split; vm_compute; reflexivity].
  rewrite (Qeq_eqR _ _ float_Q_41_4096).
  unfold normalized_rms_R, rms_R. rewrite near_328_sum_squares.
  assert (Hlen : INR (length near_328) = 128%R).
  { change (length near_328) with 128%nat. rewrite INR_IZR_INZ. reflexivity. }
  rewrite Hlen.
  apply sqrt_div_lt; [lra|lra|].
  unfold Q2R. simpl. lra.
Qed.

Lemma sum_squares_R_zero (samples : list Z) :
  Forall (fun x => x = 0) samples -> sum_squares_R samples = 0%R.
Proof.
  induction 1 as [|x xs Hx _ IH]; simpl; [reflexivity|].
  rewrite IH, Hx. lra.
Qed.

(** Above zero stays above zero for what is not below it. *)
Lemma positive_float_le (x y : spec_float) :
  positive_float x -> ~ float_lt y x -> y <> S754_nan -> positive_float y.
Proof.
  destruct x as [sx|[|]| |[|] mx ex], y as [sy|[|]| |[|] my ey];
    cbn [positive_float float_lt]; intros Hx Hle Hn;
    try contradiction; try exact I; try congruence;
    try (apply Hle; exact I);
    try pose proof (SF2Q_pos mx ex); try pose proof (SF2Q_neg my ey);
    apply Hle; cbn [SF2Q] in *; Lqa.lra.
Qed.

(** A threshold of at least [0x1.0000000000001p-150], the least double
    that single precision does not round to zero, is above zero in single
    precision. *)
Lemma threshold32_positive (self : SimpleAudioRecorder) :
  (0x1.0000000000001p-150 <=? silence_threshold self)%float = true ->
  float_lt (S754_zero false) (threshold32 self).
Proof.
  intros Ht. rewrite leb_spec in Ht.
  pose proof (SFleb_not_lt 53 1024 _ _ eq_refl (Prim2SF_valid _)
                (Prim2SF_valid _) Ht) as (Hle & _ & Hn).
  change (Prim2SF 0x1.0000000000001p-150)
    with (S754_finite false 4503599627370497 (-202)) in Hle.
  assert (Hpos : positive_float (Prim2SF (silence_threshold self)))
    by (eapply positive_float_le; [|exact Hle|exact Hn]; exact I).
  pose proof (np_cast_mono 24 128 eq_refl eq_refl
                (S754_finite false 4503599627370497 (-202)) _ I Hpos Hle)
    as Hmono.
  change (np_cast 24 128 (S754_finite false 4503599627370497 (-202)))
    with (S754_finite false 1 (-149)) in Hmono.
  apply (float_lt_le_trans _ (S754_finite false 1 (-149))).
  - apply SF2Q_pos.
  - exact Hmono.
  - apply (np_cast_valid 24 128 eq_refl), Hn.
Qed.

(** A threshold of at most [0x1p-150] is zero or below in single
    precision: nothing that is not negative is below it. *)
Lemma threshold32_rounds_to_zero (self : SimpleAudioRecorder)
    (x : spec_float) :
  (silence_threshold self <=? 0x1p-150)%float = true ->
  not_negative x -> SpecFloat.valid_binary 24 128 x = true ->
  SFltb x (threshold32 self) = false.
Proof.
  intros Ht Hx Hv. rewrite leb_spec in Ht.
  pose proof (SFleb_not_lt 53 1024 _ _ eq_refl (Prim2SF_valid _)
                (Prim2SF_valid _) Ht) as (Hle & Hn & _).
  change (Prim2SF 0x1p-150)
    with (S754_finite false 4503599627370496 (-202)) in Hle.
  unfold threshold32.
  destruct (Prim2SF (silence_threshold self)) as [s|[|]| |[|] m e] eqn:Hsf;
    try congruence;
    try (apply SFltb_not_negative;
         [exact Hx
         |apply (np_cast_not_positive 24 128); cbn [positive_float];
          [tauto|discriminate]
         |apply (np_cast_not_positive 24 128); cbn [positive_float];
          [tauto|discriminate]]).
  pose proof (np_cast_mono 24 128 eq_refl eq_refl
                  (S754_finite false m e)
                  (S754_finite false 4503599627370496 (-202)) I I Hle)
      as Hmono.
  change (np_cast 24 128 (S754_finite false 4503599627370496 (-202)))
    with (S754_zero false) in Hmono.
  apply not_true_is_false. intros Hlt.
  apply (SFltb_float_lt 24 128 eq_refl) in Hlt;
    [|exact Hv|apply (np_cast_valid 24 128 eq_refl)].
  apply Hmono. unfold np_float32 in Hlt.
  destruct x as [sx|[|]| |[|] mx ex]; cbn [not_negative] in Hx;
    try contradiction;
    destruct (np_cast 24 128 (S754_finite false m e)) as [sy|[|]| |sy my ey];
    cbn [float_lt] in *; try contradiction; try exact I;
    try pose proof (SF2Q_pos mx ex); cbn [SF2Q] in *; Lqa.lra.
Qed.

(** C4, as amended: [_is_silence] returns true for every non-empty
    all-zero frame, for every threshold that single precision does not round
    to zero, because the RMS of such a frame is 0, and returns false for it
    under a threshold of at most [0x1p-150], even one above zero; an empty
    frame has no mean (NaN), and for it [_is_silence] returns false. *)
Theorem zero_frame_is_silence
    (self : SimpleAudioRecorder) (audio_chunk : chunk) (samples : list Z) :
  np_frombuffer_int16 audio_chunk = Ret samples ->
  samples <> [] ->
  Forall (fun x => x = 0) samples ->
  (0x1.0000000000001p-150 <=? silence_threshold self)%float = true ->
  normalized_rms_R samples = 0%R
  /\ normalized_rms samples = S754_zero false
  /\ _is_silence self audio_chunk = Ret true
  /\ (forall self' : SimpleAudioRecorder,
        (silence_threshold self' <=? 0x1p-150)%float = true ->
        _is_silence self' audio_chunk = Ret false)
  /\ normalized_rms [] = S754_nan
  /\ _is_silence self [] = Ret false.
Proof.
  intros Hbuf Hne Hzero Ht.
  pose proof (normalized_rms_zeros samples Hzero Hne) as Hrms.
  split; [|split; [exact Hrms|split; [|split; [|split]]]].
  - unfold normalized_rms_R, rms_R. rewrite sum_squares_R_zero by exact Hzero.
    unfold Rdiv at 2. rewrite Rmult_0_l, sqrt_0. lra.
  - rewrite (is_silence_code self audio_chunk samples Hbuf). f_equal.
    apply SFltb_normalized_rms. rewrite Hrms.
    apply threshold32_positive, Ht.
  - intros self' Ht'.
    rewrite (is_silence_code self' audio_chunk samples Hbuf). f_equal.
    apply threshold32_rounds_to_zero;
      [exact Ht'|apply normalized_rms_not_negative
      |apply normalized_rms_valid].
  - reflexivity.
  - reflexivity.
Qed.

Lemma zero_frame_is_silence_witness :
  normalized_rms_R (repeat 0%Z 1024) = 0%R
  /\ normalized_rms (repeat 0 1024) = S754_zero false
  /\ _is_silence default_recorder quiet = Ret true
  /\ (forall self' : SimpleAudioRecorder,
        (silence_threshold self' <=? 0x1p-150)%float = true ->
        _is_silence self' quiet = Ret false)
  /\ normalized_rms [] = S754_nan
  /\ _is_silence default_recorder [] = Ret false.
Proof.
  apply (zero_frame_is_silence default_recorder quiet (repeat 0 1024)).
  - exact quiet_samples.
  - discriminate.
  - apply Forall_forall. intros x Hx. apply list_elem_of_In in Hx.
    apply repeat_spec in Hx. exact Hx.
  - reflexivity.
Defined.

(** C4, as the claim has it, fails on the empty frame: at the default
    threshold 0.01 the empty frame is not silence. *)
Lemma empty_frame_is_not_silence :
  ~ (forall self : SimpleAudioRecorder,
        (0 <? silence_threshold self)%float = true ->
        _is_silence self [] = Ret true).
Proof.
  intros H. specialize (H default_recorder eq_refl). discriminate H.
Qed.

(** And on the all-zero frame under a threshold above zero that single
    precision rounds to zero, such as 1e-46. *)
Lemma zero_frame_is_speech_below_single_precision :
  (0 <? 1e-46)%float = true
  /\ _is_silence (with_threshold 1e-46 default_recorder) quiet = Ret false.
Proof. split; vm_compute; reflexivity. Qed.

(** ** The detector on every buffer *)

Lemma list_pair_ind {A} (P : list A -> Prop) :
  P [] -> (forall x, P [x]) -> (forall x y l, P l -> P (x :: y :: l)) ->
  forall l, P l.
Proof.
  intros H0 H1 H2 l.
  assert (H : P l /\ forall x, P (x :: l)); [|apply H].
  induction l as [|y l [IH1 IH2]]; [auto|].
  split; [apply IH2|]. intros x. apply H2, IH1.
Qed.

Lemma log2_below_16 (x : Z) : 0 <= x < 2 ^ 16 -> Z.log2 x < 16.
Proof.
  intros [H0 H1]. destruct (Z.eq_dec x 0) as [->|Hx]; [reflexivity|].
  apply Z.log2_lt_pow2; lia.
Qed.

Lemma int16_of_bytes_range (lo hi : byte) : in_int16 (int16_of_bytes lo hi).
Proof.
  unfold in_int16, int16_of_bytes.
  pose proof (Byte.to_N_bounded lo) as Hlo.
  pose proof (Byte.to_N_bounded hi) as Hhi.
  set (a := Z.of_N (Byte.to_N lo)) in *.
  set (b := Z.of_N (Byte.to_N hi)) in *.
  assert (Ha : 0 <= a < 2 ^ 16) by (unfold a; lia).
  assert (Hb : 0 <= Z.shiftl b 8 < 2 ^ 16).
  { rewrite Z.shiftl_mul_pow2 by lia. unfold b. lia. }
  assert (Hu0 : 0 <= Z.lor a (Z.shiftl b 8)) by (apply Z.lor_nonneg; lia).
  assert (Hu1 : Z.lor a (Z.shiftl b 8) < 2 ^ 16).
  { destruct (Z.eq_dec (Z.lor a (Z.shiftl b 8)) 0) as [->|Hne]; [lia|].
    apply Z.log2_lt_pow2; [lia|].
    rewrite Z.log2_lor by lia.
    pose proof (log2_below_16 a Ha). pose proof (log2_below_16 _ Hb). lia. }
  cbv zeta. destruct (Z.ltb_spec (Z.lor a (Z.shiftl b 8)) 32768); lia.
Qed.

(** [np.frombuffer] on a buffer of even size returns half as many samples,
    each a signed 16-bit number; on a buffer of odd size it raises. *)
Lemma np_frombuffer_int16_spec (buf : list byte) :
  match np_frombuffer_int16 buf with
  | Ret samples =>
      Nat.even (length buf) = true
      /\ length buf = (2 * length samples)%nat
      /\ Forall in_int16 samples
  | Exc e => Nat.even (length buf) = false /\ e = odd_buffer
  end.
Proof.
  induction buf as [|x|lo hi buf IH] using list_pair_ind.
  - simpl. auto.
  - simpl. auto.
  - cbn [np_frombuffer_int16].
    destruct (np_frombuffer_int16 buf) as [samples|e]; cbn [mbind res_bind].
    + destruct IH as (He & Hl & Hr). simpl length. split; [exact He|].
      split; [lia|]. constructor; [apply int16_of_bytes_range|exact Hr].
    + exact IH.
Qed.

(** X1: [_is_silence] answers on every buffer of even size and raises
    [ValueError] on every buffer of odd size, whatever the threshold. *)
Theorem is_silence_raises_on_odd_size
    (self : SimpleAudioRecorder) (audio_chunk : chunk) :
  if Nat.even (length audio_chunk)
  then exists b, _is_silence self audio_chunk = Ret b
  else _is_silence self audio_chunk = Exc odd_buffer.
Proof.
  unfold _is_silence.
  pose proof (np_frombuffer_int16_spec audio_chunk) as H.
  destruct (np_frombuffer_int16 audio_chunk) as [samples|e];
    cbn [mbind res_bind].
  - destruct H as (-> & _). eexists. reflexivity.
  - destruct H as (-> & ->). reflexivity.
Qed.

Lemma sum_squares_R_bound (samples : list Z) :
  Forall in_int16 samples ->
  (sum_squares_R samples <= INR (length samples) * (32768 * 32768))%R.
Proof.
  induction 1 as [|x xs [Hlo Hhi] _ IH].
  - simpl. lra.
  - cbn [sum_squares_R fold_right]. fold (sum_squares_R xs).
    change (length (x :: xs)) with (S (length xs)). rewrite S_INR.
    apply IZR_le in Hlo, Hhi.
    assert (Hx : (IZR x * IZR x <= 32768 * 32768)%R) by nra.
    lra.
Qed.

(** The mean of the squares over 32768 squared, the number under the root
    of the normalised RMS, lies between 0 and 1. *)
Lemma normalized_mean_unit (samples : list Z) :
  samples <> [] -> Forall in_int16 samples ->
  (0 <= Qsum (squares samples) / inject_Z (Z.of_nat (length samples))
        / inject_Z (Z.pos (32768 * 32768)) <= 1)%Q.
Proof.
  intros Hne Hr.
  pose proof (mean_squares_nonneg samples Hne) as Hm.
  assert (Hd : ~ (inject_Z (Z.pos (32768 * 32768)) == 0)%Q) by discriminate.
  assert (Hn : (0 < INR (length samples))%R).
  { apply lt_0_INR. destruct samples; [congruence|simpl; lia]. }
  pose proof (sum_squares_R_bound samples Hr) as Hs.
  pose proof (sum_squares_R_nonneg samples) as Hs0.
  split; apply Rle_Qle;
    rewrite Q2R_div, Q2R_mean_squares, Q2R_inject_Z by assumption;
    change (Z.pos (32768 * 32768)) with (32768 * 32768)%Z;
    rewrite mult_IZR.
  - replace (Q2R 0) with 0%R by (unfold Q2R; simpl; lra).
    apply Rmult_le_pos; [|lra].
    apply Rmult_le_pos; [exact Hs0|]. left. apply Rinv_0_lt_compat, Hn.
  - replace (Q2R 1) with 1%R by (unfold Q2R; simpl; lra).
    apply (Rmult_le_reg_r (32768 * 32768)); [lra|].
    replace (sum_squares_R samples / INR (length samples) / (32768 * 32768)
             * (32768 * 32768))%R
      with (sum_squares_R samples / INR (length samples))%R by (field; lra).
    apply (Rmult_le_reg_r (INR (length samples))); [exact Hn|].
    replace (sum_squares_R samples / INR (length samples)
             * INR (length samples))%R
      with (sum_squares_R samples) by (field; lra).
    lra.
Qed.

(** X2: the normalised RMS lies in the range 0 to 1 for every non-empty
    buffer of even size: in exact arithmetic it is the root of a number
    between 0 and 1, as a real number it is between 0 and 1, and the value
    the code computes in single precision is never below 0. *)
Theorem normalized_rms_in_unit_range (audio_chunk : chunk) (samples : list Z) :
  np_frombuffer_int16 audio_chunk = Ret samples ->
  samples <> [] ->
  (exists q, exact_normalized_rms samples = surd_root q /\ (0 <= q <= 1)%Q)
  /\ (0 <= normalized_rms_R samples <= 1)%R
  /\ not_negative (normalized_rms samples).
Proof.
  intros Hbuf Hne.
  pose proof (np_frombuffer_int16_spec audio_chunk) as Hspec.
  rewrite Hbuf in Hspec. destruct Hspec as (_ & _ & Hr).
  split; [|split; [|apply normalized_rms_not_negative]].
  - eexists. split; [apply exact_normalized_rms_root, Hne|].
    apply normalized_mean_unit; assumption.
  - unfold normalized_rms_R, rms_R.
    assert (Hn : (0 < INR (length samples))%R).
    { apply lt_0_INR. destruct samples; [congruence|simpl; lia]. }
    pose proof (sum_squares_R_bound samples Hr) as Hs.
    pose proof (sum_squares_R_nonneg samples) as Hs0.
    set (m := (sum_squares_R samples / INR (length samples))%R).
    assert (Hm0 : (0 <= m)%R).
    { unfold m. apply Rmult_le_pos; [exact Hs0|].
      left. apply Rinv_0_lt_compat, Hn. }
    assert (Hm1 : (m <= 32768 * 32768)%R).
    { unfold m. apply (Rmult_le_reg_r (INR (length samples))); [exact Hn|].
      replace (sum_squares_R samples / INR (length samples)
               * INR (length samples))%R
        with (sum_squares_R samples) by (field; lra).
      lra. }
    pose proof (sqrt_pos m) as Hp.
    assert (Hq : (R_sqrt.sqrt m <= 32768)%R).
    { rewrite <- (sqrt_square 32768) by lra. apply sqrt_le_1_alt, Hm1. }
    split; lra.
Qed.

Lemma normalized_rms_in_unit_range_witness :
  (exists q, exact_normalized_rms (repeat 16384 1024) = surd_root q
             /\ (0 <= q <= 1)%Q)
  /\ (0 <= normalized_rms_R (repeat 16384%Z 1024) <= 1)%R
  /\ not_negative (normalized_rms (repeat 16384 1024)).
Proof.
  apply (normalized_rms_in_unit_range loud (repeat 16384 1024));
    [exact loud_samples|discriminate].
Defined.

(** What is at most zero is not above it. *)
Lemma SFleb_zero_not_positive (x : spec_float) :
  SFleb x (S754_zero false) = true -> ~ positive_float x /\ x <> S754_nan.
Proof.
  destruct x as [s|[|]| |[|] m e]; cbn; intros H;
    try discriminate; split; (tauto || discriminate).
Qed.

(** X3: with a threshold of 0 or below no buffer is silence: every buffer
    of even size, the all-zero one too, is taken for speech. *)
Theorem nothing_is_silence_at_threshold_zero
    (self : SimpleAudioRecorder) (audio_chunk : chunk) :
  (silence_threshold self <=? 0)%float = true ->
  if Nat.even (length audio_chunk)
  then _is_silence self audio_chunk = Ret false
  else _is_silence self audio_chunk = Exc odd_buffer.
Proof.
  intros Ht. rewrite leb_spec in Ht.
  change (Prim2SF 0) with (S754_zero false) in Ht.
  apply SFleb_zero_not_positive in Ht. destruct Ht as [Hpos Hnan].
  unfold _is_silence.
  pose proof (np_frombuffer_int16_spec audio_chunk) as H.
  destruct (np_frombuffer_int16 audio_chunk) as [samples|e];
    cbn [mbind res_bind].
  - destruct H as (-> & _). f_equal.
    apply SFltb_not_negative;
      [apply normalized_rms_not_negative| |];
      apply (np_cast_not_positive 24 128); assumption.
  - destruct H as (-> & ->). reflexivity.
Qed.

Lemma nothing_is_silence_at_threshold_zero_witness :
  if Nat.even (length quiet)
  then _is_silence (with_threshold 0 default_recorder) quiet = Ret false
  else _is_silence (with_threshold 0 default_recorder) quiet = Exc odd_buffer.
Proof.
  apply (nothing_is_silence_at_threshold_zero
           (with_threshold 0 default_recorder) quiet).
  reflexivity.
Defined.

Lemma not_positive_float_cases (x : spec_float) :
  positive_float x \/ ~ positive_float x.
Proof. destruct x as [s|[|]| |[|] m e]; cbn; tauto. Qed.

(** X5: raising the threshold never turns silence into speech: a buffer
    that is silence for one recorder is silence for every recorder whose
    threshold is at least as high. *)
Theorem silence_is_monotone_in_threshold
    (self self' : SimpleAudioRecorder) (audio_chunk : chunk) :
  (silence_threshold self <=? silence_threshold self')%float = true ->
  _is_silence self audio_chunk = Ret true ->
  _is_silence self' audio_chunk = Ret true.
Proof.
  intros Ht. unfold _is_silence.
  destruct (np_frombuffer_int16 audio_chunk) as [samples|e];
    cbn [mbind res_bind]; [|discriminate].
  intros H. injection H as H. f_equal.
  rewrite leb_spec in Ht.
  pose proof (SFleb_not_lt 53 1024 _ _ eq_refl (Prim2SF_valid _)
                (Prim2SF_valid _) Ht) as (Hle & Hn & Hn').
  pose proof (normalized_rms_not_negative samples) as Hx.
  pose proof (SFltb_positive _ _ Hx H) as Hpos32.
  assert (Hpos : positive_float (Prim2SF (silence_threshold self))).
  { destruct (not_positive_float_cases (Prim2SF (silence_threshold self)))
      as [Hp|Hp]; [exact Hp|].
    exfalso. destruct (np_cast_not_positive 24 128 _ Hp Hn) as [Hc _].
    apply Hc. exact Hpos32. }
  pose proof (positive_float_le _ _ Hpos Hle Hn') as Hpos'.
  pose proof (np_cast_mono 24 128 eq_refl eq_refl _ _ Hpos Hpos' Hle)
    as Hmono.
  apply (SFltb_normalized_rms self samples) in H.
  apply (SFltb_normalized_rms self' samples).
  eapply float_lt_le_trans; [exact H|exact Hmono|].
  apply (np_cast_valid 24 128 eq_refl), Hn'.
Qed.

Lemma quiet_silent : silent default_recorder quiet.
Proof. vm_compute. reflexivity. Qed.

Lemma loud_speech : speech default_recorder loud.
Proof. vm_compute. reflexivity. Qed.

Lemma silence_is_monotone_in_threshold_witness :
  _is_silence recorder_half quiet = Ret true.
Proof.
  apply (silence_is_monotone_in_threshold default_recorder recorder_half quiet).
  - reflexivity.
  - exact quiet_silent.
Defined.

(** ** One utterance *)

Lemma temp_name_fresh (w : world) : tmpfiles w !! temp_name w = None.
Proof. unfold temp_name. apply (not_elem_of_dom (D := gset nat)). apply is_fresh. Qed.

Lemma temp_file_removed (fs : gmap nat (option wav)) (name : nat) (a : wav) :
  fs !! name = None ->
  delete name (<[name := Some a]> (<[name := None]> fs)) = fs.
Proof.
  intros Hnone. rewrite insert_insert_eq. apply delete_insert_id, Hnone.
Qed.

Ltac world_simpl :=
  unfold log, with_files, with_attrs; cbn [self_attrs tmpfiles trace].

(** Unfolds one utterance down to the calls of the model and the callback. *)
Ltac run_utterance :=
  unfold transcribe_utterance, bind, NamedTemporaryFile, wave_write,
    try_finally, try_except, model_transcribe, os_unlink, call, tell, pure;
  world_simpl; rewrite ?lookup_insert_eq.

Ltac end_utterance :=
  unfold after_utterance;
  world_simpl; rewrite ?lookup_insert_eq; world_simpl;
  rewrite temp_file_removed by apply temp_name_fresh;
  rewrite <- ?app_assoc; reflexivity.

(** [wave] cannot write the file: its error leaves the utterance, and the
    file that was made stays. *)
Lemma utterance_wave_fails self model callback frames w e :
  wave_error self frames = Some e ->
  transcribe_utterance self model callback frames w = (Exc e, wave_failed w).
Proof. intros Hwave. run_utterance. rewrite Hwave. reflexivity. Qed.

(** The model raises: the error is printed, the callback is not called. *)
Lemma utterance_model_raises self model callback frames w e :
  wave_error self frames = None ->
  model (wave_of self frames) = Exc e ->
  transcribe_utterance self model callback frames w =
  (Ret tt,
   after_utterance frames [Print (TranscriptionError e)] (self_attrs w) w).
Proof.
  intros Hwave Hmodel. run_utterance. rewrite Hwave. world_simpl.
  rewrite ?lookup_insert_eq, Hmodel. end_utterance.
Qed.

(** The text is empty once stripped: nothing is printed, nothing called. *)
Lemma utterance_empty_text self model callback frames w result :
  wave_error self frames = None ->
  model (wave_of self frames) = Ret result ->
  strip result = [] ->
  transcribe_utterance self model callback frames w =
  (Ret tt, after_utterance frames [] (self_attrs w) w).
Proof.
  intros Hwave Hmodel Hstrip. run_utterance. rewrite Hwave. world_simpl.
  rewrite ?lookup_insert_eq, Hmodel, Hstrip.
  cbn [truthy]. end_utterance.
Qed.

(** There is a text: the callback is called with it, and what it raises is
    printed like an error of the model. *)
Lemma utterance_callback self model callback frames w result r a :
  wave_error self frames = None ->
  model (wave_of self frames) = Ret result ->
  strip result <> [] ->
  callback (strip result) (self_attrs w) = (r, a) ->
  transcribe_utterance self model callback frames w =
  (Ret tt,
   after_utterance frames
     (took self ++ [Callback (strip result)] ++ reported r) a w).
Proof.
  intros Hwave Hmodel Hstrip Hcb. run_utterance. rewrite Hwave. world_simpl.
  rewrite ?lookup_insert_eq, Hmodel.
  destruct (strip result) as [|ch text] eqn:Htext; [congruence|].
  cbn [truthy]. unfold took.
  destruct (print_transcription_time self); world_simpl;
    rewrite Hcb; destruct r; cbn [reported]; end_utterance.
Qed.

(** ** Stripped text *)

Lemma lstrip_fixed (s : pystr) :
  lstrip s = s <-> s = [] \/ exists c s', s = c :: s' /\ py_isspace c = false.
Proof.
  split.
  - destruct s as [|c s']; [now left|]. intros H. right. exists c, s'.
    split; [reflexivity|]. simpl in H. destruct (py_isspace c) eqn:Hc; [|reflexivity].
    exfalso. clear Hc.
    assert (Hlen : forall t : pystr, (length (lstrip t) <= length t)%nat).
    { induction t as [|d t IH]; simpl; [lia|].
      destruct (py_isspace d); simpl; lia. }
    specialize (Hlen s'). rewrite H in Hlen. simpl in Hlen. lia.
  - intros [->|(c & s' & -> & Hc)]; [reflexivity|]. simpl. now rewrite Hc.
Qed.

Lemma lstrip_idempotent (s : pystr) : lstrip (lstrip s) = lstrip s.
Proof.
  induction s as [|c s IH]; [reflexivity|]. simpl.
  destruct (py_isspace c) eqn:Hc; [exact IH|]. simpl. now rewrite Hc.
Qed.

Lemma lstrip_snoc_nonspace (l : pystr) (c : N) :
  py_isspace c = false -> exists l', lstrip (l ++ [c]) = l' ++ [c].
Proof.
  intros Hc. induction l as [|d l IH]; simpl.
  - rewrite Hc. now exists [].
  - destruct (py_isspace d); [exact IH|]. now exists (d :: l).
Qed.

Lemma rstrip_idempotent (s : pystr) : rstrip (rstrip s) = rstrip s.
Proof. unfold rstrip. now rewrite rev_involutive, lstrip_idempotent. Qed.

Lemma rstrip_keeps_head (c : N) (s : pystr) :
  py_isspace c = false -> exists s', rstrip (c :: s) = c :: s'.
Proof.
  intros Hc. unfold rstrip. simpl rev.
  destruct (lstrip_snoc_nonspace (rev s) c Hc) as [l' ->].
  rewrite rev_app_distr. simpl. now exists (rev l').
Qed.

(** [strip] returns a text that [strip] leaves as it is. *)
Lemma strip_trimmed (s : pystr) : trimmed (strip s).
Proof.
  unfold trimmed, strip at 1.
  assert (Hl : lstrip (strip s) = strip s).
  { unfold strip. apply lstrip_fixed.
    destruct (lstrip s) as [|c u] eqn:Hu; [now left|]. right.
    assert (Hc : py_isspace c = false).
    { pose proof (lstrip_idempotent s) as Hi. rewrite Hu in Hi.
      apply lstrip_fixed in Hi. destruct Hi as [Hi|(c' & u' & Hi & Hc')];
        [discriminate|]. now inversion Hi; subst. }
    destruct (rstrip_keeps_head c u Hc) as [s' Hs']. exists c, s'. now split. }
  rewrite Hl. unfold strip. apply rstrip_idempotent.
Qed.

(** ** The inner loop *)

Lemma Qltb_inject_Z_floor (q : Q) (n : Z) :
  Qltb q (inject_Z n) = (Qfloor q <? n).
Proof.
  destruct (Z.ltb_spec (Qfloor q) n) as [Hlt|Hge].
  - apply Qltb_lt. apply Qlt_le_trans with (inject_Z (Qfloor q + 1)).
    + apply Qlt_floor.
    + rewrite <- Zle_Qle. lia.
  - apply Qltb_ge. apply Qle_trans with (inject_Z (Qfloor q)).
    + rewrite <- Zle_Qle. exact Hge.
    + apply Qfloor_le.
Qed.

(** When the limit is a number the test [silence_count > ...] compares the
    count with that number. *)
Lemma enough_silence_ratio (self : SimpleAudioRecorder) (n : Z) :
  finite_limit self = true ->
  enough_silence self n = Ret (Qltb (silence_ratio self) (inject_Z n)).
Proof.
  unfold finite_limit, enough_silence, silence_ratio.
  destruct (silence_limit self) as [limit|e]; [|discriminate].
  cbn [mbind res_bind]. unfold finite, py_int_gt_float, float_Q.
  destruct (Prim2SF limit); (discriminate || reflexivity).
Qed.

(** It holds from one above the floor of the ratio. *)
Lemma enough_silence_floor (self : SimpleAudioRecorder) (n : Z) :
  finite_limit self = true ->
  enough_silence self n = Ret (Qfloor (silence_ratio self) <? n).
Proof.
  intros Hc. rewrite enough_silence_ratio by exact Hc. f_equal.
  apply Qltb_inject_Z_floor.
Qed.

Lemma enough_silence_break (self : SimpleAudioRecorder) (n : Z) :
  finite_limit self = true -> 1 <= n ->
  enough_silence self n = Ret (frames_to_break self <=? n).
Proof.
  intros Hc Hn. rewrite enough_silence_floor by exact Hc. f_equal.
  unfold frames_to_break.
  destruct (Z.ltb_spec (Qfloor (silence_ratio self)) n);
    destruct (Z.leb_spec (Z.max 1 (Qfloor (silence_ratio self) + 1)) n);
    try reflexivity; lia.
Qed.

Section Listen.

Context (self : SimpleAudioRecorder).

(** Silence before any speech is read and dropped. *)
Lemma listen_leading (lead : list chunk) (rest : list input) (c : capture)
    (w : world) :
  is_recording (self_attrs w) = true ->
  speech_detected c = false ->
  Forall (silent self) lead ->
  listen self (map Read lead ++ rest) c w = listen self rest c w.
Proof.
  intros Hrec Hc. induction 1 as [|d lead Hd _ IH]; [reflexivity|].
  cbn [map app listen]. rewrite Hrec, Hd, Hc. exact IH.
Qed.

(** A chunk of speech is appended and resets the count. *)
Lemma listen_speech_one (d : chunk) (rest : list input) (c : capture)
    (w : world) :
  is_recording (self_attrs w) = true ->
  speech self d ->
  listen self (Read d :: rest) c w =
  listen self rest
    {| frames := frames c ++ [d]; silence_count := 0; speech_detected := true |}
    (if speech_detected c then w else log (Print SpeechDetected) w).
Proof. intros Hrec Hd. cbn [listen]. now rewrite Hrec, Hd. Qed.

Lemma listen_speech (sp : list chunk) (rest : list input) (fs : list chunk)
    (w : world) :
  is_recording (self_attrs w) = true ->
  Forall (speech self) sp ->
  listen self (map Read sp ++ rest)
    {| frames := fs; silence_count := 0; speech_detected := true |} w =
  listen self rest
    {| frames := fs ++ sp; silence_count := 0; speech_detected := true |} w.
Proof.
  intros Hrec Hsp. revert fs.
  induction Hsp as [|d sp Hd _ IH]; intros fs.
  - now rewrite app_nil_r.
  - cbn [map app]. rewrite listen_speech_one by assumption.
    cbn [frames speech_detected]. rewrite IH, <- app_assoc. reflexivity.
Qed.

(** Silence after speech is appended and counted, as long as the count
    stays below [frames_to_break]. *)
Lemma listen_trailing (tr : list chunk) (rest : list input) (fs : list chunk)
    (n : Z) (w : world) :
  finite_limit self = true ->
  is_recording (self_attrs w) = true ->
  0 <= n ->
  Forall (silent self) tr ->
  n + Z.of_nat (length tr) < frames_to_break self ->
  listen self (map Read tr ++ rest)
    {| frames := fs; silence_count := n; speech_detected := true |} w =
  listen self rest
    {| frames := fs ++ tr; silence_count := n + Z.of_nat (length tr);
       speech_detected := true |} w.
Proof.
  intros Hc Hrec Hn Htr. revert fs n Hn.
  induction Htr as [|d tr Hd _ IH]; intros fs n Hn Hlt.
  - cbn [map app length]. now rewrite app_nil_r, Z.add_0_r.
  - cbn [map app listen]. rewrite Hrec, Hd.
    cbn [speech_detected silence_count frames].
    rewrite enough_silence_break by (assumption || lia).
    simpl length in Hlt.
    destruct (Z.leb_spec (frames_to_break self) (n + 1)) as [Hle|_]; [lia|].
    rewrite IH by lia. rewrite <- app_assoc. simpl length.
    do 2 f_equal. lia.
Qed.

(** The silent chunk that brings the count to [frames_to_break] is
    appended, and the loop is left. *)
Lemma listen_break (d : chunk) (rest : list input) (fs : list chunk) (n : Z)
    (w : world) :
  finite_limit self = true ->
  is_recording (self_attrs w) = true ->
  0 <= n ->
  silent self d ->
  frames_to_break self <= n + 1 ->
  listen self (Read d :: rest)
    {| frames := fs; silence_count := n; speech_detected := true |} w =
  Exited rest
    {| frames := fs ++ [d]; silence_count := n + 1; speech_detected := true |}
    w.
Proof.
  intros Hc Hrec Hn Hd Hle. cbn [listen]. rewrite Hrec, Hd.
  cbn [speech_detected silence_count frames].
  rewrite enough_silence_break by (assumption || lia).
  destruct (Z.leb_spec (frames_to_break self) (n + 1)); [reflexivity|lia].
Qed.

End Listen.

(** ** Utterances of the shape silence, speech, silence *)

Lemma frames_to_break_pos (self : SimpleAudioRecorder) :
  1 <= frames_to_break self.
Proof. unfold frames_to_break. lia. Qed.

Section Shape.

Context (self : SimpleAudioRecorder).
Context (lead sp tr : list chunk).
Hypothesis lead_silent : Forall (silent self) lead.
Hypothesis sp_speech : Forall (speech self) sp.
Hypothesis sp_nonempty : sp <> [].
Hypothesis tr_silent : Forall (silent self) tr.

(** While the trailing silence is shorter than [frames_to_break] the loop
    keeps the speech and the silence after it and goes on. *)
Lemma listen_capturing (rest : list input) (w : world) :
  (tr = [] \/ finite_limit self = true) ->
  is_recording (self_attrs w) = true ->
  Z.of_nat (length tr) < frames_to_break self ->
  listen self (map Read (lead ++ sp ++ tr) ++ rest) no_capture w =
  listen self rest
    {| frames := sp ++ tr; silence_count := Z.of_nat (length tr);
       speech_detected := true |}
    (log (Print SpeechDetected) w).
Proof.
  intros Hc Hrec Hlt.
  rewrite !map_app, <- !app_assoc.
  rewrite listen_leading by (assumption || reflexivity).
  destruct sp as [|d sp']; [congruence|].
  inversion sp_speech as [|? ? Hd Hsp']; subst.
  cbn [map app]. rewrite listen_speech_one by assumption.
  cbn [no_capture speech_detected frames app].
  rewrite listen_speech by assumption.
  destruct Hc as [->|Hc].
  - cbn [map app length]. now rewrite app_nil_r.
  - rewrite listen_trailing by (assumption || lia). reflexivity.
Qed.

(** At [frames_to_break] silent chunks the loop is left with the speech
    and exactly that much silence. *)
Lemma listen_utterance (rest : list input) (w : world) :
  finite_limit self = true ->
  is_recording (self_attrs w) = true ->
  Z.of_nat (length tr) = frames_to_break self ->
  listen self (map Read (lead ++ sp ++ tr) ++ rest) no_capture w =
  Exited rest
    {| frames := sp ++ tr; silence_count := frames_to_break self;
       speech_detected := true |}
    (log (Print SpeechDetected) w).
Proof.
  intros Hc Hrec Hlen.
  pose proof (frames_to_break_pos self) as Hpos.
  destruct (exists_last (l := tr)) as (tr' & d & Htr).
  { intros ->. simpl in Hlen. lia. }
  rewrite Htr in *. rewrite length_app in Hlen. simpl length in Hlen.
  apply Forall_app in tr_silent as [Htr' Hd].
  inversion Hd as [|? ? Hd' _]; subst.
  rewrite !map_app, <- !app_assoc.
  rewrite listen_leading by (assumption || reflexivity).
  destruct sp as [|s sp']; [congruence|].
  inversion sp_speech as [|? ? Hs Hsp']; subst.
  cbn [map app]. rewrite listen_speech_one by assumption.
  cbn [no_capture speech_detected frames app].
  rewrite listen_speech by assumption.
  rewrite listen_trailing by (assumption || lia).
  rewrite listen_break by (assumption || lia).
  rewrite <- !app_assoc. do 2 f_equal. lia.
Qed.

End Shape.

(** ** The outer loop *)

Lemma pending_reads (cs : list chunk) (rest : list input) (w : world) :
  cs <> [] -> pending (map Read cs ++ rest) w = (map Read cs ++ rest, w).
Proof. destruct cs; [congruence|reflexivity]. Qed.

Lemma pending_only_reads (cs : list chunk) (w : world) :
  pending (map Read cs) w = (map Read cs, w).
Proof. destruct cs; reflexivity. Qed.

Lemma pending_length (stream stream' : list input) (w w' : world) :
  pending stream w = (stream', w') -> (length stream' <= length stream)%nat.
Proof.
  revert w. induction stream as [|[d|b] stream IH]; intros w H; simpl in H.
  - inversion H; subst. reflexivity.
  - inversion H; subst. reflexivity.
  - apply IH in H. simpl. lia.
Qed.

(** After [pending] the input is empty or starts with a read. *)
Lemma pending_settled (stream stream' : list input) (w w' : world) :
  pending stream w = (stream', w') ->
  stream' = [] \/ exists d s, stream' = Read d :: s.
Proof.
  revert w. induction stream as [|[d|b] stream IH]; intros w H; simpl in H.
  - inversion H; subst. now left.
  - inversion H; subst. right. now exists d, stream.
  - eapply IH, H.
Qed.

Lemma listen_exits_no_longer self stream c w rest c' w' :
  listen self stream c w = Exited rest c' w' ->
  (length rest <= length stream)%nat.
Proof.
  revert c w. induction stream as [|[d|b] stream IH]; intros c w H;
    cbn [listen] in H.
  - destruct (is_recording (self_attrs w)); inversion H; subst. reflexivity.
  - destruct (is_recording (self_attrs w));
      [|inversion H; subst; reflexivity].
    destruct (_is_silence self d) as [[|]|e]; [| |discriminate].
    + destruct (speech_detected c).
      * destruct (enough_silence self _) as [[|]|e]; [| |discriminate].
        -- inversion H; subst. simpl. lia.
        -- apply IH in H. simpl. lia.
      * apply IH in H. simpl. lia.
    + apply IH in H. simpl. lia.
  - apply IH in H. simpl. lia.
Qed.

(** A pass of the inner loop that starts while recording reads at least
    one chunk before it is left. *)
Lemma listen_exits_shorter self d stream c w rest c' w' :
  is_recording (self_attrs w) = true ->
  listen self (Read d :: stream) c w = Exited rest c' w' ->
  (length rest <= length stream)%nat.
Proof.
  intros Hrec H. cbn [listen] in H. rewrite Hrec in H.
  destruct (_is_silence self d) as [[|]|e]; [| |discriminate].
  - destruct (speech_detected c).
    + destruct (enough_silence self _) as [[|]|e]; [| |discriminate].
      * inversion H; subst. reflexivity.
      * eapply listen_exits_no_longer, H.
    + eapply listen_exits_no_longer, H.
  - eapply listen_exits_no_longer, H.
Qed.

(** One utterance returns when [wave] can write the file: nothing else it
    does raises past its handlers. *)
Lemma utterance_returns self model callback fs w :
  wave_error self fs = None ->
  exists mid a,
    transcribe_utterance self model callback fs w
    = (Ret tt, after_utterance fs mid a w).
Proof.
  intros Hwave.
  destruct (model (wave_of self fs)) as [result|e] eqn:Hmodel.
  - destruct (strip result) as [|ch text] eqn:Hstrip.
    + eexists _, _. eapply utterance_empty_text; eassumption.
    + destruct (callback (strip result) (self_attrs w)) as [r a] eqn:Hcb.
      eexists _, _. eapply utterance_callback; [eassumption..| |eassumption].
      rewrite Hstrip. discriminate.
  - eexists _, _. eapply utterance_model_raises; eassumption.
Qed.

(** What it raises is the error of [wave], with the file left behind. *)
Lemma utterance_raises self model callback fs w e w' :
  transcribe_utterance self model callback fs w = (Exc e, w') ->
  wave_error self fs = Some e /\ w' = wave_failed w.
Proof.
  intros H. destruct (wave_error self fs) as [e'|] eqn:Hwave.
  - rewrite (utterance_wave_fails _ _ _ _ _ _ Hwave) in H.
    inversion H; subst. auto.
  - destruct (utterance_returns self model callback fs w Hwave)
      as (mid & a & Hu). rewrite Hu in H. discriminate H.
Qed.

Section Fuel.

Context (self : SimpleAudioRecorder) (model : wav -> res pystr)
        (callback : pystr -> attrs -> res unit * attrs).

(** More fuel than the input is long is enough, and then the amount does
    not matter. *)
Lemma record_loop_fuel (n m : nat) (stream : list input) (w : world) :
  (length stream < n)%nat -> (length stream < m)%nat ->
  record_loop n self model callback stream w
  = record_loop m self model callback stream w.
Proof.
  revert m stream w. induction n as [|n IH]; intros m stream w Hn Hm; [lia|].
  destruct m as [|m]; [lia|]. cbn [record_loop].
  destruct (pending stream w) as [stream1 w1] eqn:Hp.
  pose proof (pending_length _ _ _ _ Hp) as Hlen.
  destruct (is_recording (self_attrs w1)) eqn:Hrec; [|reflexivity].
  destruct (pending_settled _ _ _ _ Hp) as [->|(d & s & ->)].
  - cbn [listen]. now rewrite Hrec.
  - destruct (listen self (Read d :: s) no_capture w1) as [rest c w2|c w2|e w2]
      eqn:Hl; [|reflexivity|reflexivity].
    pose proof (listen_exits_shorter _ _ _ _ _ _ _ _ Hrec Hl) as Hrest.
    simpl length in Hlen.
    destruct (truthy (frames c) && speech_detected c).
    + destruct (transcribe_utterance self model callback (frames c) w2)
        as [[[]|e] w3]; [|reflexivity].
      apply IH; lia.
    + apply IH; lia.
Qed.

Lemma record_loop_total (n : nat) (stream : list input) (w : world) :
  (length stream < n)%nat ->
  record_loop n self model callback stream w <> OutOfFuel.
Proof.
  revert stream w. induction n as [|n IH]; intros stream w Hn; [lia|].
  cbn [record_loop].
  destruct (pending stream w) as [stream1 w1] eqn:Hp.
  pose proof (pending_length _ _ _ _ Hp) as Hlen.
  destruct (is_recording (self_attrs w1)) eqn:Hrec; [|discriminate].
  destruct (pending_settled _ _ _ _ Hp) as [->|(d & s & ->)].
  - cbn [listen]. rewrite Hrec. discriminate.
  - destruct (listen self (Read d :: s) no_capture w1) as [rest c w2|c w2|e w2]
      eqn:Hl; [|discriminate|discriminate].
    pose proof (listen_exits_shorter _ _ _ _ _ _ _ _ Hrec Hl) as Hrest.
    simpl length in Hlen.
    destruct (truthy (frames c) && speech_detected c).
    + destruct (transcribe_utterance self model callback (frames c) w2)
        as [[[]|e] w3]; [|discriminate].
      apply IH; lia.
    + apply IH; lia.
Qed.

(** [_record_audio] always comes to a result: it returns, it waits in
    [stream.read] at the end of the input, or it raises. *)
Lemma record_audio_total (stream : list input) (w : world) :
  exists w', final_world (_record_audio self model callback stream w) = Some w'.
Proof.
  unfold _record_audio.
  pose proof (record_loop_total (S (length stream)) stream
                (log (Print ListeningForSpeech) (log StreamOpen w))
                (Nat.lt_succ_diag_r _)) as H.
  destruct (record_loop _ _ _ _ _ _) as [w'|c w'|e w'|];
    [now exists w'..|congruence].
Qed.

End Fuel.

(** ** What the trace of a run shows *)

Lemma utterances_app (a b : list event) :
  utterances (a ++ b) = utterances a ++ utterances b.
Proof.
  induction a as [|ev a IH]; [reflexivity|].
  destruct ev; cbn [app utterances]; rewrite IH; reflexivity.
Qed.

Lemma callbacks_app (a b : list event) :
  callbacks (a ++ b) = callbacks a ++ callbacks b.
Proof.
  induction a as [|ev a IH]; [reflexivity|].
  destruct ev; cbn [app callbacks]; rewrite IH; reflexivity.
Qed.

(** One utterance that returns writes its buffer once, calls the callback
    at most once, and leaves the temporary files as they were. *)
Lemma utterance_shows self model callback fs w w' :
  transcribe_utterance self model callback fs w = (Ret tt, w') ->
  wave_error self fs = None
  /\ utterances (trace w') = utterances (trace w) ++ [fs]
  /\ callbacks (trace w') =
     callbacks (trace w) ++ texts_of (model (wave_of self fs))
  /\ tmpfiles w' = tmpfiles w.
Proof.
  intros H.
  destruct (wave_error self fs) as [e'|] eqn:Hwave.
  { rewrite (utterance_wave_fails _ _ _ _ _ _ Hwave) in H. discriminate H. }
  split; [reflexivity|].
  destruct (model (wave_of self fs)) as [result|e] eqn:Hmodel.
  - destruct (strip result) as [|ch text] eqn:Hstrip.
    + rewrite (utterance_empty_text _ _ _ _ _ _ Hwave Hmodel Hstrip) in H.
      inversion H; subst; clear H.
      cbn [after_utterance trace tmpfiles texts_of].
      rewrite Hstrip, utterances_app, callbacks_app. cbn.
      rewrite app_nil_r. auto.
    + destruct (callback (strip result) (self_attrs w)) as [rc a] eqn:Hcb.
      assert (Hne : strip result <> []) by (rewrite Hstrip; discriminate).
      rewrite (utterance_callback _ _ _ _ _ _ _ _ Hwave Hmodel Hne Hcb) in H.
      inversion H; subst; clear H.
      cbn [after_utterance trace tmpfiles texts_of].
      rewrite Hstrip, utterances_app, callbacks_app. unfold took.
      destruct (print_transcription_time self), rc; cbn; auto.
  - rewrite (utterance_model_raises _ _ _ _ _ _ Hwave Hmodel) in H.
    inversion H; subst; clear H.
    cbn [after_utterance trace tmpfiles texts_of].
    rewrite utterances_app, callbacks_app. cbn. rewrite app_nil_r. auto.
Qed.

Lemma wave_failed_utterances (w : world) :
  utterances (trace (wave_failed w)) = utterances (trace w).
Proof.
  unfold wave_failed, log. cbn [trace with_files].
  rewrite utterances_app. cbn. now rewrite app_nil_r.
Qed.

Lemma wave_failed_callbacks (w : world) :
  callbacks (trace (wave_failed w)) = callbacks (trace w).
Proof.
  unfold wave_failed, log. cbn [trace with_files].
  rewrite callbacks_app. cbn. now rewrite app_nil_r.
Qed.

Section Runs.

Context (self : SimpleAudioRecorder) (model : wav -> res pystr)
        (callback : pystr -> attrs -> res unit * attrs).

(** One turn of the outer loop that ends with an utterance. *)
Lemma record_loop_step fuel stream w stream1 w0 rest c w1 w2 :
  pending stream w = (stream1, w0) ->
  is_recording (self_attrs w0) = true ->
  listen self stream1 no_capture w0 = Exited rest c w1 ->
  truthy (frames c) && speech_detected c = true ->
  transcribe_utterance self model callback (frames c) w1 = (Ret tt, w2) ->
  record_loop (S fuel) self model callback stream w
  = record_loop fuel self model callback rest w2.
Proof.
  intros Hp Hrec Hl Hc Hu. cbn [record_loop].
  rewrite Hp, Hrec, Hl, Hc, Hu. reflexivity.
Qed.

(** Over silence alone the loop reads on to the end of the input, or
    returns when the flag is cleared; it prints nothing more. *)
Lemma record_loop_over_silence fuel (cs : list chunk) (w : world) :
  Forall (silent self) cs ->
  record_loop (S fuel) self model callback (map Read cs) w
  = if is_recording (self_attrs w) then Reading no_capture w
    else Returned (log StreamClose (log StreamStop w)).
Proof.
  intros Hcs. cbn [record_loop]. rewrite pending_only_reads.
  destruct (is_recording (self_attrs w)) eqn:Hrec; [|reflexivity].
  rewrite <- (app_nil_r (map Read cs)).
  rewrite listen_leading by (assumption || reflexivity).
  cbn [listen]. rewrite Hrec. reflexivity.
Qed.

(** Over silence alone the loop writes nothing and calls nothing. *)
Lemma record_loop_silence fuel (cs : list chunk) (w : world) :
  Forall (silent self) cs ->
  exists w',
    final_world (record_loop (S fuel) self model callback (map Read cs) w)
    = Some w'
    /\ utterances (trace w') = utterances (trace w)
    /\ callbacks (trace w') = callbacks (trace w).
Proof.
  intros Hcs. rewrite record_loop_over_silence by exact Hcs.
  destruct (is_recording (self_attrs w)).
  - now exists w.
  - eexists. split; [reflexivity|]. unfold log. cbn [trace].
    rewrite !utterances_app, !callbacks_app. cbn. now rewrite !app_nil_r.
Qed.

End Runs.

(** ** Runs of [_record_audio] over one utterance *)

Lemma opened_attrs (w : world) : self_attrs (opened w) = self_attrs w.
Proof. reflexivity. Qed.

Lemma opened_utterances (w : world) :
  utterances (trace (opened w)) = utterances (trace w).
Proof.
  unfold opened, log. cbn [trace]. rewrite !utterances_app. cbn.
  now rewrite !app_nil_r.
Qed.

Lemma opened_callbacks (w : world) :
  callbacks (trace (opened w)) = callbacks (trace w).
Proof.
  unfold opened, log. cbn [trace]. rewrite !callbacks_app. cbn.
  now rewrite !app_nil_r.
Qed.

Lemma detected_utterances (w : world) :
  utterances (trace (log (Print SpeechDetected) w)) = utterances (trace w).
Proof.
  unfold log. cbn [trace]. rewrite utterances_app. cbn. now rewrite app_nil_r.
Qed.

Lemma detected_callbacks (w : world) :
  callbacks (trace (log (Print SpeechDetected) w)) = callbacks (trace w).
Proof.
  unfold log. cbn [trace]. rewrite callbacks_app. cbn. now rewrite app_nil_r.
Qed.

Section OneUtterance.

Context (self : SimpleAudioRecorder) (model : wav -> res pystr)
        (callback : pystr -> attrs -> res unit * attrs).
Context (lead sp tr : list chunk).
Hypothesis lead_silent : Forall (silent self) lead.
Hypothesis sp_speech : Forall (speech self) sp.
Hypothesis sp_nonempty : sp <> [].
Hypothesis tr_silent : Forall (silent self) tr.

Lemma shape_nonempty : lead ++ sp ++ tr <> [].
Proof. destruct lead, sp; simpl; congruence. Qed.

(** Fewer silent chunks than [frames_to_break] after the speech: the loop
    has written nothing and waits for the next chunk with the speech and
    the silence in hand. *)
Lemma record_audio_capturing (w : world) :
  (tr = [] \/ finite_limit self = true) ->
  is_recording (self_attrs w) = true ->
  Z.of_nat (length tr) < frames_to_break self ->
  _record_audio self model callback (map Read (lead ++ sp ++ tr)) w =
  Reading
    {| frames := sp ++ tr; silence_count := Z.of_nat (length tr);
       speech_detected := true |}
    (log (Print SpeechDetected) (opened w)).
Proof.
  intros Hc Hrec Hlt. unfold _record_audio. fold (opened w).
  cbn [record_loop].
  rewrite <- (app_nil_r (map Read (lead ++ sp ++ tr))).
  rewrite pending_reads by apply shape_nonempty.
  rewrite opened_attrs, Hrec.
  rewrite (listen_capturing self lead sp tr) by assumption.
  cbn [listen]. unfold log at 1. cbn [self_attrs].
  rewrite opened_attrs, Hrec. reflexivity.
Qed.

(** One turn of the outer loop over an utterance, with fuel to spare. *)
Lemma record_loop_utterance fuel (rest : list input) (w : world) :
  finite_limit self = true ->
  wave_error self (sp ++ tr) = None ->
  is_recording (self_attrs w) = true ->
  Z.of_nat (length tr) = frames_to_break self ->
  exists w',
    transcribe_utterance self model callback (sp ++ tr)
      (log (Print SpeechDetected) w) = (Ret tt, w')
    /\ record_loop (S fuel) self model callback
         (map Read (lead ++ sp ++ tr) ++ rest) w
       = record_loop fuel self model callback rest w'.
Proof.
  intros Hc Hwave Hrec Hlen.
  destruct (utterance_returns self model callback (sp ++ tr)
              (log (Print SpeechDetected) w) Hwave) as (mid & a & Hu).
  eexists. split; [exact Hu|].
  eapply (record_loop_step self model callback _ _ _ _ _ rest
            {| frames := sp ++ tr; silence_count := frames_to_break self;
               speech_detected := true |}).
  - apply pending_reads, shape_nonempty.
  - exact Hrec.
  - apply (listen_utterance self lead sp tr); assumption.
  - cbn [frames speech_detected]. destruct sp; [congruence|reflexivity].
  - exact Hu.
Qed.

(** Exactly [frames_to_break] silent chunks after the speech: the buffer
    goes to the model, and the loop goes on with the rest of the input. *)
Lemma record_audio_utterance (rest : list input) (w : world) :
  finite_limit self = true ->
  wave_error self (sp ++ tr) = None ->
  is_recording (self_attrs w) = true ->
  Z.of_nat (length tr) = frames_to_break self ->
  exists w',
    transcribe_utterance self model callback (sp ++ tr)
      (log (Print SpeechDetected) (opened w)) = (Ret tt, w')
    /\ _record_audio self model callback (map Read (lead ++ sp ++ tr) ++ rest) w
       = record_loop (S (length rest)) self model callback rest w'.
Proof.
  intros Hc Hwave Hrec Hlen.
  destruct (record_loop_utterance
              (length (map Read (lead ++ sp ++ tr) ++ rest)) rest (opened w)
              Hc Hwave Hrec Hlen) as (w' & Hu & Hrun).
  exists w'. split; [exact Hu|].
  unfold _record_audio. fold (opened w). rewrite Hrun.
  apply record_loop_fuel; [|lia].
  rewrite length_app, length_map.
  pose proof shape_nonempty as Hne.
  destruct (lead ++ sp ++ tr); [congruence|]. simpl. lia.
Qed.

(** The flag is cleared by another thread while the trailing silence is
    still shorter than [frames_to_break]: the buffer goes to the model all
    the same. *)
Lemma record_audio_stopped (w : world) :
  (tr = [] \/ finite_limit self = true) ->
  wave_error self (sp ++ tr) = None ->
  is_recording (self_attrs w) = true ->
  Z.of_nat (length tr) < frames_to_break self ->
  exists w',
    transcribe_utterance self model callback (sp ++ tr)
      (assigned false (log (Print SpeechDetected) (opened w))) = (Ret tt, w')
    /\ _record_audio self model callback
         (map Read (lead ++ sp ++ tr) ++ [Assign false]) w
       = record_loop 1 self model callback [] w'.
Proof.
  intros Hc Hwave Hrec Hlt.
  destruct (utterance_returns self model callback (sp ++ tr)
              (assigned false (log (Print SpeechDetected) (opened w))) Hwave)
    as (mid & a & Hu).
  eexists. split; [exact Hu|].
  unfold _record_audio. fold (opened w).
  etransitivity;
    [eapply (record_loop_step self model callback _ _ _ _ _ []
               {| frames := sp ++ tr; silence_count := Z.of_nat (length tr);
                  speech_detected := true |}
               (assigned false (log (Print SpeechDetected) (opened w))))|].
  - apply pending_reads, shape_nonempty.
  - now rewrite opened_attrs.
  - rewrite (listen_capturing self lead sp tr) by assumption.
    reflexivity.
  - cbn [frames speech_detected]. destruct sp; [congruence|reflexivity].
  - exact Hu.
  - apply record_loop_fuel; simpl; [|lia].
    rewrite length_app. simpl. lia.
Qed.

End OneUtterance.

(** ** The silence count that ends an utterance *)

Lemma Qfloor_le_Qceiling (q : Q) : Qfloor q <= Qceiling q.
Proof.
  rewrite Zle_Qle. apply Qle_trans with q; [apply Qfloor_le|apply Qle_ceiling].
Qed.

Lemma Qceiling_le_succ_Qfloor (q : Q) : Qceiling q <= Qfloor q + 1.
Proof.
  assert (H : Qceiling q - 1 < Qfloor q + 1).
  { rewrite Zlt_Qlt. apply Qlt_trans with q; [apply Qceiling_lt|apply Qlt_floor]. }
  lia.
Qed.

(** The ceiling is the floor for an integer and one more otherwise. *)
Lemma Qceiling_cases (q : Q) :
  Qceiling q = if Qeq_bool q (inject_Z (Qfloor q)) then Qfloor q
               else Qfloor q + 1.
Proof.
  pose proof (Qfloor_le_Qceiling q) as Hlo.
  pose proof (Qceiling_le_succ_Qfloor q) as Hhi.
  destruct (Qeq_bool q (inject_Z (Qfloor q))) eqn:Hint.
  - apply Qeq_bool_iff in Hint.
    assert (H : Qceiling q - 1 < Qfloor q).
    { rewrite Zlt_Qlt, <- Hint. apply Qceiling_lt. }
    lia.
  - apply Qeq_bool_neq in Hint.
    assert (H : Qfloor q < Qceiling q).
    { rewrite Zlt_Qlt. apply Qlt_le_trans with q; [|apply Qle_ceiling].
      pose proof (Qfloor_le q) as Hle. apply Qle_lteq in Hle.
      destruct Hle as [Hlt|Heq]; [exact Hlt|]. exfalso. apply Hint.
      symmetry. exact Heq. }
    lia.
Qed.

(** The count that ends an utterance is the silence-frame-count of the
    glossary when the ratio is not an integer, and one more when it is. *)
Lemma frames_to_break_vs_count (self : SimpleAudioRecorder) :
  (0 <= silence_ratio self)%Q ->
  frames_to_break self =
  if Qeq_bool (silence_ratio self) (inject_Z (Qfloor (silence_ratio self)))
  then silence_frame_count self + 1
  else silence_frame_count self.
Proof.
  intros Hpos. unfold frames_to_break, silence_frame_count.
  rewrite Qceiling_cases.
  assert (H0 : 0 <= Qfloor (silence_ratio self)).
  { change 0 with (Qfloor (inject_Z 0)). apply Qfloor_resp_le. exact Hpos. }
  destruct (Qeq_bool _ _); lia.
Qed.

Lemma frames_to_break_le_count (self : SimpleAudioRecorder) (k : Z) :
  silence_frame_count self < k -> 1 <= k -> frames_to_break self <= k.
Proof.
  intros Hk H1. unfold frames_to_break, silence_frame_count in *.
  pose proof (Qfloor_le_Qceiling (silence_ratio self)). lia.
Qed.

(** The limit of a recorder is that of its three numbers. *)
Lemma silence_limit_of (self : SimpleAudioRecorder) (size rate : Z)
    (duration : float) :
  chunk_size self = size -> sample_rate self = rate ->
  silence_duration self = duration ->
  silence_limit self
  = (samples ← py_float_mul_int duration rate;
     py_float_truediv_int samples size).
Proof. intros <- <- <-. reflexivity. Qed.

Lemma frames_to_break_2s_16k_1024 (self : SimpleAudioRecorder) :
  chunk_size self = 1024 -> sample_rate self = 16000 ->
  silence_duration self = 2%float ->
  silence_limit self = Ret 31.25%float
  /\ finite_limit self = true /\ frames_to_break self = 32.
Proof.
  intros Hc Hr Hd.
  assert (H : silence_limit self = Ret 31.25%float).
  { rewrite (silence_limit_of self _ _ _ Hc Hr Hd). vm_compute. reflexivity. }
  split; [exact H|].
  unfold finite_limit, frames_to_break, silence_ratio. rewrite H.
  split; vm_compute; reflexivity.
Qed.

(** The limit is rounded.  For [silence_duration = 0.3],
    [sample_rate = 16000] and [chunk_size = 4800] the ratio of the three
    numbers is below 1, the limit the code computes is 1.0, and the
    utterance ends at the second silent chunk, not at the first; for 2.01
    and chunks of 160 samples the limit is below 201 and the utterance ends
    at chunk 201. *)
Lemma limit_is_rounded :
  (exact_ratio (with_duration 0.3 4800 default_recorder) < 1)%Q
  /\ silence_limit (with_duration 0.3 4800 default_recorder) = Ret 1%float
  /\ frames_to_break (with_duration 0.3 4800 default_recorder) = 2
  /\ silence_limit (with_duration 2.01 160 default_recorder)
     = Ret 200.99999999999997%float
  /\ frames_to_break (with_duration 2.01 160 default_recorder) = 201.
Proof. repeat split; vm_compute; reflexivity. Qed.

(** ** The segmenter *)

Section Segmenter.

Context (self : SimpleAudioRecorder) (model : wav -> res pystr)
        (callback : pystr -> attrs -> res unit * attrs).

(** After the utterance the loop meets silence only: the run has written
    the one buffer and called the callback for it alone. *)
Lemma record_audio_one_utterance (lead sp tr more : list chunk) (w : world) :
  Forall (silent self) lead -> Forall (speech self) sp -> sp <> [] ->
  Forall (silent self) tr -> Forall (silent self) more ->
  finite_limit self = true ->
  wave_error self (sp ++ tr) = None ->
  is_recording (self_attrs w) = true ->
  Z.of_nat (length tr) = frames_to_break self ->
  exists w',
    final_world (_record_audio self model callback
                   (map Read (lead ++ sp ++ tr ++ more)) w) = Some w'
    /\ utterances (trace w') = utterances (trace w) ++ [sp ++ tr]
    /\ callbacks (trace w') =
       callbacks (trace w) ++ texts_of (model (wave_of self (sp ++ tr))).
Proof.
  intros Hlead Hsp Hne Htr Hmore Hc Hwave Hrec Hlen.
  destruct (record_audio_utterance self model callback lead sp tr
              Hlead Hsp Hne Htr (map Read more) w Hc Hwave Hrec Hlen)
    as (w1 & Hu & Hrun).
  replace (map Read (lead ++ sp ++ tr ++ more))
    with (map Read (lead ++ sp ++ tr) ++ map Read more)
    by (rewrite <- map_app, <- !app_assoc; reflexivity).
  rewrite Hrun.
  destruct (record_loop_silence self model callback (length (map Read more))
              more w1 Hmore) as (w' & Hfin & Hut & Hcb).
  exists w'. split; [exact Hfin|].
  apply utterance_shows in Hu. destruct Hu as (_ & Hu1 & Hu2 & _).
  rewrite Hut, Hcb, Hu1, Hu2, detected_utterances, detected_callbacks,
    opened_utterances, opened_callbacks. auto.
Qed.

End Segmenter.

(** C5: with [sample_rate = 16000], [chunk_size = 1024] and
    [silence_duration = 2.0], one speech frame followed by 32 silent
    frames makes the segmenter write exactly one utterance buffer, of
    exactly these 33 frames, when [wave] can write them; after the speech
    frame and only the first 31 silent frames nothing has been written and
    the loop waits for the next frame. *)
Theorem speech_then_32_silent_frames
    (self : SimpleAudioRecorder) (model : wav -> res pystr)
    (callback : pystr -> attrs -> res unit * attrs) (w : world)
    (s : chunk) (sil : list chunk) :
  chunk_size self = 1024 -> sample_rate self = 16000 ->
  silence_duration self = 2%float ->
  wave_error self (s :: sil) = None ->
  is_recording (self_attrs w) = true ->
  speech self s -> Forall (silent self) sil -> length sil = 32%nat ->
  written (_record_audio self model callback (map Read (s :: sil)) w)
  = utterances (trace w) ++ [s :: sil]
  /\ length (s :: sil) = 33%nat
  /\ exists c w',
       _record_audio self model callback (map Read (s :: take 31 sil)) w
       = Reading c w'
       /\ frames c = s :: take 31 sil
       /\ utterances (trace w') = utterances (trace w).
Proof.
  intros Hc Hr Hd Hwave Hrec Hs Hsil Hlen.
  destruct (frames_to_break_2s_16k_1024 self Hc Hr Hd)
    as (_ & Hfin & Hbreak).
  split; [|split].
  - destruct (record_audio_one_utterance self model callback [] [s] sil [] w)
      as (w' & Hfin' & Hut & _); auto; try discriminate; try lia.
    rewrite app_nil_r in Hfin'. cbn [app] in Hfin'.
    unfold written. rewrite Hfin'. exact Hut.
  - simpl. lia.
  - eexists _, _. split; [|split].
    + apply (record_audio_capturing self model callback [] [s] (take 31 sil));
        auto using Forall_take; try discriminate.
      rewrite length_take. lia.
    + reflexivity.
    + rewrite detected_utterances, opened_utterances. reflexivity.
Qed.

Lemma quiet_is_silent (n : nat) :
  Forall (silent default_recorder) (repeat quiet n).
Proof.
  induction n as [|n IH]; simpl; constructor; [exact quiet_silent|exact IH].
Qed.

Lemma speech_then_32_silent_frames_witness :
  written (_record_audio default_recorder returns_hi callback_returns
             (map Read (loud :: repeat quiet 32)) recording_world)
  = utterances (trace recording_world) ++ [loud :: repeat quiet 32]
  /\ length (loud :: repeat quiet 32) = 33%nat
  /\ exists c w',
       _record_audio default_recorder returns_hi callback_returns
         (map Read (loud :: take 31 (repeat quiet 32))) recording_world
       = Reading c w'
       /\ frames c = loud :: take 31 (repeat quiet 32)
       /\ utterances (trace w') = utterances (trace recording_world).
Proof.
  apply (speech_then_32_silent_frames default_recorder returns_hi
           callback_returns recording_world loud (repeat quiet 32)).
  - reflexivity.
  - reflexivity.
  - reflexivity.
  - vm_compute. reflexivity.
  - reflexivity.
  - exact loud_speech.
  - apply quiet_is_silent.
  - reflexivity.
Defined.

(** C6, as amended: for every configuration for which the limit
    [silence_duration * sample_rate / chunk_size], as the code computes it
    in double precision, is a number, an utterance in progress ends exactly
    when the count of consecutive trailing silent frames first exceeds that
    limit, that is when it reaches [frames_to_break], the floor of the
    limit plus one (and at least one): with fewer silent frames the loop
    still waits and has written nothing, with exactly that many the buffer
    is written.  For a limit that is not negative this count is the ceiling
    of the limit when the limit is not an integer, and the ceiling plus one
    when it is. *)
Theorem utterance_ends_above_ratio
    (self : SimpleAudioRecorder) (model : wav -> res pystr)
    (callback : pystr -> attrs -> res unit * attrs) (w : world)
    (lead sp sil : list chunk) :
  finite_limit self = true ->
  is_recording (self_attrs w) = true ->
  Forall (silent self) lead -> Forall (speech self) sp -> sp <> [] ->
  Forall (silent self) sil ->
  (Z.of_nat (length sil) < frames_to_break self ->
   _record_audio self model callback (map Read (lead ++ sp ++ sil)) w
   = Reading {| frames := sp ++ sil;
                silence_count := Z.of_nat (length sil);
                speech_detected := true |}
             (log (Print SpeechDetected) (opened w)))
  /\ (Z.of_nat (length sil) = frames_to_break self ->
      wave_error self (sp ++ sil) = None ->
      written (_record_audio self model callback
                 (map Read (lead ++ sp ++ sil)) w)
      = utterances (trace w) ++ [sp ++ sil])
  /\ (forall n : Z,
        enough_silence self n = Ret true <-> (silence_ratio self < inject_Z n)%Q)
  /\ ((0 <= silence_ratio self)%Q ->
      frames_to_break self =
      if Qeq_bool (silence_ratio self)
                  (inject_Z (Qfloor (silence_ratio self)))
      then silence_frame_count self + 1
      else silence_frame_count self).
Proof.
  intros Hc Hrec Hlead Hsp Hne Hsil. split; [|split; [|split]].
  - intros Hlt. apply record_audio_capturing; auto.
  - intros Hlen Hwave.
    destruct (record_audio_one_utterance self model callback lead sp sil []
                w) as (w' & Hfin & Hut & _); auto.
    rewrite app_nil_r in Hfin. unfold written. rewrite Hfin. exact Hut.
  - intros n. rewrite enough_silence_ratio by exact Hc.
    rewrite <- Qltb_lt. split; [now inversion 1|now intros ->].
  - apply frames_to_break_vs_count.
Qed.

Lemma quiet_1000_silent : silent recorder_1000 quiet_1000.
Proof. vm_compute. reflexivity. Qed.

Lemma loud_1000_speech : speech recorder_1000 loud_1000.
Proof. vm_compute. reflexivity. Qed.

Lemma quiet_is_silent_1000 (n : nat) :
  Forall (silent recorder_1000) (repeat quiet_1000 n).
Proof.
  induction n as [|n IH]; simpl; constructor;
    [exact quiet_1000_silent|exact IH].
Qed.

Lemma utterance_ends_above_ratio_witness :
  (Z.of_nat (length (repeat quiet_1000 32)) < frames_to_break recorder_1000 ->
   _record_audio recorder_1000 returns_hi callback_returns
     (map Read ([quiet_1000] ++ [loud_1000] ++ repeat quiet_1000 32)) recording_world
   = Reading {| frames := [loud_1000] ++ repeat quiet_1000 32;
                silence_count := Z.of_nat (length (repeat quiet_1000 32));
                speech_detected := true |}
             (log (Print SpeechDetected) (opened recording_world)))
  /\ (Z.of_nat (length (repeat quiet_1000 32)) = frames_to_break recorder_1000 ->
      wave_error recorder_1000 ([loud_1000] ++ repeat quiet_1000 32) = None ->
      written (_record_audio recorder_1000 returns_hi callback_returns
                 (map Read ([quiet_1000] ++ [loud_1000] ++ repeat quiet_1000 32))
                 recording_world)
      = utterances (trace recording_world) ++ [[loud_1000] ++ repeat quiet_1000 32])
  /\ (forall n : Z,
        enough_silence recorder_1000 n = Ret true
        <-> (silence_ratio recorder_1000 < inject_Z n)%Q)
  /\ ((0 <= silence_ratio recorder_1000)%Q ->
      frames_to_break recorder_1000 =
      if Qeq_bool (silence_ratio recorder_1000)
                  (inject_Z (Qfloor (silence_ratio recorder_1000)))
      then silence_frame_count recorder_1000 + 1
      else silence_frame_count recorder_1000).
Proof.
  apply (utterance_ends_above_ratio recorder_1000 returns_hi callback_returns
           recording_world [quiet_1000] [loud_1000] (repeat quiet_1000 32)).
  - reflexivity.
  - reflexivity.
  - constructor; [exact quiet_1000_silent|constructor].
  - constructor; [exact loud_1000_speech|constructor].
  - discriminate.
  - apply quiet_is_silent_1000.
Defined.

(** C6 as the claim has it fails when the ratio is an integer: with
    chunks of 1000 samples the limit is 32.0, and so is its ceiling, with
    or without rounding, and after one speech frame and 32 silent frames
    the count has reached 32 while the utterance has not ended: nothing is
    written and the loop waits for the next frame. *)
Lemma integer_ratio_needs_one_more_frame :
  silence_limit recorder_1000 = Ret 32%float
  /\ Qceiling (exact_ratio recorder_1000) = 32
  /\ silence_frame_count recorder_1000 = 32
  /\ _record_audio recorder_1000 returns_hi callback_returns
       (map Read (loud_1000 :: repeat quiet_1000 32)) recording_world
     = Reading {| frames := loud_1000 :: repeat quiet_1000 32; silence_count := 32;
                  speech_detected := true |}
               (log (Print SpeechDetected) (opened recording_world))
  /\ utterances
       (trace (log (Print SpeechDetected) (opened recording_world))) = [].
Proof. split; [|split; [|split; [|split]]]; vm_compute; reflexivity. Qed.

(** C7, as amended: for every input of the shape silence x N, speech x M,
    silence x K with M >= 1 and K above the silence-frame-count (and at
    least 1), under a limit that is a number and when [wave] can write the
    buffer, the segmenter writes exactly one utterance buffer; it holds
    none of the N leading silent frames, then the M speech frames, then the
    first [frames_to_break] of the trailing silent frames, in the order in
    which they were read.  [frames_to_break] is the floor of the limit the
    code computes plus one: the silence-frame-count when the limit is not
    an integer, one more than it when it is. *)
Theorem silence_speech_silence_is_one_utterance
    (self : SimpleAudioRecorder) (model : wav -> res pystr)
    (callback : pystr -> attrs -> res unit * attrs) (w : world)
    (lead sp sil : list chunk) :
  finite_limit self = true ->
  wave_error self (sp ++ take (Z.to_nat (frames_to_break self)) sil) = None ->
  is_recording (self_attrs w) = true ->
  Forall (silent self) lead -> Forall (speech self) sp -> sp <> [] ->
  Forall (silent self) sil ->
  silence_frame_count self < Z.of_nat (length sil) ->
  (1 <= length sil)%nat ->
  written (_record_audio self model callback (map Read (lead ++ sp ++ sil)) w)
  = utterances (trace w)
    ++ [sp ++ take (Z.to_nat (frames_to_break self)) sil]
  /\ Z.of_nat (length (take (Z.to_nat (frames_to_break self)) sil))
     = frames_to_break self
  /\ silence_frame_count self <= frames_to_break self
  /\ ((0 <= silence_ratio self)%Q ->
      frames_to_break self <= silence_frame_count self + 1).
Proof.
  intros Hc Hwave Hrec Hlead Hsp Hne Hsil Hk H1.
  pose proof (frames_to_break_pos self) as Hpos.
  pose proof (frames_to_break_le_count self (Z.of_nat (length sil)) Hk) as Hle.
  assert (Hlen : Z.of_nat (length (take (Z.to_nat (frames_to_break self)) sil))
                 = frames_to_break self) by (rewrite length_take; lia).
  split; [|split; [exact Hlen|split]].
  - destruct (record_audio_one_utterance self model callback lead sp
                (take (Z.to_nat (frames_to_break self)) sil)
                (drop (Z.to_nat (frames_to_break self)) sil) w)
      as (w' & Hfin & Hut & _); auto using Forall_take, Forall_drop.
    rewrite take_drop in Hfin. unfold written. rewrite Hfin. exact Hut.
  - unfold frames_to_break, silence_frame_count.
    pose proof (Qceiling_le_succ_Qfloor (silence_ratio self)). lia.
  - intros Hq. rewrite (frames_to_break_vs_count self Hq).
    destruct (Qeq_bool _ _); lia.
Qed.

Lemma silence_speech_silence_is_one_utterance_witness :
  written (_record_audio recorder_1000 returns_hi callback_returns
             (map Read ([quiet_1000] ++ [loud_1000] ++ repeat quiet_1000 34)) recording_world)
  = utterances (trace recording_world)
    ++ [[loud_1000] ++ take (Z.to_nat (frames_to_break recorder_1000))
                       (repeat quiet_1000 34)]
  /\ Z.of_nat (length (take (Z.to_nat (frames_to_break recorder_1000))
                            (repeat quiet_1000 34)))
     = frames_to_break recorder_1000
  /\ silence_frame_count recorder_1000 <= frames_to_break recorder_1000
  /\ ((0 <= silence_ratio recorder_1000)%Q ->
      frames_to_break recorder_1000 <= silence_frame_count recorder_1000 + 1).
Proof.
  apply (silence_speech_silence_is_one_utterance recorder_1000 returns_hi
           callback_returns recording_world [quiet_1000] [loud_1000] (repeat quiet_1000 34)).
  - reflexivity.
  - vm_compute. reflexivity.
  - reflexivity.
  - constructor; [exact quiet_1000_silent|constructor].
  - constructor; [exact loud_1000_speech|constructor].
  - discriminate.
  - apply quiet_is_silent_1000.
  - vm_compute. reflexivity.
  - simpl. lia.
Defined.

(** C7 as the claim has it fails when the ratio is an integer: with
    chunks of 1000 samples the limit is 32.0 and the silence-frame-count is
    32, and for one speech frame followed by 34 silent frames the buffer
    written holds 33 trailing silent frames, more than the
    silence-frame-count. *)
Lemma integer_ratio_keeps_one_more_frame :
  silence_limit recorder_1000 = Ret 32%float
  /\ Qceiling (exact_ratio recorder_1000) = 32
  /\ silence_frame_count recorder_1000 = 32
  /\ written (_record_audio recorder_1000 returns_hi callback_returns
                (map Read (loud_1000 :: repeat quiet_1000 34)) recording_world)
     = [loud_1000 :: repeat quiet_1000 33].
Proof. split; [|split; [|split]]; vm_compute; reflexivity. Qed.

(** C1, as amended: if the flag is cleared by another thread while the
    segmenter is capturing, with a non-empty buffer whose trailing silence
    has not reached the count that ends an utterance, the buffer is not
    discarded: it is written to the temporary file and transcribed, and the
    callback is called with the stripped text when that is not empty. *)
Theorem stopped_capture_is_transcribed
    (self : SimpleAudioRecorder) (model : wav -> res pystr)
    (callback : pystr -> attrs -> res unit * attrs) (w : world)
    (lead sp tr : list chunk) :
  finite_limit self = true ->
  wave_error self (sp ++ tr) = None ->
  is_recording (self_attrs w) = true ->
  Forall (silent self) lead -> Forall (speech self) sp -> sp <> [] ->
  Forall (silent self) tr ->
  Z.of_nat (length tr) < frames_to_break self ->
  written (_record_audio self model callback
             (map Read (lead ++ sp ++ tr) ++ [Assign false]) w)
  = utterances (trace w) ++ [sp ++ tr]
  /\ called (_record_audio self model callback
               (map Read (lead ++ sp ++ tr) ++ [Assign false]) w)
     = callbacks (trace w) ++ texts_of (model (wave_of self (sp ++ tr))).
Proof.
  intros Hc Hwave Hrec Hlead Hsp Hne Htr Hlt.
  destruct (record_audio_stopped self model callback lead sp tr
              Hlead Hsp Hne Htr w (or_intror Hc) Hwave Hrec Hlt)
    as (w1 & Hu & Hrun).
  destruct (record_loop_silence self model callback 0 [] w1
              (List.Forall_nil (silent self)))
    as (w' & Hfin & Hut & Hcb).
  cbn [map] in Hfin.
  apply utterance_shows in Hu. destruct Hu as (_ & Hu1 & Hu2 & _).
  unfold written, called. rewrite Hrun, Hfin, Hut, Hcb, Hu1, Hu2.
  unfold assigned, with_attrs. cbn [trace].
  rewrite detected_utterances, detected_callbacks, opened_utterances,
    opened_callbacks. auto.
Qed.

Lemma stopped_capture_is_transcribed_witness :
  written (_record_audio default_recorder returns_hi callback_returns
             (map Read ([quiet] ++ [loud] ++ [quiet]) ++ [Assign false])
             recording_world)
  = utterances (trace recording_world) ++ [[loud] ++ [quiet]]
  /\ called (_record_audio default_recorder returns_hi callback_returns
               (map Read ([quiet] ++ [loud] ++ [quiet]) ++ [Assign false])
               recording_world)
     = callbacks (trace recording_world)
       ++ texts_of (returns_hi (wave_of default_recorder ([loud] ++ [quiet]))).
Proof.
  apply (stopped_capture_is_transcribed default_recorder returns_hi
           callback_returns recording_world [quiet] [loud] [quiet]).
  - reflexivity.
  - vm_compute. reflexivity.
  - reflexivity.
  - constructor; [exact quiet_silent|constructor].
  - constructor; [exact loud_speech|constructor].
  - discriminate.
  - constructor; [exact quiet_silent|constructor].
  - vm_compute. reflexivity.
Defined.

(** C1 as the claim has it fails: the flag is cleared after one speech
    frame and one silent frame, far below the 32 silent frames that end an
    utterance, and the buffer of these two frames is written and
    transcribed and the callback is called with the text "hi". *)
Lemma stopped_capture_reaches_callback :
  frames_to_break default_recorder = 32
  /\ written (_record_audio default_recorder returns_hi callback_returns
                [Read loud; Read quiet; Assign false] recording_world)
     = [[loud; quiet]]
  /\ called (_record_audio default_recorder returns_hi callback_returns
               [Read loud; Read quiet; Assign false] recording_world)
     = [[104; 105]%N].
Proof. split; [|split]; vm_compute; reflexivity. Qed.

(** ** Errors of the model and of the callback *)

Lemma pending_trace (stream stream' : list input) (w w' : world) :
  pending stream w = (stream', w') ->
  trace w' = trace w /\ tmpfiles w' = tmpfiles w.
Proof.
  revert w. induction stream as [|[d|b] stream IH]; intros w H; simpl in H.
  - inversion H; subst. auto.
  - inversion H; subst. auto.
  - apply IH in H. exact H.
Qed.

(** The inner loop calls nothing and writes nothing. *)
Lemma listen_quiet self stream c w :
  callbacks (trace (listened_world (listen self stream c w)))
  = callbacks (trace w)
  /\ utterances (trace (listened_world (listen self stream c w)))
     = utterances (trace w).
Proof.
  revert c w. induction stream as [|[d|b] stream IH]; intros c w;
    cbn [listen].
  - destruct (is_recording (self_attrs w)); auto.
  - destruct (is_recording (self_attrs w)); [|auto].
    destruct (_is_silence self d) as [[|]|e]; [| |auto].
    + destruct (speech_detected c); [|apply IH].
      destruct (enough_silence self _) as [[|]|e]; [auto|apply IH|auto].
    + destruct (speech_detected c).
      * apply IH.
      * destruct (IH {| frames := frames c ++ [d]; silence_count := 0;
                        speech_detected := true |}
                     (log (Print SpeechDetected) w)) as [H1 H2].
        rewrite H1, H2, detected_callbacks, detected_utterances. auto.
  - destruct (IH c (assigned b w)) as [H1 H2]. rewrite H1, H2. auto.
Qed.

Lemma texts_of_callable (r : res pystr) : Forall callable (texts_of r).
Proof.
  destruct r as [result|e]; cbn [texts_of]; [|constructor].
  destruct (strip result) as [|ch text] eqn:Hs; cbn [truthy]; constructor;
    [|constructor].
  split; [discriminate|]. rewrite <- Hs. apply strip_trimmed.
Qed.

Section Invariant.

Context (self : SimpleAudioRecorder) (model : wav -> res pystr)
        (callback : pystr -> attrs -> res unit * attrs).

(** Every text a run brings to the callback is stripped and not empty. *)
Lemma record_loop_callable (fuel : nat) (stream : list input) (w : world) :
  (length stream < fuel)%nat ->
  exists new,
    called (record_loop fuel self model callback stream w)
    = callbacks (trace w) ++ new
    /\ Forall callable new.
Proof.
  revert stream w. induction fuel as [|fuel IH]; intros stream w Hf; [lia|].
  cbn [record_loop].
  destruct (pending stream w) as [stream1 w1] eqn:Hp.
  pose proof (pending_length _ _ _ _ Hp) as Hlen.
  destruct (pending_trace _ _ _ _ Hp) as [Htr _].
  destruct (is_recording (self_attrs w1)) eqn:Hrec.
  - pose proof (listen_quiet self stream1 no_capture w1) as [Hq _].
    destruct (listen self stream1 no_capture w1) as [rest c w2|c w2|e w2]
      eqn:Hl; cbn [listened_world] in Hq.
    + assert (Hrest : (length rest < fuel)%nat).
      { destruct (pending_settled _ _ _ _ Hp) as [->|(d & s & ->)].
        - cbn [listen] in Hl. rewrite Hrec in Hl. discriminate.
        - pose proof (listen_exits_shorter _ _ _ _ _ _ _ _ Hrec Hl).
          simpl length in Hlen. lia. }
      destruct (truthy (frames c) && speech_detected c).
      * destruct (transcribe_utterance self model callback (frames c) w2)
          as [[[]|e] w3] eqn:Hu.
        -- apply utterance_shows in Hu. destruct Hu as (_ & _ & Hcb & _).
           destruct (IH rest w3 Hrest) as (new & Hnew & Hgood).
           exists (texts_of (model (wave_of self (frames c))) ++ new).
           rewrite Hnew, Hcb, Hq, Htr, <- app_assoc. split; [reflexivity|].
           apply Forall_app. split; [apply texts_of_callable|exact Hgood].
        -- apply utterance_raises in Hu. destruct Hu as [_ ->].
           exists []. unfold called. cbn [final_world].
           rewrite wave_failed_callbacks, Hq, Htr, app_nil_r. auto.
      * destruct (IH rest w2 Hrest) as (new & Hnew & Hgood).
        exists new. rewrite Hnew, Hq, Htr. auto.
    + exists []. unfold called. cbn [final_world].
      rewrite Hq, Htr, app_nil_r. auto.
    + exists []. unfold called. cbn [final_world].
      rewrite Hq, Htr, app_nil_r. auto.
  - exists []. unfold called, log. cbn [final_world trace].
    rewrite !callbacks_app, Htr. cbn. rewrite !app_nil_r. auto.
Qed.

Lemma record_audio_callable (stream : list input) (w : world) :
  exists new,
    called (_record_audio self model callback stream w)
    = callbacks (trace w) ++ new
    /\ Forall callable new.
Proof.
  unfold _record_audio. fold (opened w).
  destruct (record_loop_callable (S (length stream)) stream (opened w))
    as (new & Hnew & Hgood); [lia|].
  exists new. rewrite Hnew, opened_callbacks. auto.
Qed.

End Invariant.

Section Step.

Context (self : SimpleAudioRecorder) (model : wav -> res pystr)
        (callback : pystr -> attrs -> res unit * attrs).

(** A run whose first pass of the inner loop ends with a buffer goes on,
    after the utterance, as the outer loop on the rest of the input. *)
Lemma record_audio_step stream w stream1 w0 rest c w1 w2 :
  pending stream (opened w) = (stream1, w0) ->
  is_recording (self_attrs w0) = true ->
  listen self stream1 no_capture w0 = Exited rest c w1 ->
  truthy (frames c) && speech_detected c = true ->
  transcribe_utterance self model callback (frames c) w1 = (Ret tt, w2) ->
  _record_audio self model callback stream w
  = record_loop (S (length rest)) self model callback rest w2.
Proof.
  intros Hp Hrec Hl Hc Hu. unfold _record_audio. fold (opened w).
  etransitivity; [eapply record_loop_step; eassumption|].
  apply record_loop_fuel; [|lia].
  pose proof (pending_length _ _ _ _ Hp) as Hlen.
  destruct (pending_settled _ _ _ _ Hp) as [->|(d & s & ->)].
  - cbn [listen] in Hl. rewrite Hrec in Hl. discriminate.
  - pose proof (listen_exits_shorter _ _ _ _ _ _ _ _ Hrec Hl).
    simpl length in Hlen. lia.
Qed.

(** When only silence follows, the loop listens on: it waits for the next
    chunk with nothing in hand, or, with the flag cleared, it returns. *)
Lemma record_loop_listens_on fuel (more : list chunk) (w : world) :
  Forall (silent self) more ->
  record_loop (S fuel) self model callback (map Read more) w
  = if is_recording (self_attrs w) then Reading no_capture w
    else Returned (log StreamClose (log StreamStop w)).
Proof. apply record_loop_over_silence. Qed.

(** When another utterance follows, it is written as the next buffer. *)
Lemma record_loop_next_utterance fuel (lead sp tr : list chunk) (w : world) :
  (length (lead ++ sp ++ tr) < fuel)%nat ->
  is_recording (self_attrs w) = true ->
  finite_limit self = true ->
  Forall (silent self) lead -> Forall (speech self) sp -> sp <> [] ->
  Forall (silent self) tr ->
  Z.of_nat (length tr) = frames_to_break self ->
  wave_error self (sp ++ tr) = None ->
  written (record_loop fuel self model callback
             (map Read (lead ++ sp ++ tr)) w)
  = utterances (trace w) ++ [sp ++ tr].
Proof.
  intros Hf Hrec Hc Hlead Hsp Hne Htr Hlen Hwave.
  destruct fuel as [|fuel]; [lia|].
  destruct (record_loop_utterance self model callback lead sp tr
              Hlead Hsp Hne Htr fuel [] w Hc Hwave Hrec Hlen)
    as (w' & Hu & Hrun).
  rewrite app_nil_r in Hrun. rewrite Hrun.
  assert (Hfuel : record_loop fuel self model callback [] w'
                  = record_loop 1 self model callback [] w').
  { apply record_loop_fuel; simpl; [|lia].
    pose proof (shape_nonempty self lead sp tr Hlead Hsp Hne) as Hs.
    destruct (lead ++ sp ++ tr); [congruence|]. simpl in Hf. lia. }
  rewrite Hfuel.
  destruct (record_loop_silence self model callback 0 [] w'
              (List.Forall_nil (silent self))) as (w'' & Hfin & Hut & _).
  cbn [map] in Hfin. unfold written. rewrite Hfin, Hut.
  apply utterance_shows in Hu. destruct Hu as (_ & -> & _).
  now rewrite detected_utterances.
Qed.

(** After an utterance that returned the run listens on. *)
Lemma record_audio_goes_on stream w stream1 w0 rest c w1 w2 :
  pending stream (opened w) = (stream1, w0) ->
  is_recording (self_attrs w0) = true ->
  listen self stream1 no_capture w0 = Exited rest c w1 ->
  truthy (frames c) && speech_detected c = true ->
  transcribe_utterance self model callback (frames c) w1 = (Ret tt, w2) ->
  (forall more : list chunk,
      rest = map Read more -> Forall (silent self) more ->
      _record_audio self model callback stream w
      = if is_recording (self_attrs w2) then Reading no_capture w2
        else Returned (log StreamClose (log StreamStop w2)))
  /\ (forall lead sp tr : list chunk,
        rest = map Read (lead ++ sp ++ tr) ->
        is_recording (self_attrs w2) = true ->
        finite_limit self = true ->
        Forall (silent self) lead -> Forall (speech self) sp -> sp <> [] ->
        Forall (silent self) tr ->
        Z.of_nat (length tr) = frames_to_break self ->
        wave_error self (sp ++ tr) = None ->
        written (_record_audio self model callback stream w)
        = utterances (trace w1) ++ [frames c; sp ++ tr]).
Proof.
  intros Hp Hrec Hl Hc Hu.
  pose proof (record_audio_step _ _ _ _ _ _ _ _ Hp Hrec Hl Hc Hu) as Hrun.
  split.
  - intros more -> Hmore. rewrite Hrun.
    apply record_loop_listens_on, Hmore.
  - intros lead sp tr -> Hrec2 Hfin Hlead Hsp Hne Htr Hlen Hwave.
    rewrite Hrun.
    rewrite record_loop_next_utterance;
      try assumption; [|rewrite length_map; lia].
    apply utterance_shows in Hu. destruct Hu as (_ & -> & _).
    rewrite <- app_assoc. reflexivity.
Qed.

End Step.

(** C8: for every utterance buffer on which the model raises, the
    transcription step returns all the same: the error is printed, the
    callback is not called for that buffer, and the temporary file written
    for it is gone afterwards.  No exception leaves the loop, which listens
    on under the same attributes: the run goes on from the head of the loop
    with the rest of the input; when silence follows it waits for the next
    chunk with nothing in hand (or returns, if the flag was cleared), and
    when another utterance follows that one is written as the next
    buffer. *)
Theorem model_error_is_caught
    (self : SimpleAudioRecorder) (model : wav -> res pystr)
    (callback : pystr -> attrs -> res unit * attrs)
    (stream stream1 rest : list input) (c : capture)
    (w w0 w1 : world) (e : exn) :
  pending stream (opened w) = (stream1, w0) ->
  is_recording (self_attrs w0) = true ->
  listen self stream1 no_capture w0 = Exited rest c w1 ->
  truthy (frames c) && speech_detected c = true ->
  wave_error self (frames c) = None ->
  model (wave_of self (frames c)) = Exc e ->
  exists w2,
    transcribe_utterance self model callback (frames c) w1 = (Ret tt, w2)
    /\ _record_audio self model callback stream w
       = record_loop (S (length rest)) self model callback rest w2
    /\ trace w2 = trace w1 ++
         [TempFile (temp_name w1); WavWrite (temp_name w1) (frames c);
          Transcribe (temp_name w1); Print (TranscriptionError e);
          Unlink (temp_name w1); Print ListeningForSpeech]
    /\ callbacks (trace w2) = callbacks (trace w1)
    /\ tmpfiles w2 !! temp_name w1 = None
    /\ tmpfiles w2 = tmpfiles w1
    /\ self_attrs w2 = self_attrs w1
    /\ (forall more : list chunk,
          rest = map Read more -> Forall (silent self) more ->
          _record_audio self model callback stream w
          = if is_recording (self_attrs w1) then Reading no_capture w2
            else Returned (log StreamClose (log StreamStop w2)))
    /\ (forall lead sp tr : list chunk,
          rest = map Read (lead ++ sp ++ tr) ->
          is_recording (self_attrs w1) = true ->
          finite_limit self = true ->
          Forall (silent self) lead -> Forall (speech self) sp -> sp <> [] ->
          Forall (silent self) tr ->
          Z.of_nat (length tr) = frames_to_break self ->
          wave_error self (sp ++ tr) = None ->
          written (_record_audio self model callback stream w)
          = utterances (trace w1) ++ [frames c; sp ++ tr]).
Proof.
  intros Hp Hrec Hl Hc Hwave Hmodel.
  pose proof (utterance_model_raises self model callback (frames c) w1 e
                Hwave Hmodel) as Hu.
  destruct (record_audio_goes_on self model callback _ _ _ _ _ _ _ _
              Hp Hrec Hl Hc Hu) as [Hon Hnext].
  eexists. split; [exact Hu|].
  split; [eapply record_audio_step; eassumption|].
  cbn [after_utterance trace tmpfiles self_attrs] in *.
  split; [reflexivity|]. split; [|split; [|split; [|split; [|split]]]].
  - rewrite callbacks_app. cbn. now rewrite app_nil_r.
  - apply temp_name_fresh.
  - reflexivity.
  - reflexivity.
  - exact Hon.
  - exact Hnext.
Qed.

(** C9: when the text of the model is empty once stripped, the callback
    is not called, nothing is printed as an error, the temporary file is
    removed and the loop listens on: the run goes on from the head of the
    loop with the rest of the input, waits for the next chunk when silence
    follows and writes the next utterance when one follows; and in every
    run every text the callback is called with is stripped and not
    empty. *)
Theorem empty_text_is_skipped
    (self : SimpleAudioRecorder) (model : wav -> res pystr)
    (callback : pystr -> attrs -> res unit * attrs)
    (stream stream1 rest : list input) (c : capture)
    (w w0 w1 : world) (result : pystr) :
  pending stream (opened w) = (stream1, w0) ->
  is_recording (self_attrs w0) = true ->
  listen self stream1 no_capture w0 = Exited rest c w1 ->
  truthy (frames c) && speech_detected c = true ->
  wave_error self (frames c) = None ->
  model (wave_of self (frames c)) = Ret result ->
  strip result = [] ->
  (exists w2,
     transcribe_utterance self model callback (frames c) w1 = (Ret tt, w2)
     /\ _record_audio self model callback stream w
        = record_loop (S (length rest)) self model callback rest w2
     /\ trace w2 = trace w1 ++
          [TempFile (temp_name w1); WavWrite (temp_name w1) (frames c);
           Transcribe (temp_name w1);
           Unlink (temp_name w1); Print ListeningForSpeech]
     /\ callbacks (trace w2) = callbacks (trace w1)
     /\ tmpfiles w2 = tmpfiles w1
     /\ self_attrs w2 = self_attrs w1
     /\ (forall more : list chunk,
           rest = map Read more -> Forall (silent self) more ->
           _record_audio self model callback stream w
           = if is_recording (self_attrs w1) then Reading no_capture w2
             else Returned (log StreamClose (log StreamStop w2)))
     /\ (forall lead sp tr : list chunk,
           rest = map Read (lead ++ sp ++ tr) ->
           is_recording (self_attrs w1) = true ->
           finite_limit self = true ->
           Forall (silent self) lead -> Forall (speech self) sp -> sp <> [] ->
           Forall (silent self) tr ->
           Z.of_nat (length tr) = frames_to_break self ->
           wave_error self (sp ++ tr) = None ->
           written (_record_audio self model callback stream w)
           = utterances (trace w1) ++ [frames c; sp ++ tr]))
  /\ (forall (input : list input) (before : world),
        exists new,
          called (_record_audio self model callback input before)
          = callbacks (trace before) ++ new
          /\ Forall (fun text => text <> [] /\ strip text = text) new).
Proof.
  intros Hp Hrec Hl Hc Hwave Hmodel Hstrip. split.
  - pose proof (utterance_empty_text self model callback (frames c) w1 result
                  Hwave Hmodel Hstrip) as Hu.
    destruct (record_audio_goes_on self model callback _ _ _ _ _ _ _ _
                Hp Hrec Hl Hc Hu) as [Hon Hnext].
    eexists. split; [exact Hu|].
    split; [eapply record_audio_step; eassumption|].
    cbn [after_utterance trace tmpfiles self_attrs] in *.
    split; [reflexivity|]. split; [|split; [|split; [|split]]].
    + rewrite callbacks_app. cbn. now rewrite app_nil_r.
    + reflexivity.
    + reflexivity.
    + exact Hon.
    + exact Hnext.
  - intros input before. apply record_audio_callable.
Qed.

(** C10: when the callback raises, the exception does not leave the
    capture loop: the handler around the call of the model catches it and
    prints it as a transcription error, and the temporary file of the
    utterance is removed.  The loop listens on under the attributes the
    callback left: the run goes on from the head of the loop with the rest
    of the input; when silence follows it waits for the next chunk with
    nothing in hand (or returns, if the callback cleared the flag), and
    when another utterance follows that one is written as the next
    buffer. *)
Theorem callback_error_is_caught
    (self : SimpleAudioRecorder) (model : wav -> res pystr)
    (callback : pystr -> attrs -> res unit * attrs)
    (stream stream1 rest : list input) (c : capture)
    (w w0 w1 : world) (result : pystr) (e : exn) (a : attrs) :
  pending stream (opened w) = (stream1, w0) ->
  is_recording (self_attrs w0) = true ->
  listen self stream1 no_capture w0 = Exited rest c w1 ->
  truthy (frames c) && speech_detected c = true ->
  wave_error self (frames c) = None ->
  model (wave_of self (frames c)) = Ret result ->
  strip result <> [] ->
  callback (strip result) (self_attrs w1) = (Exc e, a) ->
  exists w2,
    transcribe_utterance self model callback (frames c) w1 = (Ret tt, w2)
    /\ _record_audio self model callback stream w
       = record_loop (S (length rest)) self model callback rest w2
    /\ trace w2 = trace w1 ++
         [TempFile (temp_name w1); WavWrite (temp_name w1) (frames c);
          Transcribe (temp_name w1)] ++ took self ++
         [Callback (strip result); Print (TranscriptionError e);
          Unlink (temp_name w1); Print ListeningForSpeech]
    /\ tmpfiles w2 !! temp_name w1 = None
    /\ tmpfiles w2 = tmpfiles w1
    /\ self_attrs w2 = a
    /\ (forall more : list chunk,
          rest = map Read more -> Forall (silent self) more ->
          _record_audio self model callback stream w
          = if is_recording a then Reading no_capture w2
            else Returned (log StreamClose (log StreamStop w2)))
    /\ (forall lead sp tr : list chunk,
          rest = map Read (lead ++ sp ++ tr) ->
          is_recording a = true ->
          finite_limit self = true ->
          Forall (silent self) lead -> Forall (speech self) sp -> sp <> [] ->
          Forall (silent self) tr ->
          Z.of_nat (length tr) = frames_to_break self ->
          wave_error self (sp ++ tr) = None ->
          written (_record_audio self model callback stream w)
          = utterances (trace w1) ++ [frames c; sp ++ tr]).
Proof.
  intros Hp Hrec Hl Hc Hwave Hmodel Hstrip Hcb.
  pose proof (utterance_callback self model callback (frames c) w1 result
                (Exc e) a Hwave Hmodel Hstrip Hcb) as Hu.
  destruct (record_audio_goes_on self model callback _ _ _ _ _ _ _ _
              Hp Hrec Hl Hc Hu) as [Hon Hnext].
  eexists. split; [exact Hu|].
  split; [eapply record_audio_step; eassumption|].
  cbn [after_utterance trace tmpfiles self_attrs reported] in *.
  split; [now rewrite <- !app_assoc|].
  split; [apply temp_name_fresh|]. split; [reflexivity|].
  split; [reflexivity|]. split; [exact Hon|exact Hnext].
Qed.

(** The inner loop over one utterance, a speech frame and 32 silent
    frames, with the defaults. *)
Lemma one_utterance_heard :
  listen default_recorder one_utterance no_capture (opened recording_world)
  = Exited [Read loud] heard heard_world.
Proof. vm_compute. reflexivity. Qed.

Lemma utterance_then_silence_heard :
  listen default_recorder
    (map Read (loud :: repeat quiet 32) ++ map Read [quiet; quiet])
    no_capture (opened recording_world)
  = Exited (map Read [quiet; quiet]) heard heard_world.
Proof. vm_compute. reflexivity. Qed.

Lemma utterance_then_utterance_heard :
  listen default_recorder
    (map Read (loud :: repeat quiet 32)
     ++ map Read ([quiet] ++ [loud; loud] ++ repeat quiet 32))
    no_capture (opened recording_world)
  = Exited (map Read ([quiet] ++ [loud; loud] ++ repeat quiet 32))
      heard heard_world.
Proof. vm_compute. reflexivity. Qed.

Lemma loud_loud_speech : Forall (speech default_recorder) [loud; loud].
Proof. repeat constructor; exact loud_speech. Qed.

(** The world of a recorder that is recording after it has heard one
    utterance and the events [mid] have followed the call of the model. *)
Lemma heard_world_after (mid : list event) (a : attrs) :
  after_utterance (frames heard) mid a heard_world
  = {| self_attrs := a; tmpfiles := ∅;
       trace := [StreamOpen; Print ListeningForSpeech; Print SpeechDetected;
                 TempFile 0; WavWrite 0 (loud :: repeat quiet 32);
                 Transcribe 0] ++ mid ++
                [Unlink 0; Print ListeningForSpeech] |}.
Proof. reflexivity. Qed.

Lemma model_error_is_caught_witness :
  _record_audio default_recorder model_fails callback_returns
    (map Read (loud :: repeat quiet 32) ++ map Read [quiet; quiet])
    recording_world
  = Reading no_capture
      {| self_attrs := self_attrs recording_world; tmpfiles := ∅;
         trace :=
           [StreamOpen; Print ListeningForSpeech; Print SpeechDetected;
            TempFile 0; WavWrite 0 (loud :: repeat quiet 32); Transcribe 0;
            Print (TranscriptionError
                     (Exception "RuntimeError" "model failed"));
            Unlink 0; Print ListeningForSpeech] |}
  /\ written (_record_audio default_recorder model_fails callback_returns
                (map Read (loud :: repeat quiet 32)
                 ++ map Read ([quiet] ++ [loud; loud] ++ repeat quiet 32))
                recording_world)
     = [loud :: repeat quiet 32; [loud; loud] ++ repeat quiet 32].
Proof.
  split.
  - destruct (model_error_is_caught default_recorder model_fails
                callback_returns
                (map Read (loud :: repeat quiet 32) ++ map Read [quiet; quiet])
                (map Read (loud :: repeat quiet 32) ++ map Read [quiet; quiet])
                (map Read [quiet; quiet]) heard
                recording_world (opened recording_world) heard_world
                (Exception "RuntimeError" "model failed"))
      as (w2 & Hu & _ & _ & _ & _ & _ & _ & Hon & _).
    + reflexivity.
    + reflexivity.
    + exact utterance_then_silence_heard.
    + reflexivity.
    + vm_compute. reflexivity.
    + reflexivity.
    + rewrite (Hon [quiet; quiet] eq_refl (quiet_is_silent 2)).
      rewrite (utterance_model_raises default_recorder model_fails
                 callback_returns (frames heard) heard_world
                 (Exception "RuntimeError" "model failed")) in Hu
        by (vm_compute; reflexivity).
      injection Hu as <-. rewrite heard_world_after. reflexivity.
  - destruct (model_error_is_caught default_recorder model_fails
                callback_returns
                (map Read (loud :: repeat quiet 32)
                 ++ map Read ([quiet] ++ [loud; loud] ++ repeat quiet 32))
                (map Read (loud :: repeat quiet 32)
                 ++ map Read ([quiet] ++ [loud; loud] ++ repeat quiet 32))
                (map Read ([quiet] ++ [loud; loud] ++ repeat quiet 32)) heard
                recording_world (opened recording_world) heard_world
                (Exception "RuntimeError" "model failed"))
      as (w2 & _ & _ & _ & _ & _ & _ & _ & _ & Hnext).
    + reflexivity.
    + reflexivity.
    + exact utterance_then_utterance_heard.
    + reflexivity.
    + vm_compute. reflexivity.
    + reflexivity.
    + apply (Hnext [quiet] [loud; loud] (repeat quiet 32)).
      * reflexivity.
      * reflexivity.
      * reflexivity.
      * apply (quiet_is_silent 1).
      * exact loud_loud_speech.
      * discriminate.
      * apply quiet_is_silent.
      * vm_compute. reflexivity.
      * vm_compute. reflexivity.
Defined.

Lemma empty_text_is_skipped_witness :
  _record_audio default_recorder returns_blank callback_returns
    (map Read (loud :: repeat quiet 32) ++ map Read [quiet; quiet])
    recording_world
  = Reading no_capture
      {| self_attrs := self_attrs recording_world; tmpfiles := ∅;
         trace :=
           [StreamOpen; Print ListeningForSpeech; Print SpeechDetected;
            TempFile 0; WavWrite 0 (loud :: repeat quiet 32); Transcribe 0;
            Unlink 0; Print ListeningForSpeech] |}
  /\ written (_record_audio default_recorder returns_blank callback_returns
                (map Read (loud :: repeat quiet 32)
                 ++ map Read ([quiet] ++ [loud; loud] ++ repeat quiet 32))
                recording_world)
     = [loud :: repeat quiet 32; [loud; loud] ++ repeat quiet 32]
  /\ (forall (input : list input) (before : world),
        exists new,
          called (_record_audio default_recorder returns_blank
                    callback_returns input before)
          = callbacks (trace before) ++ new
          /\ Forall (fun text => text <> [] /\ strip text = text) new).
Proof.
  split; [|split].
  - destruct (empty_text_is_skipped default_recorder returns_blank
                callback_returns
                (map Read (loud :: repeat quiet 32) ++ map Read [quiet; quiet])
                (map Read (loud :: repeat quiet 32) ++ map Read [quiet; quiet])
                (map Read [quiet; quiet]) heard
                recording_world (opened recording_world) heard_world
                [32; 10]%N)
      as [(w2 & Hu & _ & _ & _ & _ & _ & Hon & _) _].
    + reflexivity.
    + reflexivity.
    + exact utterance_then_silence_heard.
    + reflexivity.
    + vm_compute. reflexivity.
    + reflexivity.
    + reflexivity.
    + rewrite (Hon [quiet; quiet] eq_refl (quiet_is_silent 2)).
      rewrite (utterance_empty_text default_recorder returns_blank
                 callback_returns (frames heard) heard_world [32; 10]%N) in Hu
        by (vm_compute; reflexivity).
      injection Hu as <-. rewrite heard_world_after. reflexivity.
  - destruct (empty_text_is_skipped default_recorder returns_blank
                callback_returns
                (map Read (loud :: repeat quiet 32)
                 ++ map Read ([quiet] ++ [loud; loud] ++ repeat quiet 32))
                (map Read (loud :: repeat quiet 32)
                 ++ map Read ([quiet] ++ [loud; loud] ++ repeat quiet 32))
                (map Read ([quiet] ++ [loud; loud] ++ repeat quiet 32)) heard
                recording_world (opened recording_world) heard_world
                [32; 10]%N)
      as [(w2 & _ & _ & _ & _ & _ & _ & _ & Hnext) _].
    + reflexivity.
    + reflexivity.
    + exact utterance_then_utterance_heard.
    + reflexivity.
    + vm_compute. reflexivity.
    + reflexivity.
    + reflexivity.
    + apply (Hnext [quiet] [loud; loud] (repeat quiet 32)).
      * reflexivity.
      * reflexivity.
      * reflexivity.
      * apply (quiet_is_silent 1).
      * exact loud_loud_speech.
      * discriminate.
      * apply quiet_is_silent.
      * vm_compute. reflexivity.
      * vm_compute. reflexivity.
  - apply (empty_text_is_skipped default_recorder returns_blank
             callback_returns one_utterance one_utterance [Read loud] heard
             recording_world (opened recording_world) heard_world [32; 10]%N).
    + reflexivity.
    + reflexivity.
    + exact one_utterance_heard.
    + reflexivity.
    + vm_compute. reflexivity.
    + reflexivity.
    + reflexivity.
Defined.

Lemma callback_error_is_caught_witness :
  _record_audio default_recorder returns_hi callback_raises
    (map Read (loud :: repeat quiet 32) ++ map Read [quiet; quiet])
    recording_world
  = Reading no_capture
      {| self_attrs := self_attrs recording_world; tmpfiles := ∅;
         trace :=
           [StreamOpen; Print ListeningForSpeech; Print SpeechDetected;
            TempFile 0; WavWrite 0 (loud :: repeat quiet 32); Transcribe 0;
            Print TranscriptionTook; Callback [104; 105]%N;
            Print (TranscriptionError (Exception "KeyError" "text"));
            Unlink 0; Print ListeningForSpeech] |}
  /\ written (_record_audio default_recorder returns_hi callback_raises
                (map Read (loud :: repeat quiet 32)
                 ++ map Read ([quiet] ++ [loud; loud] ++ repeat quiet 32))
                recording_world)
     = [loud :: repeat quiet 32; [loud; loud] ++ repeat quiet 32].
Proof.
  split.
  - destruct (callback_error_is_caught default_recorder returns_hi
                callback_raises
                (map Read (loud :: repeat quiet 32) ++ map Read [quiet; quiet])
                (map Read (loud :: repeat quiet 32) ++ map Read [quiet; quiet])
                (map Read [quiet; quiet]) heard
                recording_world (opened recording_world) heard_world
                hi_padded (Exception "KeyError" "text")
                (self_attrs heard_world))
      as (w2 & Hu & _ & _ & _ & _ & _ & Hon & _).
    + reflexivity.
    + reflexivity.
    + exact utterance_then_silence_heard.
    + reflexivity.
    + vm_compute. reflexivity.
    + reflexivity.
    + discriminate.
    + reflexivity.
    + rewrite (Hon [quiet; quiet] eq_refl (quiet_is_silent 2)).
      rewrite (utterance_callback default_recorder returns_hi
                 callback_raises (frames heard) heard_world hi_padded
                 (Exc (Exception "KeyError" "text"))
                 (self_attrs heard_world)) in Hu
        by (vm_compute; reflexivity || discriminate).
      injection Hu as <-. rewrite heard_world_after. reflexivity.
  - destruct (callback_error_is_caught default_recorder returns_hi
                callback_raises
                (map Read (loud :: repeat quiet 32)
                 ++ map Read ([quiet] ++ [loud; loud] ++ repeat quiet 32))
                (map Read (loud :: repeat quiet 32)
                 ++ map Read ([quiet] ++ [loud; loud] ++ repeat quiet 32))
                (map Read ([quiet] ++ [loud; loud] ++ repeat quiet 32)) heard
                recording_world (opened recording_world) heard_world
                hi_padded (Exception "KeyError" "text")
                (self_attrs heard_world))
      as (w2 & _ & _ & _ & _ & _ & _ & _ & Hnext).
    + reflexivity.
    + reflexivity.
    + exact utterance_then_utterance_heard.
    + reflexivity.
    + vm_compute. reflexivity.
    + reflexivity.
    + discriminate.
    + reflexivity.
    + apply (Hnext [quiet] [loud; loud] (repeat quiet 32)).
      * reflexivity.
      * reflexivity.
      * reflexivity.
      * apply (quiet_is_silent 1).
      * exact loud_loud_speech.
      * discriminate.
      * apply quiet_is_silent.
      * vm_compute. reflexivity.
      * vm_compute. reflexivity.
Defined.

(** ** [stop] from inside the callback *)

(** C2 fails in the code: [stop()] called by the thread that runs the
    loop clears the flag and then joins that very thread, which raises
    [RuntimeError].  In a run the handler of the loop prints it and the
    loop returns without another read; in [process_text] the handler
    there prints it and the assistant is never asked. *)
Theorem stop_inside_callback_raises :
  (forall (env : threading) (b : bool),
      stop env {| is_recording := b;
                  recording_thread := Some (current_thread env) |}
      = (Exc (RuntimeError "cannot join current thread"),
         {| is_recording := false;
            recording_thread := Some (current_thread env) |}))
  /\ (exists w',
        _record_audio default_recorder returns_hi callback_stops
          one_utterance recording_world = Returned w'
        /\ trace w' =
           [StreamOpen; Print ListeningForSpeech; Print SpeechDetected;
            TempFile 0; WavWrite 0 (loud :: repeat quiet 32); Transcribe 0;
            Print TranscriptionTook; Callback [104; 105]%N;
            Print (TranscriptionError
                     (RuntimeError "cannot join current thread"));
            Unlink 0; Print ListeningForSpeech; StreamStop; StreamClose]
        /\ is_recording (self_attrs w') = false)
  /\ (forall (assistant : pystr -> res pystr) (text : pystr),
        process_text loop_thread (fun _ => Ret true) assistant text
          (self_attrs recording_world)
        = ([Heard text; Error (RuntimeError "cannot join current thread")],
           {| is_recording := false; recording_thread := Some 1%nat |})).
Proof.
  split; [|split].
  - intros env b. unfold stop, set_is_recording, Thread_is_alive, Thread_join.
    cbn [recording_thread is_recording].
    destruct (decide (current_thread env = current_thread env)); [|congruence].
    reflexivity.
  - eexists. split; [vm_compute; reflexivity|]. split; reflexivity.
  - intros assistant text. reflexivity.
Qed.

(** * Further results *)

(** ** [stop] and [start] *)

(** X6: [stop] always clears [is_recording] and never touches
    [recording_thread]; it raises exactly when the thread that calls it is
    the recording thread itself, and what it raises then is the
    [RuntimeError] of the join; in every other case it returns. *)
Theorem stop_raises_only_on_recording_thread (env : threading) (a : attrs) :
  is_recording (snd (stop env a)) = false
  /\ recording_thread (snd (stop env a)) = recording_thread a
  /\ (recording_thread a = Some (current_thread env) ->
      fst (stop env a) = Exc (RuntimeError "cannot join current thread"))
  /\ (recording_thread a <> Some (current_thread env) ->
      fst (stop env a) = Ret tt).
Proof.
  unfold stop, set_is_recording, Thread_is_alive, Thread_join.
  cbn [recording_thread is_recording].
  destruct (recording_thread a) as [t|]; [|cbn; intuition congruence].
  destruct (decide (t = current_thread env)) as [->|Hne].
  - cbn. intuition congruence.
  - destruct (other_alive env t); cbn; intuition congruence.
Qed.

(** X7: [stop] followed by [start], the pair the callback of [awaken]
    brackets the assistant with, restores the attributes of a recorder that
    was recording whenever [stop] returns, that is on every thread but the
    recording thread. *)
Theorem stop_then_start_restores (env : threading) (a : attrs) :
  is_recording a = true ->
  recording_thread a <> Some (current_thread env) ->
  fst (stop env a) = Ret tt
  /\ start (snd (stop env a)) = (Ret tt, a).
Proof.
  intros Hrec Hne.
  unfold start, stop, set_is_recording, Thread_is_alive, Thread_join.
  cbn [recording_thread is_recording].
  destruct a as [r t]. cbn in *. subst r.
  destruct t as [t|]; [|split; reflexivity].
  destruct (decide (t = current_thread env)); [congruence|].
  destruct (other_alive env t); split; reflexivity.
Qed.

Lemma stop_then_start_restores_witness :
  fst (stop main_thread (self_attrs recording_world)) = Ret tt
  /\ start (snd (stop main_thread (self_attrs recording_world)))
     = (Ret tt, self_attrs recording_world).
Proof.
  apply (stop_then_start_restores main_thread (self_attrs recording_world)).
  - reflexivity.
  - discriminate.
Defined.

(** ** Invariants of every run *)

Lemma transcribed_app (a b : list event) :
  transcribed (a ++ b) = transcribed a ++ transcribed b.
Proof.
  induction a as [|ev a IH]; [reflexivity|].
  destruct ev; cbn [app transcribed]; rewrite IH; reflexivity.
Qed.

(** What one utterance that returns adds to the trace: the file is made,
    written and given to the model, then come prints and at most one call
    of the callback, and last the file is removed. *)
Lemma utterance_trace self model callback fs w w' :
  transcribe_utterance self model callback fs w = (Ret tt, w') ->
  exists mid,
    trace w' = trace w ++
      [TempFile (temp_name w); WavWrite (temp_name w) fs;
       Transcribe (temp_name w)] ++ mid ++
      [Unlink (temp_name w); Print ListeningForSpeech]
    /\ utterances mid = []
    /\ transcribed mid = []
    /\ (length (callbacks mid) <= 1)%nat
    /\ Forall (fun ev => ~ closes ev) mid.
Proof.
  intros H.
  destruct (utterance_shows _ _ _ _ _ _ H) as (Hwave & _).
  destruct (model (wave_of self fs)) as [result|e] eqn:Hmodel.
  - destruct (strip result) as [|ch text] eqn:Hstrip.
    + rewrite (utterance_empty_text _ _ _ _ _ _ Hwave Hmodel Hstrip) in H.
      inversion H; subst; clear H. exists []. cbn.
      repeat split; auto; constructor.
    + destruct (callback (strip result) (self_attrs w)) as [rc a] eqn:Hcb.
      assert (Hne : strip result <> []) by (rewrite Hstrip; discriminate).
      rewrite (utterance_callback _ _ _ _ _ _ _ _ Hwave Hmodel Hne Hcb) in H.
      inversion H; subst; clear H.
      exists (took self ++ [Callback (strip result)] ++ reported rc).
      cbn [after_utterance trace]. split; [reflexivity|].
      unfold took, closes.
      destruct (print_transcription_time self), rc; cbn;
        repeat split; auto; repeat constructor; intros [?|?]; discriminate.
  - rewrite (utterance_model_raises _ _ _ _ _ _ Hwave Hmodel) in H.
    inversion H; subst; clear H.
    exists [Print (TranscriptionError e)]. cbn. repeat split; auto.
    repeat constructor. intros [?|?]; discriminate.
Qed.

Lemma starts_with_speech_snoc self (fs : list chunk) (d : chunk) :
  starts_with_speech self fs -> starts_with_speech self (fs ++ [d]).
Proof. intros (s & rest & -> & Hs). exists s, (rest ++ [d]). auto. Qed.

(** The inner loop keeps its variables in agreement. *)
Lemma listen_sound self stream c w :
  sound self c ->
  match listen self stream c w with
  | Exited _ c' _ | Blocked c' _ => sound self c'
  | Failed _ _ => True
  end.
Proof.
  revert c w. induction stream as [|[d|b] stream IH]; intros c w Hc;
    cbn [listen].
  - destruct (is_recording (self_attrs w)); exact Hc.
  - destruct (is_recording (self_attrs w)); [|exact Hc].
    destruct (_is_silence self d) as [[|]|e] eqn:Hd; [| |exact I].
    + unfold sound in Hc. destruct (speech_detected c) eqn:Hsd;
        [|apply IH; unfold sound; now rewrite Hsd].
      assert (Hc' : sound self
                {| frames := frames c ++ [d];
                   silence_count := silence_count c + 1;
                   speech_detected := true |})
        by (apply starts_with_speech_snoc, Hc).
      destruct (enough_silence self _) as [[|]|e]; [exact Hc'| |exact I].
      apply IH, Hc'.
    + apply IH. unfold sound in *. cbn [speech_detected frames].
      destruct (speech_detected c).
      * apply starts_with_speech_snoc, Hc.
      * rewrite Hc. exists d, []. auto.
  - apply IH, Hc.
Qed.

Lemma listen_blocked_recording self stream c w c' w' :
  listen self stream c w = Blocked c' w' ->
  is_recording (self_attrs w') = true.
Proof.
  revert c w. induction stream as [|[d|b] stream IH]; intros c w H;
    cbn [listen] in H.
  - destruct (is_recording (self_attrs w)) eqn:Hrec; inversion H; subst.
    exact Hrec.
  - destruct (is_recording (self_attrs w)); [|discriminate].
    destruct (_is_silence self d) as [[|]|e]; [| |discriminate].
    + destruct (speech_detected c); [|eapply IH, H].
      destruct (enough_silence self _) as [[|]|e]; try discriminate.
      eapply IH, H.
    + eapply IH, H.
  - eapply IH, H.
Qed.

Section RunInvariant.

Context (self : SimpleAudioRecorder) (model : wav -> res pystr)
        (callback : pystr -> attrs -> res unit * attrs).

(** A property of the buffers with which the inner loop is left. *)
Variable G : list chunk -> Prop.
Hypothesis G_listen : forall stream w rest c w',
  listen self stream no_capture w = Exited rest c w' ->
  speech_detected c = true -> G (frames c).

(** A property of worlds that the loop keeps: it survives an assignment
    to the flag, the line printed when speech starts, and one utterance on
    such a buffer. *)
Variable P : world -> Prop.
Hypothesis P_assigned : forall b w, P w -> P (assigned b w).
Hypothesis P_detected : forall w, P w -> P (log (Print SpeechDetected) w).
Hypothesis P_utterance : forall fs w w',
  P w -> G fs ->
  transcribe_utterance self model callback fs w = (Ret tt, w') -> P w'.

Lemma pending_invariant stream w stream' w' :
  pending stream w = (stream', w') -> P w -> P w'.
Proof.
  revert w. induction stream as [|[d|b] stream IH]; intros w H Hw;
    simpl in H.
  - inversion H; subst. exact Hw.
  - inversion H; subst. exact Hw.
  - eapply IH; [exact H|]. apply P_assigned, Hw.
Qed.

Lemma listen_invariant stream c w :
  P w -> P (listened_world (listen self stream c w)).
Proof.
  revert c w. induction stream as [|[d|b] stream IH]; intros c w Hw;
    cbn [listen].
  - destruct (is_recording (self_attrs w)); exact Hw.
  - destruct (is_recording (self_attrs w)); [|exact Hw].
    destruct (_is_silence self d) as [[|]|e]; [| |exact Hw].
    + destruct (speech_detected c); [|apply IH, Hw].
      destruct (enough_silence self _) as [[|]|e];
        [exact Hw|apply IH, Hw|exact Hw].
    + apply IH. destruct (speech_detected c); [exact Hw|].
      apply P_detected, Hw.
  - apply IH, P_assigned, Hw.
Qed.

(** The property holds where the loop stops; when the loop returns it has
    found the flag cleared and has stopped and closed the stream; when it
    raises, the property holds there, or it held when [wave] failed on a
    buffer and left the file it could not write. *)
Lemma record_loop_invariant fuel stream w :
  (length stream < fuel)%nat -> P w ->
  match record_loop fuel self model callback stream w with
  | Returned w' =>
      exists w1, w' = log StreamClose (log StreamStop w1)
                 /\ P w1 /\ is_recording (self_attrs w1) = false
  | Reading c w' => P w' /\ is_recording (self_attrs w') = true
  | Raised e w' =>
      P w'
      \/ exists w1 fs, P w1 /\ G fs /\ wave_error self fs = Some e
                       /\ w' = wave_failed w1
  | OutOfFuel => False
  end.
Proof.
  revert stream w. induction fuel as [|fuel IH]; intros stream w Hf Hw; [lia|].
  cbn [record_loop].
  destruct (pending stream w) as [stream1 w1] eqn:Hp.
  pose proof (pending_length _ _ _ _ Hp) as Hlen.
  pose proof (pending_invariant _ _ _ _ Hp Hw) as Hw1.
  destruct (is_recording (self_attrs w1)) eqn:Hrec; [|now exists w1].
  pose proof (listen_invariant stream1 no_capture w1 Hw1) as Hw2.
  destruct (listen self stream1 no_capture w1) as [rest c w2|c w2|e w2] eqn:Hl;
    cbn [listened_world] in Hw2.
  - assert (Hrest : (length rest < fuel)%nat).
    { destruct (pending_settled _ _ _ _ Hp) as [->|(d & s & ->)].
      - cbn [listen] in Hl. rewrite Hrec in Hl. discriminate.
      - pose proof (listen_exits_shorter _ _ _ _ _ _ _ _ Hrec Hl).
        simpl length in Hlen. lia. }
    destruct (truthy (frames c) && speech_detected c) eqn:Hb;
      [|apply IH; assumption].
    apply andb_true_iff in Hb as [_ Hsd].
    pose proof (G_listen _ _ _ _ _ Hl Hsd) as Hc.
    destruct (transcribe_utterance self model callback (frames c) w2)
      as [[[]|e] w3] eqn:Hu.
    + apply IH; [exact Hrest|]. eapply P_utterance; eassumption.
    + apply utterance_raises in Hu. destruct Hu as [Hwave ->].
      right. exists w2, (frames c). auto.
  - split; [exact Hw2|]. eapply listen_blocked_recording, Hl.
  - left. exact Hw2.
Qed.

End RunInvariant.

Lemma listen_starts_with_speech self stream w rest c w' :
  listen self stream no_capture w = Exited rest c w' ->
  speech_detected c = true -> starts_with_speech self (frames c).
Proof.
  intros Hl Hsd.
  pose proof (listen_sound self stream no_capture w eq_refl) as Hc.
  rewrite Hl in Hc. unfold sound in Hc. now rewrite Hsd in Hc.
Qed.


(** With no channels [wave] cannot write the buffer: the run raises its
    error and the file made for the buffer is left, empty. *)
Lemma wave_error_leaves_the_file :
  _record_audio (with_channels 0 default_recorder) returns_hi callback_returns
    [Read loud; Assign false] recording_world
  = Raised (Exception "wave.Error" "# channels not specified")
      {| self_attrs := {| is_recording := false;
                          recording_thread := Some 1%nat |};
         tmpfiles := {[ 0%nat := None ]};
         trace := [StreamOpen; Print ListeningForSpeech; Print SpeechDetected;
                   TempFile 0] |}.
Proof. vm_compute. reflexivity. Qed.

(** X9: every buffer a run writes and hands to the model is non-empty and
    starts with a chunk of speech: silence before the first speech is never
    part of an utterance, on any input. *)
Theorem every_utterance_starts_with_speech
    (self : SimpleAudioRecorder) (model : wav -> res pystr)
    (callback : pystr -> attrs -> res unit * attrs)
    (stream : list input) (w : world) :
  exists new,
    written (_record_audio self model callback stream w)
    = utterances (trace w) ++ new
    /\ Forall (starts_with_speech self) new.
Proof.
  unfold _record_audio. fold (opened w).
  pose proof (record_loop_invariant self model callback
                (starts_with_speech self) (listen_starts_with_speech self)
                (fun w1 => exists new,
                     utterances (trace w1) = utterances (trace w) ++ new
                     /\ Forall (starts_with_speech self) new)) as H.
  specialize (H (fun b w1 Hw1 => Hw1)).
  assert (Hd : forall w1,
            (exists new, utterances (trace w1) = utterances (trace w) ++ new
                         /\ Forall (starts_with_speech self) new) ->
            exists new,
              utterances (trace (log (Print SpeechDetected) w1))
              = utterances (trace w) ++ new
              /\ Forall (starts_with_speech self) new).
  { intros w1 Hw1. now rewrite detected_utterances. }
  assert (Hu : forall fs w1 w2,
            (exists new, utterances (trace w1) = utterances (trace w) ++ new
                         /\ Forall (starts_with_speech self) new) ->
            starts_with_speech self fs ->
            transcribe_utterance self model callback fs w1 = (Ret tt, w2) ->
            exists new, utterances (trace w2) = utterances (trace w) ++ new
                        /\ Forall (starts_with_speech self) new).
  { intros fs w1 w2 (new & Hnew & Hgood) Hfs Hrun.
    apply utterance_shows in Hrun. destruct Hrun as (_ & Hut & _).
    exists (new ++ [fs]). rewrite Hut, Hnew, <- app_assoc.
    split; [reflexivity|]. apply Forall_app. split; [exact Hgood|].
    constructor; [exact Hfs|constructor]. }
  assert (H0 : exists new,
             utterances (trace (opened w)) = utterances (trace w) ++ new
             /\ Forall (starts_with_speech self) new).
  { exists []. rewrite opened_utterances, app_nil_r.
    split; [reflexivity|constructor]. }
  specialize (H Hd Hu (S (length stream)) stream (opened w)
                (Nat.lt_succ_diag_r _) H0).
  unfold written.
  destruct (record_loop _ _ _ _ _ _) as [w'|c w'|e w'|]; [| | |contradiction];
    cbn [final_world].
  - destruct H as (w1 & -> & (new & Hnew & Hgood) & _). exists new.
    split; [|exact Hgood]. unfold log. cbn [trace].
    rewrite !utterances_app, Hnew. cbn. now rewrite !app_nil_r.
  - apply H.
  - destruct H as [H|(w1 & fs & H & _ & _ & ->)]; [exact H|].
    rewrite wave_failed_utterances. exact H.
Qed.

Lemma wave_failed_transcribed (w : world) :
  transcribed (trace (wave_failed w)) = transcribed (trace w).
Proof.
  unfold wave_failed, log. cbn [trace with_files].
  rewrite transcribed_app. cbn. now rewrite app_nil_r.
Qed.

(** X10: in every run the model is called exactly once for each buffer
    written, and the callback at most once for each. *)
Theorem one_model_call_per_utterance
    (self : SimpleAudioRecorder) (model : wav -> res pystr)
    (callback : pystr -> attrs -> res unit * attrs)
    (stream : list input) (w : world) :
  exists w' k,
    final_world (_record_audio self model callback stream w) = Some w'
    /\ length (utterances (trace w')) = (length (utterances (trace w)) + k)%nat
    /\ length (transcribed (trace w')) = (length (transcribed (trace w)) + k)%nat
    /\ (length (callbacks (trace w')) <= length (callbacks (trace w)) + k)%nat.
Proof.
  set (P := fun w1 : world => exists k,
     length (utterances (trace w1)) = (length (utterances (trace w)) + k)%nat
     /\ length (transcribed (trace w1))
        = (length (transcribed (trace w)) + k)%nat
     /\ (length (callbacks (trace w1))
         <= length (callbacks (trace w)) + k)%nat).
  assert (Hlog : forall m w1, P w1 -> P (log (Print m) w1)).
  { intros m w1 (k & H1 & H2 & H3). exists k. unfold log. cbn [trace].
    rewrite utterances_app, transcribed_app, callbacks_app, !length_app.
    cbn. lia. }
  assert (Hu : forall fs w1 w2, P w1 -> True ->
            transcribe_utterance self model callback fs w1 = (Ret tt, w2) ->
            P w2).
  { intros fs w1 w2 (k & H1 & H2 & H3) _ Hrun.
    apply utterance_trace in Hrun.
    destruct Hrun as (mid & Htr & Hm1 & Hm2 & Hm3 & _).
    exists (S k). rewrite Htr.
    rewrite !utterances_app, !transcribed_app, !callbacks_app, !length_app.
    rewrite Hm1, Hm2. cbn. lia. }
  assert (H0 : P (opened w)).
  { exists 0%nat. unfold opened, log. cbn [trace].
    rewrite !utterances_app, !transcribed_app, !callbacks_app, !length_app.
    cbn. lia. }
  unfold _record_audio. fold (opened w).
  pose proof (record_loop_invariant self model callback (fun _ => True)
                (fun _ _ _ _ _ _ _ => I) P
                (fun b w1 Hw1 => Hw1) (Hlog SpeechDetected) Hu
                (S (length stream)) stream (opened w)
                (Nat.lt_succ_diag_r _) H0) as H.
  destruct (record_loop _ _ _ _ _ _) as [w'|c w'|e w'|]; [| | |contradiction];
    cbn [final_world].
  - destruct H as (w1 & -> & (k & H1 & H2 & H3) & _).
    eexists _, k. split; [reflexivity|]. unfold log. cbn [trace].
    rewrite !utterances_app, !transcribed_app, !callbacks_app, !length_app.
    cbn. lia.
  - destruct H as [(k & Hk) _]. now exists w', k.
  - destruct H as [(k & Hk)|(w1 & fs & (k & Hk) & _ & _ & ->)].
    + now exists w', k.
    + eexists _, k. split; [reflexivity|].
      rewrite wave_failed_utterances, wave_failed_transcribed,
        wave_failed_callbacks. exact Hk.
Qed.

(** X11: [_record_audio] stops and closes the stream exactly when it
    returns: a run that returns has found [is_recording] cleared and ends
    with the two calls on the stream, and a run that waits for a chunk or
    that raises has not stopped or closed the stream: an exception leaves
    it open. *)
Theorem stream_is_closed_only_on_return
    (self : SimpleAudioRecorder) (model : wav -> res pystr)
    (callback : pystr -> attrs -> res unit * attrs)
    (stream : list input) (w : world) :
  match _record_audio self model callback stream w with
  | Returned w' =>
      exists added,
        trace w' = trace w ++ added ++ [StreamStop; StreamClose]
        /\ Forall (fun ev => ~ closes ev) added
        /\ is_recording (self_attrs w') = false
  | Reading _ w' | Raised _ w' =>
      exists added,
        trace w' = trace w ++ added
        /\ Forall (fun ev => ~ closes ev) added
  | OutOfFuel => False
  end.
Proof.
  set (P := fun w1 : world => exists added,
     trace w1 = trace w ++ added /\ Forall (fun ev => ~ closes ev) added).
  assert (Hlog : forall ev w1, ~ closes ev -> P w1 -> P (log ev w1)).
  { intros ev w1 Hev (added & Hadd & Hopen). exists (added ++ [ev]).
    unfold log. cbn [trace]. rewrite Hadd, <- app_assoc.
    split; [reflexivity|]. apply Forall_app. split; [exact Hopen|].
    constructor; [exact Hev|constructor]. }
  assert (Hprint : forall m, ~ closes (Print m))
    by (intros m [?|?]; discriminate).
  assert (Hu : forall fs w1 w2, P w1 -> True ->
            transcribe_utterance self model callback fs w1 = (Ret tt, w2) ->
            P w2).
  { intros fs w1 w2 (added & Hadd & Hopen) _ Hrun.
    apply utterance_trace in Hrun.
    destruct Hrun as (mid & Htr & _ & _ & _ & Hmid).
    eexists. rewrite Htr, Hadd, <- app_assoc. split; [reflexivity|].
    repeat (apply Forall_app; split); try assumption;
      repeat constructor; intros [?|?]; discriminate. }
  assert (H0 : P (opened w)).
  { unfold opened. apply Hlog; [apply Hprint|].
    apply Hlog; [intros [?|?]; discriminate|].
    exists []. rewrite app_nil_r. split; [reflexivity|constructor]. }
  unfold _record_audio. fold (opened w).
  pose proof (record_loop_invariant self model callback (fun _ => True)
                (fun _ _ _ _ _ _ _ => I) P
                (fun b w1 Hw1 => Hw1) (fun w1 => Hlog _ w1 (Hprint _)) Hu
                (S (length stream)) stream (opened w)
                (Nat.lt_succ_diag_r _) H0) as H.
  destruct (record_loop _ _ _ _ _ _) as [w'|c w'|e w'|]; [| | |contradiction].
  - destruct H as (w1 & -> & (added & Hadd & Hopen) & Hrec).
    exists added. unfold log. cbn [trace self_attrs].
    rewrite Hadd, <- !app_assoc. auto.
  - apply H.
  - destruct H as [H|(w1 & fs & Hw1 & _ & _ & ->)]; [exact H|].
    unfold wave_failed.
    apply (Hlog (TempFile (temp_name w1))
             (with_files (<[temp_name w1 := None]> (tmpfiles w1)) w1)).
    + intros [?|?]; discriminate.
    + exact Hw1.
Qed.

(** ** The buffers against the input *)

Lemma pending_same_reads (stream stream' : list input) (w w' : world) :
  pending stream w = (stream', w') -> reads stream' = reads stream.
Proof.
  revert w. induction stream as [|[d|b] stream IH]; intros w H; simpl in H.
  - now inversion H.
  - now inversion H.
  - apply IH in H. exact H.
Qed.

(** What the inner loop has added to the buffer, followed by what is left
    of the input, is drawn from the input in order. *)
Lemma listen_keeps_order self stream c w rest c' w' :
  listen self stream c w = Exited rest c' w' ->
  exists mid,
    frames c' = frames c ++ mid
    /\ (mid ++ reads rest) `sublist_of` reads stream.
Proof.
  revert c w. induction stream as [|[d|b] stream IH]; intros c w H;
    cbn [listen] in H.
  - destruct (is_recording (self_attrs w)); inversion H; subst.
    exists []. now rewrite app_nil_r.
  - destruct (is_recording (self_attrs w));
      [|inversion H; subst; exists []; now rewrite app_nil_r].
    assert (Hkeep : forall c1,
              frames c1 = frames c ++ [d] ->
              listen self stream c1 w = Exited rest c' w' ->
              exists mid, frames c' = frames c ++ mid
                          /\ (mid ++ reads rest) `sublist_of` reads (Read d :: stream)).
    { intros c1 Hc1 Hl. apply IH in Hl. destruct Hl as (mid & Hf & Hsub).
      exists (d :: mid). rewrite Hf, Hc1, <- app_assoc. split; [reflexivity|].
      cbn [reads app]. now apply sublist_skip. }
    destruct (_is_silence self d) as [[|]|e]; [| |discriminate].
    + destruct (speech_detected c).
      * destruct (enough_silence self _) as [[|]|e]; [| |discriminate].
        -- inversion H; subst. exists [d]. cbn [frames reads app]. auto.
        -- eapply Hkeep; [|exact H]. reflexivity.
      * apply IH in H. destruct H as (mid & Hf & Hsub). exists mid.
        split; [exact Hf|]. cbn [reads]. now apply sublist_cons.
    + destruct (speech_detected c).
      * eapply Hkeep; [|exact H]. reflexivity.
      * assert (Hl : exists w1, listen self stream
                  {| frames := frames c ++ [d]; silence_count := 0;
                     speech_detected := true |} w1 = Exited rest c' w')
          by (eexists; exact H).
        destruct Hl as [w1 Hl]. apply IH in Hl.
        destruct Hl as (mid & Hf & Hsub). cbn [frames] in Hf.
        exists (d :: mid). rewrite Hf, <- app_assoc. split; [reflexivity|].
        cbn [reads app]. now apply sublist_skip.
  - apply IH in H. exact H.
Qed.

(** X13: the buffers a run writes are drawn from the chunks of the input,
    in the order in which the chunks were read: laid end to end they are a
    sublist of the chunks read, so no chunk is used twice, invented or
    moved. *)
Theorem utterances_keep_the_order_of_the_input
    (self : SimpleAudioRecorder) (model : wav -> res pystr)
    (callback : pystr -> attrs -> res unit * attrs)
    (stream : list input) (w : world) :
  exists new,
    written (_record_audio self model callback stream w)
    = utterances (trace w) ++ new
    /\ concat new `sublist_of` reads stream.
Proof.
  unfold _record_audio. fold (opened w).
  rewrite <- (opened_utterances w).
  generalize (opened w) as w0. generalize (Nat.lt_succ_diag_r (length stream)).
  generalize (S (length stream)) as fuel. clear w.
  intros fuel. revert stream.
  induction fuel as [|fuel IH]; intros stream Hf w; [lia|].
  cbn [record_loop].
  destruct (pending stream w) as [stream1 w1] eqn:Hp.
  pose proof (pending_length _ _ _ _ Hp) as Hlen.
  destruct (pending_trace _ _ _ _ Hp) as [Htr _].
  rewrite <- (pending_same_reads _ _ _ _ Hp).
  destruct (is_recording (self_attrs w1)) eqn:Hrec.
  - pose proof (listen_quiet self stream1 no_capture w1) as [_ Hq].
    destruct (listen self stream1 no_capture w1) as [rest c w2|c w2|e w2]
      eqn:Hl; cbn [listened_world] in Hq.
    + assert (Hrest : (length rest < fuel)%nat).
      { destruct (pending_settled _ _ _ _ Hp) as [->|(d & s & ->)].
        - cbn [listen] in Hl. rewrite Hrec in Hl. discriminate.
        - pose proof (listen_exits_shorter _ _ _ _ _ _ _ _ Hrec Hl).
          simpl length in Hlen. lia. }
      destruct (listen_keeps_order _ _ _ _ _ _ _ Hl) as (mid & Hmid & Hsub).
      cbn [no_capture frames app] in Hmid.
      destruct (truthy (frames c) && speech_detected c).
      * destruct (transcribe_utterance self model callback (frames c) w2)
          as [[[]|e] w3] eqn:Hu.
        -- apply utterance_shows in Hu. destruct Hu as (_ & Hut & _).
           destruct (IH rest Hrest w3) as (new & Hnew & Hord).
           exists (frames c :: new).
           rewrite Hnew, Hut, Hq, Htr, <- app_assoc. split; [reflexivity|].
           cbn [concat]. rewrite Hmid. etransitivity; [|exact Hsub].
           apply sublist_app; [reflexivity|exact Hord].
        -- apply utterance_raises in Hu. destruct Hu as [_ ->].
           exists []. unfold written. cbn [final_world concat].
           rewrite wave_failed_utterances, Hq, Htr, app_nil_r.
           split; [reflexivity|apply sublist_nil_l].
      * destruct (IH rest Hrest w2) as (new & Hnew & Hord).
        exists new. rewrite Hnew, Hq, Htr. split; [reflexivity|].
        etransitivity; [exact Hord|]. etransitivity; [|exact Hsub].
        now apply sublist_inserts_l.
    + exists []. unfold written. cbn [final_world concat].
      rewrite Hq, Htr, app_nil_r. split; [reflexivity|apply sublist_nil_l].
    + exists []. unfold written. cbn [final_world concat].
      rewrite Hq, Htr, app_nil_r. split; [reflexivity|apply sublist_nil_l].
  - exists []. unfold written, log. cbn [final_world trace concat].
    rewrite !utterances_app, Htr. cbn. rewrite !app_nil_r.
    split; [reflexivity|apply sublist_nil_l].
Qed.

(** ** Silence, pauses and several utterances *)

(** X14: silence alone never reaches the model: over an input of silent
    chunks the run writes nothing, makes no file and calls nothing, and
    waits for the next chunk with an empty buffer. *)
Theorem silence_alone_is_never_transcribed
    (self : SimpleAudioRecorder) (model : wav -> res pystr)
    (callback : pystr -> attrs -> res unit * attrs)
    (cs : list chunk) (w : world) :
  is_recording (self_attrs w) = true ->
  Forall (silent self) cs ->
  _record_audio self model callback (map Read cs) w
  = Reading no_capture (opened w).
Proof.
  intros Hrec Hcs. unfold _record_audio. fold (opened w).
  rewrite record_loop_over_silence by exact Hcs.
  now rewrite opened_attrs, Hrec.
Qed.

Lemma silence_alone_is_never_transcribed_witness :
  _record_audio default_recorder returns_hi callback_returns
    (map Read (repeat quiet 40)) recording_world
  = Reading no_capture (opened recording_world).
Proof.
  apply (silence_alone_is_never_transcribed default_recorder returns_hi
           callback_returns (repeat quiet 40) recording_world).
  - reflexivity.
  - apply quiet_is_silent.
Defined.

(** From inside an utterance: more speech, then the silence that ends
    it. *)
Lemma listen_finish self (sp tr : list chunk) (rest : list input)
    (fs : list chunk) (n : Z) (w : world) :
  finite_limit self = true ->
  is_recording (self_attrs w) = true ->
  Forall (speech self) sp -> sp <> [] ->
  Forall (silent self) tr ->
  Z.of_nat (length tr) = frames_to_break self ->
  listen self (map Read (sp ++ tr) ++ rest)
    {| frames := fs; silence_count := n; speech_detected := true |} w
  = Exited rest
      {| frames := fs ++ sp ++ tr; silence_count := frames_to_break self;
         speech_detected := true |} w.
Proof.
  intros Hc Hrec Hsp Hne Htr Hlen.
  pose proof (frames_to_break_pos self) as Hpos.
  destruct (exists_last (l := tr)) as (tr' & d & ->).
  { intros ->. simpl in Hlen. lia. }
  rewrite length_app in Hlen. simpl length in Hlen.
  apply Forall_app in Htr as [Htr' Hd].
  inversion Hd as [|? ? Hd' _]; subst.
  destruct sp as [|s sp']; [congruence|].
  inversion Hsp as [|? ? Hs Hsp']; subst.
  rewrite !map_app, <- !app_assoc. cbn [map app].
  rewrite listen_speech_one by assumption.
  cbn [speech_detected frames].
  rewrite listen_speech by assumption.
  rewrite listen_trailing by (assumption || lia).
  rewrite listen_break by (assumption || lia).
  rewrite <- !app_assoc. cbn [app]. do 2 f_equal. lia.
Qed.

Section Composition.

Context (self : SimpleAudioRecorder) (model : wav -> res pystr)
        (callback : pystr -> attrs -> res unit * attrs).

(** The attributes after one utterance are the ones before it or the
    ones the callback left. *)
Lemma utterance_attrs fs w w' :
  transcribe_utterance self model callback fs w = (Ret tt, w') ->
  self_attrs w' = self_attrs w
  \/ exists text, self_attrs w' = snd (callback text (self_attrs w)).
Proof.
  intros H.
  destruct (utterance_shows _ _ _ _ _ _ H) as (Hwave & _).
  destruct (model (wave_of self fs)) as [result|e] eqn:Hmodel.
  - destruct (strip result) as [|ch text] eqn:Hstrip.
    + rewrite (utterance_empty_text _ _ _ _ _ _ Hwave Hmodel Hstrip) in H.
      inversion H; subst. now left.
    + destruct (callback (strip result) (self_attrs w)) as [rc a] eqn:Hcb.
      assert (Hne : strip result <> []) by (rewrite Hstrip; discriminate).
      rewrite (utterance_callback _ _ _ _ _ _ _ _ Hwave Hmodel Hne Hcb) in H.
      inversion H; subst. right. exists (strip result). now rewrite Hcb.
  - rewrite (utterance_model_raises _ _ _ _ _ _ Hwave Hmodel) in H.
    inversion H; subst. now left.
Qed.

End Composition.

(** X15: a pause shorter than the count that ends an utterance stays
    inside the utterance: speech, fewer than [frames_to_break] silent
    chunks, speech again and then [frames_to_break] silent chunks are
    written as one buffer that holds them all, the pause included. *)
Theorem short_pause_stays_inside_utterance
    (self : SimpleAudioRecorder) (model : wav -> res pystr)
    (callback : pystr -> attrs -> res unit * attrs) (w : world)
    (lead sp1 pause sp2 tr : list chunk) :
  finite_limit self = true ->
  wave_error self (sp1 ++ pause ++ sp2 ++ tr) = None ->
  is_recording (self_attrs w) = true ->
  Forall (silent self) lead ->
  Forall (speech self) sp1 -> sp1 <> [] ->
  Forall (silent self) pause ->
  Z.of_nat (length pause) < frames_to_break self ->
  Forall (speech self) sp2 -> sp2 <> [] ->
  Forall (silent self) tr ->
  Z.of_nat (length tr) = frames_to_break self ->
  written (_record_audio self model callback
             (map Read (lead ++ sp1 ++ pause ++ (sp2 ++ tr))) w)
  = utterances (trace w) ++ [sp1 ++ pause ++ sp2 ++ tr].
Proof.
  intros Hc Hwave Hrec Hlead Hsp1 Hne1 Hpause Hlt Hsp2 Hne2 Htr Hlen.
  destruct (utterance_returns self model callback
              (sp1 ++ pause ++ sp2 ++ tr)
              (log (Print SpeechDetected) (opened w)) Hwave)
    as (mid & a & Hu).
  assert (Hrun : _record_audio self model callback
                   (map Read (lead ++ sp1 ++ pause ++ (sp2 ++ tr))) w
                 = record_loop 1 self model callback []
                     (after_utterance (sp1 ++ pause ++ sp2 ++ tr) mid a
                        (log (Print SpeechDetected) (opened w)))).
  { eapply (record_audio_step self model callback _ _
              (map Read (lead ++ sp1 ++ pause ++ (sp2 ++ tr))) (opened w) []
              {| frames := sp1 ++ pause ++ sp2 ++ tr;
                 silence_count := frames_to_break self;
                 speech_detected := true |}).
    - destruct lead; [destruct sp1; [congruence|]|]; reflexivity.
    - now rewrite opened_attrs.
    - replace (map Read (lead ++ sp1 ++ pause ++ (sp2 ++ tr)))
        with (map Read (lead ++ sp1 ++ pause) ++ map Read (sp2 ++ tr) ++ [])
        by (rewrite app_nil_r, <- map_app, <- !app_assoc; reflexivity).
      rewrite (listen_capturing self lead sp1 pause) by auto.
      rewrite listen_finish by assumption.
      rewrite <- !app_assoc. reflexivity.
    - cbn [frames speech_detected]. destruct sp1; [congruence|reflexivity].
    - exact Hu. }
  destruct (record_loop_silence self model callback 0 []
              (after_utterance (sp1 ++ pause ++ sp2 ++ tr) mid a
                 (log (Print SpeechDetected) (opened w)))
              (List.Forall_nil (silent self))) as (w' & Hfin & Hut & _).
  cbn [map] in Hfin. unfold written. rewrite Hrun, Hfin, Hut.
  apply utterance_shows in Hu. destruct Hu as (_ & -> & _).
  now rewrite detected_utterances, opened_utterances.
Qed.

Lemma short_pause_stays_inside_utterance_witness :
  written (_record_audio default_recorder returns_hi callback_returns
             (map Read ([quiet] ++ [loud] ++ repeat quiet 31
                        ++ ([loud] ++ repeat quiet 32))) recording_world)
  = utterances (trace recording_world)
    ++ [[loud] ++ repeat quiet 31 ++ [loud] ++ repeat quiet 32].
Proof.
  apply (short_pause_stays_inside_utterance default_recorder returns_hi
           callback_returns recording_world [quiet] [loud] (repeat quiet 31)
           [loud] (repeat quiet 32)).
  - reflexivity.
  - vm_compute. reflexivity.
  - reflexivity.
  - constructor; [exact quiet_silent|constructor].
  - constructor; [exact loud_speech|constructor].
  - discriminate.
  - apply quiet_is_silent.
  - vm_compute. reflexivity.
  - constructor; [exact loud_speech|constructor].
  - discriminate.
  - apply quiet_is_silent.
  - vm_compute. reflexivity.
Defined.

(** X16: utterances follow one another: when the callback leaves a
    recording recorder recording, two utterances in a row are written as
    two buffers, in the order in which they were spoken, each with its own
    speech and its own trailing silence. *)
Theorem two_utterances_are_two_buffers
    (self : SimpleAudioRecorder) (model : wav -> res pystr)
    (callback : pystr -> attrs -> res unit * attrs) (w : world)
    (lead1 sp1 tr1 lead2 sp2 tr2 : list chunk) :
  (forall text a, is_recording a = true ->
                  is_recording (snd (callback text a)) = true) ->
  finite_limit self = true ->
  wave_error self (sp1 ++ tr1) = None ->
  wave_error self (sp2 ++ tr2) = None ->
  is_recording (self_attrs w) = true ->
  Forall (silent self) lead1 -> Forall (speech self) sp1 -> sp1 <> [] ->
  Forall (silent self) tr1 -> Z.of_nat (length tr1) = frames_to_break self ->
  Forall (silent self) lead2 -> Forall (speech self) sp2 -> sp2 <> [] ->
  Forall (silent self) tr2 -> Z.of_nat (length tr2) = frames_to_break self ->
  written (_record_audio self model callback
             (map Read (lead1 ++ sp1 ++ tr1) ++ map Read (lead2 ++ sp2 ++ tr2))
             w)
  = utterances (trace w) ++ [sp1 ++ tr1; sp2 ++ tr2].
Proof.
  intros Hcb Hc Hwave1 Hwave2 Hrec Hl1 Hs1 Hn1 Ht1 Hlen1 Hl2 Hs2 Hn2 Ht2 Hlen2.
  destruct (record_audio_utterance self model callback lead1 sp1 tr1
              Hl1 Hs1 Hn1 Ht1 (map Read (lead2 ++ sp2 ++ tr2)) w
              Hc Hwave1 Hrec Hlen1) as (w1 & Hu1 & Hrun1).
  assert (Hrec1 : is_recording (self_attrs w1) = true).
  { destruct (utterance_attrs self model callback _ _ _ Hu1)
      as [->|[text ->]]; [exact Hrec|]. apply Hcb. exact Hrec. }
  rewrite Hrun1.
  rewrite (record_loop_next_utterance self model callback _ lead2 sp2 tr2 w1);
    try assumption; [|rewrite length_map; lia].
  apply utterance_shows in Hu1. destruct Hu1 as (_ & -> & _).
  rewrite detected_utterances, opened_utterances, <- app_assoc.
  reflexivity.
Qed.

Lemma two_utterances_are_two_buffers_witness :
  written (_record_audio default_recorder returns_hi callback_returns
             (map Read ([quiet] ++ [loud] ++ repeat quiet 32)
              ++ map Read ([] ++ [loud; loud] ++ repeat quiet 32))
             recording_world)
  = utterances (trace recording_world)
    ++ [[loud] ++ repeat quiet 32; [loud; loud] ++ repeat quiet 32].
Proof.
  apply (two_utterances_are_two_buffers default_recorder returns_hi
           callback_returns recording_world
           [quiet] [loud] (repeat quiet 32) [] [loud; loud] (repeat quiet 32)).
  - intros text a Ha. exact Ha.
  - reflexivity.
  - vm_compute. reflexivity.
  - vm_compute. reflexivity.
  - reflexivity.
  - constructor; [exact quiet_silent|constructor].
  - constructor; [exact loud_speech|constructor].
  - discriminate.
  - apply quiet_is_silent.
  - vm_compute. reflexivity.
  - constructor.
  - exact loud_loud_speech.
  - discriminate.
  - apply quiet_is_silent.
  - vm_compute. reflexivity.
Defined.

(** X17: when another thread clears the flag while the loop waits for
    speech, the run returns without writing or transcribing anything and
    stops and closes the stream; the chunks that follow are not read. *)
Theorem stop_while_waiting_returns
    (self : SimpleAudioRecorder) (model : wav -> res pystr)
    (callback : pystr -> attrs -> res unit * attrs) (w : world)
    (lead more : list chunk) :
  is_recording (self_attrs w) = true ->
  Forall (silent self) lead ->
  _record_audio self model callback
    (map Read lead ++ Assign false :: map Read more) w
  = Returned (log StreamClose (log StreamStop (assigned false (opened w)))).
Proof.
  intros Hrec Hlead. unfold _record_audio. fold (opened w).
  assert (Hmore : forall w1, pending (map Read more) w1 = (map Read more, w1))
    by (intros w1; destruct more; reflexivity).
  assert (Hoff : forall fuel,
            record_loop (S fuel) self model callback (map Read more)
              (assigned false (opened w))
            = Returned (log StreamClose
                          (log StreamStop (assigned false (opened w))))).
  { intros fuel. cbn [record_loop]. rewrite Hmore. reflexivity. }
  destruct lead as [|d lead].
  - cbn [map app record_loop pending]. rewrite Hmore. reflexivity.
  - rewrite length_app. cbn [map app length record_loop pending].
    rewrite opened_attrs, Hrec.
    change (Read d :: map Read lead ++ Assign false :: map Read more)
      with (map Read (d :: lead) ++ Assign false :: map Read more).
    rewrite listen_leading by (assumption || reflexivity).
    cbn [listen].
    assert (Hl : listen self (map Read more) no_capture
                   (assigned false (opened w))
                 = Exited (map Read more) no_capture
                     (assigned false (opened w)))
      by (destruct more; reflexivity).
    rewrite Hl. cbn [no_capture frames truthy andb].
    rewrite Nat.add_succ_r. apply Hoff.
Qed.

Lemma stop_while_waiting_returns_witness :
  _record_audio default_recorder returns_hi callback_returns
    (map Read [quiet; quiet] ++ Assign false :: map Read [loud]) recording_world
  = Returned (log StreamClose
                (log StreamStop (assigned false (opened recording_world)))).
Proof.
  apply (stop_while_waiting_returns default_recorder returns_hi
           callback_returns recording_world [quiet; quiet] [loud]).
  - reflexivity.
  - apply (quiet_is_silent 2).
Defined.

(** ** The callback of [awaken] *)

Lemma stop_on_recording_thread (env : threading) (a : attrs) :
  recording_thread a = Some (current_thread env) ->
  stop env a = (Exc (RuntimeError "cannot join current thread"),
                set_is_recording false a).
Proof.
  intros Ht. unfold stop, Thread_is_alive, Thread_join, set_is_recording.
  cbn [recording_thread]. rewrite Ht.
  destruct (decide (current_thread env = current_thread env));
    [reflexivity|congruence].
Qed.

Lemma stop_off_recording_thread (env : threading) (a : attrs) :
  recording_thread a <> Some (current_thread env) ->
  stop env a = (Ret tt, set_is_recording false a).
Proof.
  intros Ht. unfold stop, Thread_is_alive, Thread_join.
  cbn [recording_thread set_is_recording].
  destruct (recording_thread a) as [t|]; [|reflexivity].
  destruct (decide (t = current_thread env)); [congruence|].
  destruct (other_alive env t); reflexivity.
Qed.

Lemma process_text_answered (env : threading) (mentions : pystr -> res bool)
    (assistant : pystr -> res pystr) (text output : pystr) (a : attrs) :
  recording_thread a <> Some (current_thread env) ->
  is_recording a = true ->
  mentions text = Ret true ->
  assistant text = Ret output ->
  process_text env mentions assistant text a
  = ([Heard text; Response output], a).
Proof.
  intros Ht Hrec Hm Ha. unfold process_text.
  rewrite Hm, (stop_off_recording_thread env a Ht), Ha.
  unfold start, set_is_recording.
  cbn [recording_thread]. destruct a as [r t]. cbn in Hrec. subst r.
  reflexivity.
Qed.

(** X19: on the recording thread, where the capture loop calls it,
    [process_text] never asks the assistant: no text yields a response,
    and for every text that names the assistant [recorder.stop()] raises,
    the handler prints the error, and the recorder is left stopped. *)
Theorem process_text_never_answers_on_recording_thread
    (env : threading) (mentions : pystr -> res bool)
    (assistant : pystr -> res pystr) (text : pystr) (a : attrs) :
  recording_thread a = Some (current_thread env) ->
  (forall output,
      ~ In (Response output) (fst (process_text env mentions assistant text a)))
  /\ (mentions text = Ret true ->
      process_text env mentions assistant text a
      = ([Heard text; Error (RuntimeError "cannot join current thread")],
         set_is_recording false a)).
Proof.
  intros Ht.
  unfold process_text. rewrite (stop_on_recording_thread env a Ht). split.
  - intros output. destruct (mentions text) as [[|]|e]; cbn;
      intros [H|[H|H]]; try discriminate; exact H.
  - intros ->. reflexivity.
Qed.

Lemma process_text_never_answers_on_recording_thread_witness :
  (forall output,
      ~ In (Response output)
          (fst (process_text loop_thread (fun _ => Ret true) returns_hi_text
                  [104; 105]%N (self_attrs recording_world))))
  /\ ((fun _ : pystr => Ret true) [104; 105]%N = Ret true ->
      process_text loop_thread (fun _ => Ret true) returns_hi_text
        [104; 105]%N (self_attrs recording_world)
      = ([Heard [104; 105]%N;
          Error (RuntimeError "cannot join current thread")],
         set_is_recording false (self_attrs recording_world))).
Proof.
  apply (process_text_never_answers_on_recording_thread loop_thread
           (fun _ => Ret true) returns_hi_text [104; 105]%N
           (self_attrs recording_world)).
  reflexivity.
Defined.

(** X20: on any other thread [process_text] does what it is written for:
    for a text that names the assistant it stops the recorder, asks the
    assistant, prints the response and starts the recorder again; a
    recorder that was recording has the same attributes afterwards. *)
Theorem process_text_answers_off_recording_thread
    (env : threading) (mentions : pystr -> res bool)
    (assistant : pystr -> res pystr) (text output : pystr) (a : attrs) :
  recording_thread a <> Some (current_thread env) ->
  is_recording a = true ->
  mentions text = Ret true ->
  assistant text = Ret output ->
  process_text env mentions assistant text a
  = ([Heard text; Response output], a).
Proof. apply process_text_answered. Qed.

Lemma process_text_answers_off_recording_thread_witness :
  process_text main_thread (fun _ => Ret true) returns_hi_text [104; 105]%N
    (self_attrs recording_world)
  = ([Heard [104; 105]%N; Response hi_padded], self_attrs recording_world).
Proof.
  apply (process_text_answers_off_recording_thread main_thread
           (fun _ => Ret true) returns_hi_text [104; 105]%N hi_padded
           (self_attrs recording_world)).
  - discriminate.
  - reflexivity.
  - reflexivity.
  - reflexivity.
Defined.

(** X21: when the assistant raises, [process_text] prints the error and
    returns with [recorder.start()] skipped: the recorder it stopped is
    left stopped. *)
Theorem assistant_error_leaves_recorder_stopped
    (env : threading) (mentions : pystr -> res bool)
    (assistant : pystr -> res pystr) (text : pystr) (e : exn) (a : attrs) :
  recording_thread a <> Some (current_thread env) ->
  mentions text = Ret true ->
  assistant text = Exc e ->
  process_text env mentions assistant text a
  = ([Heard text; Error e], set_is_recording false a).
Proof.
  intros Ht Hm Ha. unfold process_text.
  rewrite Hm, (stop_off_recording_thread env a Ht), Ha. reflexivity.
Qed.

Lemma assistant_error_leaves_recorder_stopped_witness :
  process_text main_thread (fun _ => Ret true) assistant_fails [104; 105]%N
    (self_attrs recording_world)
  = ([Heard [104; 105]%N; Error (Exception "ValueError" "no command")],
     set_is_recording false (self_attrs recording_world)).
Proof.
  apply (assistant_error_leaves_recorder_stopped main_thread
           (fun _ => Ret true) assistant_fails [104; 105]%N
           (Exception "ValueError" "no command") (self_attrs recording_world)).
  - discriminate.
  - reflexivity.
  - reflexivity.
Defined.

(** ** The capture loop with the callback of [awaken] *)

Section Awaken.

Context (self : SimpleAudioRecorder) (model : wav -> res pystr)
        (env : threading) (mentions : pystr -> res bool)
        (assistant : pystr -> res pystr).
Context (lead sp tr : list chunk) (result : pystr).
Hypothesis lead_silent : Forall (silent self) lead.
Hypothesis sp_speech : Forall (speech self) sp.
Hypothesis sp_nonempty : sp <> [].
Hypothesis tr_silent : Forall (silent self) tr.
Hypothesis tr_length : Z.of_nat (length tr) = frames_to_break self.
Hypothesis limit_finite : finite_limit self = true.
Hypothesis wave_writes : wave_error self (sp ++ tr) = None.
Hypothesis model_hears : model (wave_of self (sp ++ tr)) = Ret result.
Hypothesis text_nonempty : strip result <> [].

(** The run over an utterance that the model hears as a text, with
    [process_text] as the callback. *)
Lemma record_audio_heard (rest : list input) (w : world) :
  is_recording (self_attrs w) = true ->
  _record_audio self model (process_text_callback env mentions assistant)
    (map Read (lead ++ sp ++ tr) ++ rest) w
  = record_loop (S (length rest)) self model
      (process_text_callback env mentions assistant) rest
      (after_utterance (sp ++ tr) (took self ++ [Callback (strip result)])
         (snd (process_text env mentions assistant (strip result)
                 (self_attrs w)))
         (log (Print SpeechDetected) (opened w))).
Proof.
  intros Hrec.
  destruct (record_audio_utterance self model
              (process_text_callback env mentions assistant) lead sp tr
              lead_silent sp_speech sp_nonempty tr_silent rest w
              limit_finite wave_writes Hrec tr_length) as (w' & Hu & Hrun).
  rewrite (utterance_callback self model
             (process_text_callback env mentions assistant) (sp ++ tr)
             (log (Print SpeechDetected) (opened w)) result (Ret tt)
             (snd (process_text env mentions assistant (strip result)
                     (self_attrs w))) wave_writes model_hears text_nonempty
             eq_refl)
    in Hu.
  injection Hu as <-. exact Hrun.
Qed.

(** What the utterance has added when the loop goes on. *)
Lemma heard_utterances (a : attrs) (w : world) :
  utterances (trace (after_utterance (sp ++ tr)
                       (took self ++ [Callback (strip result)]) a
                       (log (Print SpeechDetected) (opened w))))
  = utterances (trace w) ++ [sp ++ tr].
Proof.
  cbn [after_utterance trace]. unfold took, opened, log. cbn [trace].
  rewrite !utterances_app.
  destruct (print_transcription_time self); cbn; now rewrite !app_nil_r.
Qed.

Lemma heard_callbacks (a : attrs) (w : world) :
  callbacks (trace (after_utterance (sp ++ tr)
                      (took self ++ [Callback (strip result)]) a
                      (log (Print SpeechDetected) (opened w))))
  = callbacks (trace w) ++ [strip result].
Proof.
  cbn [after_utterance trace]. unfold took, opened, log. cbn [trace].
  rewrite !callbacks_app.
  destruct (print_transcription_time self); cbn; now rewrite !app_nil_r.
Qed.

End Awaken.

(** X22: in the program as [awaken] runs it, with the capture loop on the
    recording thread, the first utterance that names the assistant ends
    the loop: [process_text] fails to stop the recorder but has cleared the
    flag, so [_record_audio] returns and stops and closes the stream, and
    the chunks that follow are not read. *)
Theorem wake_word_ends_the_capture_loop
    (self : SimpleAudioRecorder) (model : wav -> res pystr)
    (env : threading) (mentions : pystr -> res bool)
    (assistant : pystr -> res pystr)
    (lead sp tr more : list chunk) (result : pystr) (w : world) :
  Forall (silent self) lead -> Forall (speech self) sp -> sp <> [] ->
  Forall (silent self) tr ->
  Z.of_nat (length tr) = frames_to_break self ->
  finite_limit self = true ->
  wave_error self (sp ++ tr) = None ->
  model (wave_of self (sp ++ tr)) = Ret result ->
  strip result <> [] ->
  is_recording (self_attrs w) = true ->
  recording_thread (self_attrs w) = Some (current_thread env) ->
  mentions (strip result) = Ret true ->
  exists w',
    _record_audio self model (process_text_callback env mentions assistant)
      (map Read (lead ++ sp ++ tr) ++ map Read more) w
    = Returned (log StreamClose (log StreamStop w'))
    /\ self_attrs w' = set_is_recording false (self_attrs w)
    /\ utterances (trace w') = utterances (trace w) ++ [sp ++ tr]
    /\ callbacks (trace w') = callbacks (trace w) ++ [strip result].
Proof.
  intros Hlead Hsp Hne Htr Hlen Hc Hwave Hmodel Htext Hrec Hthread Hm.
  pose proof (record_audio_heard self model env mentions assistant lead sp tr
                result Hlead Hsp Hne Htr Hlen Hc Hwave Hmodel Htext
                (map Read more) w Hrec) as Hrun.
  assert (Hoff : snd (process_text env mentions assistant (strip result)
                        (self_attrs w))
                 = set_is_recording false (self_attrs w)).
  { unfold process_text.
    rewrite Hm, (stop_on_recording_thread env _ Hthread). reflexivity. }
  rewrite Hoff in Hrun. eexists. split; [|split; [|split]].
  - rewrite Hrun. cbn [record_loop].
    assert (Hp : forall w1, pending (map Read more) w1 = (map Read more, w1))
      by (intros w1; destruct more; reflexivity).
    rewrite Hp. reflexivity.
  - reflexivity.
  - apply heard_utterances.
  - apply heard_callbacks.
Qed.

Lemma wake_word_ends_the_capture_loop_witness :
  exists w',
    _record_audio default_recorder returns_hi
      (process_text_callback loop_thread (fun _ => Ret true) returns_hi_text)
      (map Read ([quiet] ++ [loud] ++ repeat quiet 32) ++ map Read [loud])
      recording_world
    = Returned (log StreamClose (log StreamStop w'))
    /\ self_attrs w' = set_is_recording false (self_attrs recording_world)
    /\ utterances (trace w')
       = utterances (trace recording_world) ++ [[loud] ++ repeat quiet 32]
    /\ callbacks (trace w')
       = callbacks (trace recording_world) ++ [strip hi_padded].
Proof.
  apply (wake_word_ends_the_capture_loop default_recorder returns_hi
           loop_thread (fun _ => Ret true) returns_hi_text
           [quiet] [loud] (repeat quiet 32) [loud] hi_padded recording_world).
  - constructor; [exact quiet_silent|constructor].
  - constructor; [exact loud_speech|constructor].
  - discriminate.
  - apply quiet_is_silent.
  - vm_compute. reflexivity.
  - reflexivity.
  - vm_compute. reflexivity.
  - reflexivity.
  - discriminate.
  - reflexivity.
  - reflexivity.
  - reflexivity.
Defined.

(** X23: when the capture loop does not run on the recording thread,
    [process_text] works as the callback and the loop listens on: after an
    utterance that names the assistant, answered by the assistant, and
    over the silence that follows, the run waits for the next chunk with
    an empty buffer, the recorder recording with its attributes as before,
    no temporary file left, and the trace the one of a single utterance
    given to the callback; and when a second utterance follows, it is
    written as the next buffer. *)
Theorem wake_word_is_answered_off_recording_thread
    (self : SimpleAudioRecorder) (model : wav -> res pystr)
    (env : threading) (mentions : pystr -> res bool)
    (assistant : pystr -> res pystr)
    (lead sp tr : list chunk) (result output : pystr) (w : world) :
  Forall (silent self) lead -> Forall (speech self) sp -> sp <> [] ->
  Forall (silent self) tr ->
  Z.of_nat (length tr) = frames_to_break self ->
  finite_limit self = true ->
  wave_error self (sp ++ tr) = None ->
  model (wave_of self (sp ++ tr)) = Ret result ->
  strip result <> [] ->
  is_recording (self_attrs w) = true ->
  recording_thread (self_attrs w) <> Some (current_thread env) ->
  mentions (strip result) = Ret true ->
  assistant (strip result) = Ret output ->
  (forall more : list chunk,
      Forall (silent self) more ->
      _record_audio self model (process_text_callback env mentions assistant)
        (map Read (lead ++ sp ++ tr) ++ map Read more) w
      = Reading no_capture
          {| self_attrs := self_attrs w;
             tmpfiles := tmpfiles w;
             trace := trace w ++
               [StreamOpen; Print ListeningForSpeech; Print SpeechDetected;
                TempFile (temp_name w); WavWrite (temp_name w) (sp ++ tr);
                Transcribe (temp_name w)] ++
               took self ++
               [Callback (strip result); Unlink (temp_name w);
                Print ListeningForSpeech] |})
  /\ (forall lead2 sp2 tr2 : list chunk,
        Forall (silent self) lead2 -> Forall (speech self) sp2 ->
        sp2 <> [] -> Forall (silent self) tr2 ->
        Z.of_nat (length tr2) = frames_to_break self ->
        wave_error self (sp2 ++ tr2) = None ->
        written (_record_audio self model
                   (process_text_callback env mentions assistant)
                   (map Read (lead ++ sp ++ tr)
                    ++ map Read (lead2 ++ sp2 ++ tr2)) w)
        = utterances (trace w) ++ [sp ++ tr; sp2 ++ tr2]).
Proof.
  intros Hlead Hsp Hne Htr Hlen Hc Hwave Hmodel Htext Hrec Hthread Hm Ha.
  pose proof (record_audio_heard self model env mentions assistant lead sp tr
                result Hlead Hsp Hne Htr Hlen Hc Hwave Hmodel Htext) as Hrun.
  assert (Hsame : snd (process_text env mentions assistant (strip result)
                         (self_attrs w))
                  = self_attrs w)
    by now rewrite (process_text_answered env mentions assistant (strip result)
                      output (self_attrs w) Hthread Hrec Hm Ha).
  split.
  - intros more Hmore. rewrite (Hrun (map Read more) w Hrec), Hsame.
    rewrite record_loop_listens_on by exact Hmore.
    unfold after_utterance, opened, log, temp_name.
    cbn [trace tmpfiles self_attrs]. rewrite Hrec, <- !app_assoc.
    reflexivity.
  - intros lead2 sp2 tr2 Hlead2 Hsp2 Hne2 Htr2 Hlen2 Hwave2.
    rewrite (Hrun (map Read (lead2 ++ sp2 ++ tr2)) w Hrec), Hsame.
    rewrite record_loop_next_utterance;
      try assumption; [|rewrite length_map; lia].
    rewrite (heard_utterances self sp tr result), <- app_assoc. reflexivity.
Qed.

Lemma wake_word_is_answered_off_recording_thread_witness :
  _record_audio default_recorder returns_hi
    (process_text_callback main_thread (fun _ => Ret true) returns_hi_text)
    (map Read ([quiet] ++ [loud] ++ repeat quiet 32) ++ map Read [quiet; quiet])
    recording_world
  = Reading no_capture
      {| self_attrs := self_attrs recording_world; tmpfiles := ∅;
         trace :=
           [StreamOpen; Print ListeningForSpeech; Print SpeechDetected;
            TempFile 0; WavWrite 0 (loud :: repeat quiet 32); Transcribe 0;
            Print TranscriptionTook; Callback [104; 105]%N; Unlink 0;
            Print ListeningForSpeech] |}
  /\ written (_record_audio default_recorder returns_hi
                (process_text_callback main_thread (fun _ => Ret true)
                   returns_hi_text)
                (map Read ([quiet] ++ [loud] ++ repeat quiet 32)
                 ++ map Read ([] ++ [loud; loud] ++ repeat quiet 32))
                recording_world)
     = [loud :: repeat quiet 32; [loud; loud] ++ repeat quiet 32].
Proof.
  destruct (wake_word_is_answered_off_recording_thread default_recorder
              returns_hi main_thread (fun _ => Ret true) returns_hi_text
              [quiet] [loud] (repeat quiet 32) hi_padded hi_padded
              recording_world) as [Hon Hnext].
  - constructor; [exact quiet_silent|constructor].
  - constructor; [exact loud_speech|constructor].
  - discriminate.
  - apply quiet_is_silent.
  - vm_compute. reflexivity.
  - reflexivity.
  - vm_compute. reflexivity.
  - reflexivity.
  - discriminate.
  - reflexivity.
  - discriminate.
  - reflexivity.
  - reflexivity.
  - split.
    + rewrite (Hon [quiet; quiet] (quiet_is_silent 2)). reflexivity.
    + rewrite (Hnext [] [loud; loud] (repeat quiet 32)).
      * reflexivity.
      * constructor.
      * exact loud_loud_speech.
      * discriminate.
      * apply quiet_is_silent.
      * vm_compute. reflexivity.
      * vm_compute. reflexivity.
Defined.

(** ** The silence at the end of a buffer *)

Lemma trailing_silence_snoc self (fs : list chunk) (d : chunk) :
  trailing_silence self (fs ++ [d])
  = if is_silent self d then S (trailing_silence self fs) else 0%nat.
Proof. unfold trailing_silence. rewrite rev_app_distr. reflexivity. Qed.

(** After speech the count is the number of silent chunks at the end of
    the buffer, and it does not pass the count that ends an utterance. *)
Lemma listen_counts self stream c w :
  finite_limit self = true ->
  (speech_detected c = true ->
   0 <= silence_count c < frames_to_break self
   /\ Z.of_nat (trailing_silence self (frames c)) = silence_count c) ->
  match listen self stream c w with
  | Exited _ c' _ | Blocked c' _ =>
      speech_detected c' = true ->
      0 <= silence_count c' <= frames_to_break self
      /\ Z.of_nat (trailing_silence self (frames c')) = silence_count c'
  | Failed _ _ => True
  end.
Proof.
  intros Hfin.
  pose proof (frames_to_break_pos self) as Hpos.
  revert c w. induction stream as [|[d|b] stream IH]; intros c w Hc;
    cbn [listen].
  - destruct (is_recording (self_attrs w)); intros Hsd;
      destruct (Hc Hsd); split; (lia || assumption).
  - destruct (is_recording (self_attrs w));
      [|intros Hsd; destruct (Hc Hsd); split; (lia || assumption)].
    destruct (_is_silence self d) as [[|]|e] eqn:Hd; [| |exact I].
    + destruct (speech_detected c) eqn:Hsd; [|apply IH; now rewrite Hsd].
      destruct (Hc eq_refl) as [Hn Htr].
      assert (Htr' : Z.of_nat (trailing_silence self (frames c ++ [d]))
                     = silence_count c + 1).
      { rewrite trailing_silence_snoc. unfold is_silent. rewrite Hd. lia. }
      destruct (enough_silence self _) as [[|]|e] eqn:He; [| |exact I].
      * cbn [speech_detected silence_count frames]. intros _.
        split; [lia|exact Htr'].
      * apply IH. cbn [speech_detected silence_count frames]. intros _.
        split; [|exact Htr'].
        cbn [silence_count] in He.
        rewrite enough_silence_break in He by (assumption || lia).
        inversion He as [Hb]. apply Z.leb_gt in Hb. lia.
    + apply IH. cbn [speech_detected silence_count frames]. intros _.
      split; [lia|]. rewrite trailing_silence_snoc. unfold is_silent.
      rewrite Hd. reflexivity.
  - apply IH, Hc.
Qed.

(** X24: when the limit the code computes is a number, no buffer a run
    writes ends with more silent chunks than the count at which the code
    ends an utterance, the first count above the computed limit: the
    trailing silence handed to the model is at most [frames_to_break]
    chunks, on every input. *)
Theorem trailing_silence_is_bounded
    (self : SimpleAudioRecorder) (model : wav -> res pystr)
    (callback : pystr -> attrs -> res unit * attrs)
    (stream : list input) (w : world) :
  finite_limit self = true ->
  exists new,
    written (_record_audio self model callback stream w)
    = utterances (trace w) ++ new
    /\ Forall (fun fs => Z.of_nat (trailing_silence self fs)
                         <= frames_to_break self) new.
Proof.
  intros Hfin.
  set (G := fun fs => Z.of_nat (trailing_silence self fs)
                      <= frames_to_break self).
  set (P := fun w1 : world => exists new,
     utterances (trace w1) = utterances (trace w) ++ new /\ Forall G new).
  assert (HG : forall stream0 w0 rest c w',
            listen self stream0 no_capture w0 = Exited rest c w' ->
            speech_detected c = true -> G (frames c)).
  { intros stream0 w0 rest c w' Hl Hsd.
    pose proof (listen_counts self stream0 no_capture w0 Hfin) as Hc.
    rewrite Hl in Hc. destruct Hc as [Hn Htr]; [discriminate|exact Hsd|].
    unfold G. lia. }
  assert (Hd : forall w1, P w1 -> P (log (Print SpeechDetected) w1)).
  { intros w1 Hw1. unfold P. now rewrite detected_utterances. }
  assert (Hu : forall fs w1 w2, P w1 -> G fs ->
            transcribe_utterance self model callback fs w1 = (Ret tt, w2) ->
            P w2).
  { intros fs w1 w2 (new & Hnew & Hgood) Hfs Hrun.
    apply utterance_shows in Hrun. destruct Hrun as (_ & Hut & _).
    exists (new ++ [fs]). rewrite Hut, Hnew, <- app_assoc.
    split; [reflexivity|]. apply Forall_app. split; [exact Hgood|].
    constructor; [exact Hfs|constructor]. }
  assert (H0 : P (opened w)).
  { exists []. rewrite opened_utterances, app_nil_r.
    split; [reflexivity|constructor]. }
  unfold _record_audio. fold (opened w).
  pose proof (record_loop_invariant self model callback G HG P
                (fun b w1 Hw1 => Hw1) Hd Hu
                (S (length stream)) stream (opened w)
                (Nat.lt_succ_diag_r _) H0) as H.
  unfold written.
  destruct (record_loop _ _ _ _ _ _) as [w'|c w'|e w'|]; [| | |contradiction];
    cbn [final_world].
  - destruct H as (w1 & -> & (new & Hnew & Hgood) & _). exists new.
    split; [|exact Hgood]. unfold log. cbn [trace].
    rewrite !utterances_app, Hnew. cbn. now rewrite !app_nil_r.
  - apply H.
  - destruct H as [H|(w1 & fs & H & _ & _ & ->)]; [exact H|].
    rewrite wave_failed_utterances. exact H.
Qed.

Lemma trailing_silence_is_bounded_witness :
  exists new,
    written (_record_audio default_recorder returns_hi callback_returns
               (map Read (loud :: repeat quiet 40)) recording_world)
    = utterances (trace recording_world) ++ new
    /\ Forall (fun fs => Z.of_nat (trailing_silence default_recorder fs)
                         <= frames_to_break default_recorder) new.
Proof.
  apply (trailing_silence_is_bounded default_recorder returns_hi
           callback_returns (map Read (loud :: repeat quiet 40))
           recording_world).
  reflexivity.
Defined.

(** ** A recorder that was not started *)

(** X25: on a recorder as [__init__] leaves it, not recording,
    [_record_audio] opens the stream, finds the flag cleared and stops and
    closes the stream again: no chunk is read and nothing is written,
    however much audio there is. *)
Theorem not_started_reads_nothing
    (self : SimpleAudioRecorder) (model : wav -> res pystr)
    (callback : pystr -> attrs -> res unit * attrs)
    (cs : list chunk) (w : world) :
  self_attrs w = init_attrs ->
  _record_audio self model callback (map Read cs) w
  = Returned (log StreamClose (log StreamStop (opened w))).
Proof.
  intros Hw. unfold _record_audio. fold (opened w). cbn [record_loop].
  assert (Hp : pending (map Read cs) (opened w) = (map Read cs, opened w))
    by (destruct cs; reflexivity).
  rewrite Hp, opened_attrs, Hw. reflexivity.
Qed.

Lemma not_started_reads_nothing_witness :
  _record_audio default_recorder returns_hi callback_returns
    (map Read [loud; quiet]) new_world
  = Returned (log StreamClose (log StreamStop (opened new_world))).
Proof.
  apply (not_started_reads_nothing default_recorder returns_hi
           callback_returns [loud; quiet] new_world).
  reflexivity.
Defined.
